(** * A shallow embedding of [vector.h]: [RawMemory<T>] and [Vector<T>]

    The element type [T] is a template parameter of the source; its
    constructors, assignments and moved-from states are the fields of the
    class [ElemType].  Raw storage is a heap of blocks of cells, each cell
    either raw or holding a live [T].  [Vector] objects live in a store
    indexed by their address, so that [this != &other] is a comparison of
    addresses.  [size_t] values are modelled by [nat]: a buffer of
    [capacity_] cells is present in memory, which keeps [size_ * 2] far
    below the range of [size_t].  A size that the caller chooses
    ([Reserve(n)], [Resize(n)], [Vector(n)], [RawMemory(n)]) is not bounded
    in this way: [Allocate] multiplies it by [sizeof(T)] in [size_t], and
    the statements about such calls require that this product does not
    wrap ([fits_size_t]). *)

From Stdlib Require Import Arith NArith Lia Bool.
From stdpp Require Import base option list gmap.

Set Default Proof Using "Type".

(** ** Cells, pointers, the two classes of the source *)

Inductive cell (T : Type) : Type :=
  | Raw
  | Live (v : T).
Arguments Raw {T}.
Arguments Live {T} v.

(** A [T*]: the block it points into ([None] for a null pointer) and the
    index of the cell. *)
Record pointer : Type := Ptr { base : option nat; offset : nat }.

Definition nullptr : pointer := Ptr None 0.

Definition padd (p : pointer) (n : nat) : pointer := Ptr (base p) (offset p + n).
Definition pprev (p : pointer) : pointer := Ptr (base p) (offset p - 1).

Notation "p +ₚ n" := (padd p n) (at level 50, left associativity).

Global Instance pointer_eq_dec : EqDecision pointer.
Proof. solve_decision. Defined.

(** [p <= q] on pointers into the same array. *)
Definition ptr_le (p q : pointer) : bool :=
  bool_decide (base p = base q) && (offset p <=? offset q).

(** [p - q] as a [size_t], for [q <= p] in the same array. *)
Definition ptr_diff (p q : pointer) : option nat :=
  if bool_decide (base p = base q) && (offset q <=? offset p)
  then Some (offset p - offset q) else None.

Record RawMemory : Type := mkRawMemory { buffer_ : pointer; capacity_ : nat }.

Record Vector : Type := mkVector { data_ : RawMemory; size_ : nat }.

(** What the source requires of its template parameter [T]. The [nat]
    argument of the [_throws] fields is the number of fallible calls made
    so far, so that a [T] failing on its k-th call can be described.
    [value_initialized] is the value of [T()], [moved_from v] the value a
    move leaves in a source that held [v]. *)
Class ElemType (T : Type) : Type := {
  value_initialized : T;
  moved_from : T → T;
  ctor_throws : nat → T → bool;
  copy_ctor_throws : nat → T → bool;
  move_ctor_throws : nat → T → bool;
  copy_assign_throws : nat → T → bool;
  move_assign_throws : nat → T → bool;
  is_nothrow_move_constructible : bool;
  is_copy_constructible : bool;
}.

(** [operator new]: whether the request for [n] cells made at call [k]
    raises [std::bad_alloc]. *)
Class Allocator : Type := { new_throws : nat → nat → bool }.

(** [sizeof(T)], in bytes. *)
Class SizeOf (T : Type) : Type := {
  sizeof : N;
  sizeof_pos : (0 < sizeof)%N;
}.

(** [SIZE_MAX], for a [size_t] of 64 bits. *)
Definition SIZE_MAX : N := (2 ^ 64 - 1)%N.

Inductive exn : Type :=
  | bad_alloc
  | element_failure.

(** The outcome of running a piece of code: a value, a C++ exception, a
    failed [assert], or undefined behaviour (reading a raw cell, freeing a
    block twice, an invalid iterator range, ...). *)
Inductive outcome (A : Type) : Type :=
  | Ok (a : A)
  | Throw (e : exn)
  | Abort
  | Undefined.
Arguments Ok {A} a.
Arguments Throw {A} e.
Arguments Abort {A}.
Arguments Undefined {A}.

(** The arguments [Args&&...] handed to a constructor of [T]: a [const T&],
    a [T&&], or anything else from which [T] builds the value [v]. An
    argument is given by the value it denotes: a reference is to an object
    that the call leaves alone, so not to an element that an insertion
    shifts or destroys before the new element is constructed. *)
Inductive ctor_args (T : Type) : Type :=
  | ByCopy (v : T)
  | ByMove (v : T)
  | ByArgs (v : T).
Arguments ByCopy {T} v.
Arguments ByMove {T} v.
Arguments ByArgs {T} v.

Definition arg_value {T} (a : ctor_args T) : T :=
  match a with ByCopy v | ByMove v | ByArgs v => v end.

Section Model.
Context {T : Type} {E : ElemType T} {A : Allocator}.

Record world : Type := mkWorld {
  heap : gmap nat (list (cell T));
  raws : gmap nat RawMemory;
  vecs : gmap nat Vector;
  clock : nat;
  leaked : list T;
}.

Definition set_heap (h : gmap nat (list (cell T))) (w : world) : world :=
  mkWorld h (raws w) (vecs w) (clock w) (leaked w).
Definition set_raws (r : gmap nat RawMemory) (w : world) : world :=
  mkWorld (heap w) r (vecs w) (clock w) (leaked w).
Definition set_vecs (v : gmap nat Vector) (w : world) : world :=
  mkWorld (heap w) (raws w) v (clock w) (leaked w).
Definition set_clock (k : nat) (w : world) : world :=
  mkWorld (heap w) (raws w) (vecs w) k (leaked w).
Definition set_leaked (l : list T) (w : world) : world :=
  mkWorld (heap w) (raws w) (vecs w) (clock w) l.

(** ** The monad of the embedding: state and outcomes *)

Definition M (X : Type) : Type := world → outcome X * world.

Definition ret {X} (x : X) : M X := fun w => (Ok x, w).

Definition bind {X Y} (c : M X) (k : X → M Y) : M Y := fun w =>
  match c w with
  | (Ok x, w1) => k x w1
  | (Throw e, w1) => (Throw e, w1)
  | (Abort, w1) => (Abort, w1)
  | (Undefined, w1) => (Undefined, w1)
  end.

Definition throw {X} (e : exn) : M X := fun w => (Throw e, w).
Definition undefined {X} : M X := fun w => (Undefined, w).

(** [assert(b)], with assertions compiled in. *)
Definition assert_ (b : bool) : M unit := fun w =>
  if b then (Ok tt, w) else (Abort, w).

Definition lift_option {X} (o : option X) : M X := fun w =>
  match o with Some x => (Ok x, w) | None => (Undefined, w) end.

(** [try { c } catch (...) { cleanup; throw; }], and the unwinding of a scope
    whose local has the destructor [cleanup]. *)
Definition on_unwind {X} (cleanup : M unit) (c : M X) : M X := fun w =>
  match c w with
  | (Throw e, w1) =>
      match cleanup w1 with
      | (Ok _, w2) => (Throw e, w2)
      | (Throw e', w2) => (Throw e', w2)
      | (Abort, w2) => (Abort, w2)
      | (Undefined, w2) => (Undefined, w2)
      end
  | r => r
  end.

(** The next fallible call: its number. *)
Definition tick : M nat := fun w => (Ok (clock w), set_clock (S (clock w)) w).

End Model.

Notation "x <- c ;; k" := (bind c (fun x => k))
  (at level 100, c at next level, right associativity).
Notation "c ;; k" := (bind c (fun _ => k))
  (at level 100, right associativity).

Section Memory.
Context {T : Type} {E : ElemType T} {A : Allocator}.

Local Abbreviation world := (@world T).
Local Abbreviation M := (@M T).

(** ** Cells *)

Definition cell_at (w : world) (p : pointer) : option (cell T) :=
  b ← base p; cs ← heap w !! b; cs !! offset p.

Definition put_cell (p : pointer) (c : cell T) (w : world) : world :=
  match base p with
  | Some b =>
      match heap w !! b with
      | Some cs => set_heap (<[b := <[offset p := c]> cs]> (heap w)) w
      | None => w
      end
  | None => w
  end.

(** [*p] for a live object. *)
Definition deref (p : pointer) : M T := fun w =>
  match cell_at w p with
  | Some (Live v) => (Ok v, w)
  | _ => (Undefined, w)
  end.

(** A live object comes to be in the cell at [p]; an object that was live
    there loses its storage without its destructor having run. *)
Definition emplace_cell (p : pointer) (v : T) : M unit := fun w =>
  match cell_at w p with
  | Some Raw => (Ok tt, put_cell p (Live v) w)
  | Some (Live u) => (Ok tt, set_leaked (leaked w ++ [u]) (put_cell p (Live v) w))
  | None => (Undefined, w)
  end.

(** An assignment changes the value of the live object at [p]. *)
Definition assign_cell (p : pointer) (v : T) : M unit := fun w =>
  match cell_at w p with
  | Some (Live _) => (Ok tt, put_cell p (Live v) w)
  | _ => (Undefined, w)
  end.

(** [std::destroy_at(p)]. Destructors do not raise. *)
Definition destroy_at (p : pointer) : M unit := fun w =>
  match cell_at w p with
  | Some (Live _) => (Ok tt, put_cell p Raw w)
  | _ => (Undefined, w)
  end.

(** A noexcept move constructor does not raise. *)
Definition move_ctor_raises (k : nat) (v : T) : bool :=
  negb is_nothrow_move_constructible && move_ctor_throws k v.

(** [new (p) T(std::forward<Args>(args)...)] *)
Definition construct_at (p : pointer) (a : ctor_args T) : M unit :=
  k <- tick ;;
  match a with
  | ByCopy v => if copy_ctor_throws k v then throw element_failure else emplace_cell p v
  | ByMove v => if move_ctor_raises k v then throw element_failure else emplace_cell p v
  | ByArgs v => if ctor_throws k v then throw element_failure else emplace_cell p v
  end.

(** [new (dst) T(x)] for the object [x] at [src] *)
Definition copy_construct (dst src : pointer) : M unit :=
  v <- deref src ;;
  construct_at dst (ByCopy v).

(** [new (dst) T(std::move(x))] for the object [x] at [src]: the source stays live, moved from. *)
Definition move_construct (dst src : pointer) : M unit :=
  v <- deref src ;;
  construct_at dst (ByMove v) ;;
  assign_cell src (moved_from v).

(** [*dst = x] for the object [x] at [src] *)
Definition copy_assign (dst src : pointer) : M unit :=
  v <- deref src ;;
  k <- tick ;;
  if copy_assign_throws k v then throw element_failure
  else assign_cell dst v.

(** [*dst = std::move(x)] for the object [x] at [src] *)
Definition move_assign (dst src : pointer) : M unit :=
  v <- deref src ;;
  k <- tick ;;
  if move_assign_throws k v then throw element_failure
  else (assign_cell dst v ;; assign_cell src (moved_from v)).

(** ** The algorithms of <memory> and <algorithm> that the source calls,
    after their specification in the C++ standard. *)

(** [std::destroy_n(first, n)] *)
Fixpoint destroy_n (first : pointer) (n : nat) : M unit :=
  match n with
  | 0 => ret tt
  | S k => destroy_at first ;; destroy_n (first +ₚ 1) k
  end.

(** [std::uninitialized_copy_n(first, n, d_first)]: when a constructor
    raises, the objects already constructed are destroyed. *)
Fixpoint uninitialized_copy_n (first : pointer) (n : nat) (d_first : pointer) : M unit :=
  match n with
  | 0 => ret tt
  | S k =>
      copy_construct d_first first ;;
      on_unwind (destroy_at d_first)
        (uninitialized_copy_n (first +ₚ 1) k (d_first +ₚ 1))
  end.

(** [std::uninitialized_move_n(first, n, d_first)] *)
Fixpoint uninitialized_move_n (first : pointer) (n : nat) (d_first : pointer) : M unit :=
  match n with
  | 0 => ret tt
  | S k =>
      move_construct d_first first ;;
      on_unwind (destroy_at d_first)
        (uninitialized_move_n (first +ₚ 1) k (d_first +ₚ 1))
  end.

(** [std::uninitialized_value_construct_n(first, n)] *)
Fixpoint uninitialized_value_construct_n (first : pointer) (n : nat) : M unit :=
  match n with
  | 0 => ret tt
  | S k =>
      construct_at first (ByArgs value_initialized) ;;
      on_unwind (destroy_at first)
        (uninitialized_value_construct_n (first +ₚ 1) k)
  end.

Fixpoint copy_loop (first : pointer) (n : nat) (d_first : pointer) : M unit :=
  match n with
  | 0 => ret tt
  | S k => copy_assign d_first first ;; copy_loop (first +ₚ 1) k (d_first +ₚ 1)
  end.

(** [std::copy(first, last, d_first)] *)
Definition std_copy (first last d_first : pointer) : M unit :=
  n <- lift_option (ptr_diff last first) ;;
  copy_loop first n d_first.

Fixpoint move_loop (first : pointer) (n : nat) (d_first : pointer) : M unit :=
  match n with
  | 0 => ret tt
  | S k => move_assign d_first first ;; move_loop (first +ₚ 1) k (d_first +ₚ 1)
  end.

(** [std::move(first, last, d_first)] *)
Definition std_move (first last d_first : pointer) : M unit :=
  n <- lift_option (ptr_diff last first) ;;
  move_loop first n d_first.

Fixpoint move_backward_loop (last : pointer) (n : nat) (d_last : pointer) : M unit :=
  match n with
  | 0 => ret tt
  | S k =>
      move_assign (pprev d_last) (pprev last) ;;
      move_backward_loop (pprev last) k (pprev d_last)
  end.

(** [std::move_backward(first, last, d_last)] *)
Definition move_backward (first last d_last : pointer) : M unit :=
  n <- lift_option (ptr_diff last first) ;;
  move_backward_loop last n d_last.

End Memory.

(** ** [RawMemory<T>] *)

Section RawMemoryClass.
Context {T : Type} {E : ElemType T} {A : Allocator}.

Local Abbreviation world := (@world T).
Local Abbreviation M := (@M T).

(** [Allocate(n)]: [n != 0 ? operator new(n * sizeof(T)) : nullptr]. The
    block is given by its [n] cells, which is what [operator new] returns
    (if it returns) when [n * sizeof(T)] does not wrap in [size_t]; see
    [requested_bytes] and [fits_size_t]. A request whose product wraps is
    outside this embedding. *)
Definition Allocate (n : nat) : M pointer :=
  if n =? 0 then ret nullptr
  else
    k <- tick ;;
    if new_throws k n then throw bad_alloc
    else fun w =>
      let b := fresh (dom (heap w)) in
      (Ok (Ptr (Some b) 0), set_heap (<[b := replicate n Raw]> (heap w)) w).

Definition live_values (cs : list (cell T)) : list T :=
  omap (fun c => match c with Live v => Some v | Raw => None end) cs.

(** [Deallocate(buf)]: [operator delete(buf)]. Objects still live in the
    block lose their storage without having been destroyed. *)
Definition Deallocate (buf : pointer) : M unit := fun w =>
  match base buf with
  | None => if offset buf =? 0 then (Ok tt, w) else (Undefined, w)
  | Some b =>
      match heap w !! b with
      | Some cs =>
          if offset buf =? 0
          then (Ok tt, set_leaked (leaked w ++ live_values cs)
                         (set_heap (delete b (heap w)) w))
          else (Undefined, w)
      | None => (Undefined, w)
      end
  end.

(** [RawMemory() = default] *)
Definition RawMemory_default : RawMemory := mkRawMemory nullptr 0.

(** [explicit RawMemory(size_t capacity)] *)
Definition RawMemory_ctor (capacity : nat) : M RawMemory :=
  buffer <- Allocate capacity ;;
  ret (mkRawMemory buffer capacity).

(** [~RawMemory()] *)
Definition RawMemory_dtor (m : RawMemory) : M unit :=
  Deallocate (buffer_ m).

(** [Swap(RawMemory& other)]: the two objects after the exchange. *)
Definition RawMemory_Swap (this other : RawMemory) : RawMemory * RawMemory :=
  (mkRawMemory (buffer_ other) (capacity_ other),
   mkRawMemory (buffer_ this) (capacity_ this)).

Definition GetAddress (m : RawMemory) : pointer := buffer_ m.

Definition RawMemory_Capacity (m : RawMemory) : nat := capacity_ m.

(** [operator+(size_t offset)] *)
Definition RawMemory_plus (m : RawMemory) (off : nat) : M pointer :=
  assert_ (off <=? capacity_ m) ;;
  ret (buffer_ m +ₚ off).

(** [operator[](size_t index)], as the address of the cell. *)
Definition RawMemory_index (m : RawMemory) (index : nat) : M pointer :=
  assert_ (index <? capacity_ m) ;;
  ret (buffer_ m +ₚ index).

(** Free-standing [RawMemory] objects, by address. *)
Definition get_raw (a : nat) : M RawMemory := fun w =>
  match raws w !! a with
  | Some m => (Ok m, w)
  | None => (Undefined, w)
  end.

Definition set_raw (a : nat) (m : RawMemory) : M unit := fun w =>
  (Ok tt, set_raws (<[a := m]> (raws w)) w).

(** [RawMemory(RawMemory&& other)], constructing the object at [this]. *)
Definition RawMemory_move_ctor (this other : nat) : M unit :=
  o <- get_raw other ;;
  set_raw this (mkRawMemory (buffer_ o) (capacity_ o)) ;;
  o <- get_raw other ;;
  set_raw other (mkRawMemory (buffer_ o) 0) ;;
  o <- get_raw other ;;
  set_raw other (mkRawMemory nullptr (capacity_ o)).

(** [operator=(RawMemory&& other)] *)
Definition RawMemory_move_assign (this other : nat) : M unit :=
  if bool_decide (this ≠ other) then
    m <- get_raw this ;;
    Deallocate (buffer_ m) ;;
    set_raw this (mkRawMemory (buffer_ m) 0) ;;
    m <- get_raw this ;;
    o <- get_raw other ;;
    let '(m', o') := RawMemory_Swap m o in
    set_raw this m' ;;
    set_raw other o'
  else ret tt.

(** The destructor of the free-standing object at [this]. *)
Definition RawMemory_destroy (this : nat) : M unit :=
  m <- get_raw this ;;
  RawMemory_dtor m ;;
  fun w => (Ok tt, set_raws (delete this (raws w)) w).

End RawMemoryClass.

(** ** [Vector<T>] *)

Section VectorClass.
Context {T : Type} {E : ElemType T} {A : Allocator}.

Local Abbreviation world := (@world T).
Local Abbreviation M := (@M T).

Definition get_vec (this : nat) : M Vector := fun w =>
  match vecs w !! this with
  | Some v => (Ok v, w)
  | None => (Undefined, w)
  end.

Definition set_vec (this : nat) (v : Vector) : M unit := fun w =>
  (Ok tt, set_vecs (<[this := v]> (vecs w)) w).

Definition del_vec (this : nat) : M unit := fun w =>
  (Ok tt, set_vecs (delete this (vecs w)) w).

Definition set_size (this : nat) (n : nat) : M unit :=
  v <- get_vec this ;;
  set_vec this (mkVector (data_ v) n).

Definition set_data (this : nat) (d : RawMemory) : M unit :=
  v <- get_vec this ;;
  set_vec this (mkVector d (size_ v)).

(** The address of a local object. *)
Definition local_vec : M nat := fun w => (Ok (fresh (dom (vecs w))), w).

Definition begin (v : Vector) : pointer := GetAddress (data_ v).
Definition end_ (v : Vector) : pointer := GetAddress (data_ v) +ₚ size_ v.
Definition cbegin (v : Vector) : pointer := GetAddress (data_ v).
Definition cend (v : Vector) : pointer := GetAddress (data_ v) +ₚ size_ v.

Definition Size (v : Vector) : nat := size_ v.
Definition Capacity (v : Vector) : nat := RawMemory_Capacity (data_ v).

(** [Vector() = default] *)
Definition Vector_default (this : nat) : M unit :=
  set_vec this (mkVector RawMemory_default 0).

(** [explicit Vector(size_t size)]: when the body raises, the member
    [data_] is destroyed and no object comes to be at [this]. *)
Definition Vector_sized (this : nat) (size : nat) : M unit :=
  d <- RawMemory_ctor size ;;
  set_vec this (mkVector d size) ;;
  on_unwind (RawMemory_dtor d ;; del_vec this)
    (v <- get_vec this ;;
     uninitialized_value_construct_n (GetAddress (data_ v)) size).

(** [explicit Vector(const Vector& other)], likewise. *)
Definition Vector_copy_ctor (this other : nat) : M unit :=
  o <- get_vec other ;;
  d <- RawMemory_ctor (Size o) ;;
  set_vec this (mkVector d (Size o)) ;;
  on_unwind (RawMemory_dtor d ;; del_vec this)
    (v <- get_vec this ;;
     o <- get_vec other ;;
     uninitialized_copy_n (GetAddress (data_ o)) (size_ v) (GetAddress (data_ v))).

(** [Swap(Vector& other)] *)
Definition Swap (this other : nat) : M unit :=
  a <- get_vec this ;;
  b <- get_vec other ;;
  set_size this (size_ b) ;;
  set_size other (size_ a) ;;
  a <- get_vec this ;;
  b <- get_vec other ;;
  let '(da, db) := RawMemory_Swap (data_ a) (data_ b) in
  set_data this da ;;
  set_data other db.

(** [explicit Vector(Vector&& other)] *)
Definition Vector_move_ctor (this other : nat) : M unit :=
  Vector_default this ;;
  Swap this other.

(** [~Vector()], followed by the destructor of the member [data_]. *)
Definition Vector_dtor (this : nat) : M unit :=
  v <- get_vec this ;;
  destroy_n (GetAddress (data_ v)) (size_ v) ;;
  RawMemory_dtor (data_ v) ;;
  del_vec this.

(** The compile-time choice of [__CopyMoveConstruct] and [Emplace]. *)
Definition relocates_by_move : bool :=
  is_nothrow_move_constructible || negb is_copy_constructible.

Definition __CopyMoveConstruct (first result : pointer) (n : nat) : M unit :=
  if relocates_by_move then uninitialized_move_n first n result
  else uninitialized_copy_n first n result.

Definition Reserve (this : nat) (new_capacity : nat) : M unit :=
  v <- get_vec this ;;
  if new_capacity <=? RawMemory_Capacity (data_ v) then ret tt
  else
    new_data <- RawMemory_ctor new_capacity ;;
    on_unwind (RawMemory_dtor new_data)
      (__CopyMoveConstruct (GetAddress (data_ v)) (GetAddress new_data) (size_ v)) ;;
    destroy_n (GetAddress (data_ v)) (size_ v) ;;
    let '(d, new_data') := RawMemory_Swap (data_ v) new_data in
    set_data this d ;;
    RawMemory_dtor new_data'.

Definition PopBack (this : nat) : M unit :=
  v <- get_vec this ;;
  if 0 <? size_ v then
    destroy_at (pprev (GetAddress (data_ v) +ₚ size_ v)) ;;
    set_size this (size_ v - 1)
  else ret tt.

Definition Resize (this : nat) (new_size : nat) : M unit :=
  Reserve this new_size ;;
  v <- get_vec this ;;
  (if new_size <? size_ v then
     destroy_n (GetAddress (data_ v) +ₚ new_size) (size_ v - new_size)
   else if size_ v <? new_size then
     uninitialized_value_construct_n (GetAddress (data_ v) +ₚ size_ v) (new_size - size_ v)
   else ret tt) ;;
  set_size this new_size.

(** [EmplaceBack(Args&&... args)]; the reference returned is the address of
    the new element. *)
Definition EmplaceBack (this : nat) (args : ctor_args T) : M pointer :=
  v <- get_vec this ;;
  p_empl_element <-
    (if size_ v =? Capacity v then
       tmp_mem <- RawMemory_ctor (if size_ v =? 0 then 1 else size_ v * 2) ;;
       p <- on_unwind (RawMemory_dtor tmp_mem)
              (p <- RawMemory_plus tmp_mem (size_ v) ;;
               construct_at p args ;;
               __CopyMoveConstruct (GetAddress (data_ v)) (GetAddress tmp_mem) (size_ v) ;;
               ret p) ;;
       destroy_n (GetAddress (data_ v)) (size_ v) ;;
       let '(d, tmp_mem') := RawMemory_Swap (data_ v) tmp_mem in
       set_data this d ;;
       RawMemory_dtor tmp_mem' ;;
       ret p
     else
       p <- RawMemory_plus (data_ v) (size_ v) ;;
       construct_at p args ;;
       ret p) ;;
  v <- get_vec this ;;
  set_size this (size_ v + 1) ;;
  ret p_empl_element.

Definition PushBack (this : nat) (value : T) : M unit :=
  EmplaceBack this (ByCopy value) ;; ret tt.

Definition PushBack_rvalue (this : nat) (value : T) : M unit :=
  EmplaceBack this (ByMove value) ;; ret tt.

(** [Emplace(const_iterator pos, Args&&... args)]. The source reads [args]
    where it constructs the new element, which on the in-place path is
    after the shift and after [destroy_at(begin() + distance)]; [args]
    stands for arguments that these leave alone (see [ctor_args]). *)
Definition Emplace (this : nat) (pos : pointer) (args : ctor_args T) : M pointer :=
  v <- get_vec this ;;
  assert_ (ptr_le (begin v) pos && ptr_le pos (end_ v)) ;;
  distance <- lift_option (ptr_diff pos (begin v)) ;;
  p_empl_elem <-
    (if size_ v =? Capacity v then
       tmp_data <- RawMemory_ctor (if size_ v =? 0 then 1 else size_ v * 2) ;;
       p <- on_unwind (RawMemory_dtor tmp_data)
              (p <- RawMemory_plus tmp_data distance ;;
               construct_at p args ;;
               (if relocates_by_move then
                  uninitialized_move_n (begin v) distance (GetAddress tmp_data) ;;
                  uninitialized_move_n (begin v +ₚ distance) (size_ v - distance)
                    (GetAddress tmp_data +ₚ distance +ₚ 1)
                else
                  on_unwind (destroy_n (GetAddress tmp_data +ₚ distance) 1)
                    (uninitialized_copy_n (begin v) distance (GetAddress tmp_data) ;;
                     uninitialized_copy_n (begin v +ₚ distance) (size_ v - distance)
                       (GetAddress tmp_data +ₚ distance +ₚ 1))) ;;
               ret p) ;;
       destroy_n (begin v) (size_ v) ;;
       let '(d, tmp_data') := RawMemory_Swap (data_ v) tmp_data in
       set_data this d ;;
       RawMemory_dtor tmp_data' ;;
       ret p
     else
       (if negb (size_ v =? 0) then
          p <- RawMemory_plus (data_ v) (size_ v) ;;
          move_construct p (pprev (end_ v)) ;;
          on_unwind (destroy_n (end_ v) 1)
            (move_backward (begin v +ₚ distance) (end_ v) (end_ v +ₚ 1)) ;;
          destroy_at (begin v +ₚ distance)
        else ret tt) ;;
       p <- RawMemory_plus (data_ v) distance ;;
       construct_at p args ;;
       ret p) ;;
  v <- get_vec this ;;
  set_size this (size_ v + 1) ;;
  ret p_empl_elem.

Definition Insert (this : nat) (pos : pointer) (value : T) : M pointer :=
  Emplace this pos (ByCopy value).

Definition Insert_rvalue (this : nat) (pos : pointer) (value : T) : M pointer :=
  Emplace this pos (ByMove value).

(** The precondition that [Erase] asserts. *)
Definition Erase_assertion (v : Vector) (pos : pointer) : bool :=
  ptr_le (cbegin v) pos && ptr_le pos (cend v).

Definition Erase (this : nat) (pos : pointer) : M pointer :=
  v <- get_vec this ;;
  assert_ (Erase_assertion v pos) ;;
  distance <- lift_option (ptr_diff pos (cbegin v)) ;;
  std_move (begin v +ₚ distance +ₚ 1) (end_ v) (begin v +ₚ distance) ;;
  PopBack this ;;
  v <- get_vec this ;;
  ret (begin v +ₚ distance).

(** [operator[](size_t index)], as the address of the element. *)
Definition Vector_index (this : nat) (index : nat) : M pointer :=
  v <- get_vec this ;;
  assert_ (index <? size_ v) ;;
  RawMemory_index (data_ v) index.

(** [operator=(const Vector& other)] *)
Definition Vector_copy_assign (this other : nat) : M unit :=
  o <- get_vec other ;;
  let other_size := Size o in
  if bool_decide (this ≠ other) then
    v <- get_vec this ;;
    if Capacity v <? other_size then
      other_copy <- local_vec ;;
      Vector_copy_ctor other_copy other ;;
      Swap this other_copy ;;
      Vector_dtor other_copy
    else
      (if other_size <? size_ v then
         std_copy (GetAddress (data_ o)) (GetAddress (data_ o) +ₚ other_size)
           (GetAddress (data_ v)) ;;
         destroy_n (GetAddress (data_ v) +ₚ other_size) (size_ v - other_size)
       else
         std_copy (GetAddress (data_ o)) (GetAddress (data_ o) +ₚ size_ v)
           (GetAddress (data_ v)) ;;
         uninitialized_copy_n (GetAddress (data_ o) +ₚ size_ v) (other_size - size_ v)
           (GetAddress (data_ v) +ₚ size_ v)) ;;
      set_size this other_size
  else ret tt.

(** [operator=(Vector&& other)] *)
Definition Vector_move_assign (this other : nat) : M unit :=
  if bool_decide (this ≠ other) then Swap this other else ret tt.

End VectorClass.

(** ** What a caller observes of a [Vector] *)

Section Observations.
Context {T : Type}.

(** The cells [0 .. capacity) of the buffer of a vector. *)
Definition buffer_cells (w : @world T) (m : RawMemory) : option (list (cell T)) :=
  match base (buffer_ m) with
  | None => if capacity_ m =? 0 then Some [] else None
  | Some b => cs ← heap w !! b; if length cs =? capacity_ m then Some cs else None
  end.

Definition cells_of (w : @world T) (this : nat) : option (list (cell T)) :=
  v ← vecs w !! this; buffer_cells w (data_ v).

Definition size_of (w : @world T) (this : nat) : option nat :=
  size_ <$> vecs w !! this.

Definition capacity_of (w : @world T) (this : nat) : option nat :=
  (fun v => capacity_ (data_ v)) <$> vecs w !! this.

(** The sequence [l] with capacity [cap] is at [this]: exactly the first
    [size_] cells of the buffer are live, and they hold [l]. *)
Definition is_vector (w : @world T) (this : nat) (l : list T) (cap : nat) : Prop :=
  ∃ v, vecs w !! this = Some v ∧
       size_ v = length l ∧
       capacity_ (data_ v) = cap ∧
       offset (buffer_ (data_ v)) = 0 ∧
       (base (buffer_ (data_ v)) = None ↔ cap = 0) ∧
       buffer_cells w (data_ v) = Some ((Live <$> l) ++ replicate (cap - length l) Raw).

End Observations.

(** ** Element types used in the examples *)

(** An [int]: a move is a copy, nothing raises. *)
Definition int_elem : ElemType nat := {|
  value_initialized := 0;
  moved_from v := v;
  ctor_throws _ _ := false;
  copy_ctor_throws _ _ := false;
  move_ctor_throws _ _ := false;
  copy_assign_throws _ _ := false;
  move_assign_throws _ _ := false;
  is_nothrow_move_constructible := true;
  is_copy_constructible := true;
|}.

(** A [std::unique_ptr]-like handle on the resource [v]: moving from it
    leaves the null handle [0]; it cannot be copied and its move does not
    raise. *)
Definition handle_elem : ElemType nat := {|
  value_initialized := 0;
  moved_from _ := 0;
  ctor_throws _ _ := false;
  copy_ctor_throws _ _ := false;
  move_ctor_throws _ _ := false;
  copy_assign_throws _ _ := false;
  move_assign_throws _ _ := false;
  is_nothrow_move_constructible := true;
  is_copy_constructible := false;
|}.

(** An allocator that never fails. *)
Definition plenty : Allocator := {| new_throws _ _ := false |}.

(** [sizeof(int)] *)
Definition int_size : SizeOf nat := {| sizeof := 4%N; sizeof_pos := eq_refl |}.

Definition empty_world {T} : @world T := mkWorld ∅ ∅ ∅ 0 [].

(** Run [c], then [k] on the world it leaves, whatever the outcome. *)
Definition exec {T X} (c : @M T X) (w : @world T) : @world T := snd (c w).

(** * The vocabulary of the statements *)

(** The first call that raises, when [f] tells which calls do: the calls
    are numbered from [k] on and the i-th is made on the i-th element. *)
Fixpoint first_failure {T} (f : nat → T → bool) (k : nat) (l : list T) : option nat :=
  match l with
  | [] => None
  | v :: l' => if f k v then Some 0 else S <$> first_failure f (S k) l'
  end.

Section Vocabulary.
Context {T : Type} {E : ElemType T} {A : Allocator} {Sz : SizeOf T}.
Implicit Types (w : @world T).

(** The argument that [Allocate(n)] hands to [operator new]:
    [n * sizeof(T)], computed in [size_t]. *)
Definition requested_bytes (n : nat) : N :=
  ((N.of_nat n * sizeof) mod (SIZE_MAX + 1))%N.

(** [n * sizeof(T)] does not wrap in [size_t]. *)
Definition fits_size_t (n : nat) : Prop :=
  (N.of_nat n * sizeof ≤ SIZE_MAX)%N.

(** Which of the constructors of [T] raises at call [k]. *)
Definition construct_raises (k : nat) (a : ctor_args T) : bool :=
  match a with
  | ByCopy v => copy_ctor_throws k v
  | ByMove v => move_ctor_raises k v
  | ByArgs v => ctor_throws k v
  end.

(** The value left in the cell that a shift to the left vacates last. *)
Definition vacated (x : T) (l : list T) : T :=
  match last l with
  | None => x
  | Some z => moved_from z
  end.

(** The value left in the cell that a shift to the right vacates last:
    [y] is what the cell after the shifted cells held. *)
Definition vacated_right (y : T) (l : list T) : T :=
  match l with
  | [] => y
  | z :: _ => moved_from z
  end.

(** What [__CopyMoveConstruct] leaves in a cell it relocated from, and
    which of its calls raise. *)
Definition relocated_from : T → T :=
  if relocates_by_move then moved_from else id.

Definition relocation_raises : nat → T → bool :=
  if relocates_by_move then move_ctor_raises else copy_ctor_throws.

(** Neither [operator new] nor an operation of [T] ever raises. *)
Definition nothing_raises : Prop :=
  (∀ k n, new_throws k n = false) ∧
  (∀ k v, ctor_throws k v = false) ∧
  (∀ k v, copy_ctor_throws k v = false) ∧
  (∀ k v, move_ctor_raises k v = false) ∧
  (∀ k v, copy_assign_throws k v = false) ∧
  (∀ k v, move_assign_throws k v = false).

(** The capacity after an append to a sequence of [n] elements with
    capacity [cap]. *)
Definition grown (n cap : nat) : nat :=
  if n =? cap then Nat.max 1 (2 * cap) else cap.

(** [p] is the address of element [i] of the vector at [this], which holds [x]. *)
Definition points_to w (this : nat) (p : pointer) (i : nat) (x : T) : Prop :=
  ∃ v, vecs w !! this = Some v ∧ p = begin v +ₚ i ∧ cell_at w p = Some (Live x).

(** The buffers of the vectors at [a] and [b] are different blocks. *)
Definition disjoint_buffers w (a b : nat) : Prop :=
  ∀ va vb blk, vecs w !! a = Some va → vecs w !! b = Some vb →
    base (buffer_ (data_ va)) = Some blk → base (buffer_ (data_ vb)) ≠ Some blk.

(** The invariant of [RawMemory]: no buffer exactly when no capacity. *)
Definition RawMemory_inv (m : RawMemory) : Prop :=
  buffer_ m = nullptr ↔ capacity_ m = 0.

(** Copy assignment as the specification words it, for a source that fits
    the capacity of the target. *)
Definition copy_assign_in_place (this other : nat) : @M T unit :=
  o <- get_vec other ;;
  v <- get_vec this ;;
  std_copy (begin o) (begin o +ₚ Nat.min (size_ v) (size_ o)) (begin v) ;;
  (if size_ o <? size_ v then destroy_n (begin v +ₚ size_ o) (size_ v - size_ o)
   else if size_ v <? size_ o then
     uninitialized_copy_n (begin o +ₚ size_ v) (size_ o - size_ v) (begin v +ₚ size_ v)
   else ret tt) ;;
  set_size this (size_ o).

(** ... and for a source that does not fit. *)
Definition copy_and_swap (this other : nat) : @M T unit :=
  other_copy <- local_vec ;;
  Vector_copy_ctor other_copy other ;;
  Swap this other_copy ;;
  Vector_dtor other_copy.

(** [for (const T& x : xs) v.PushBack(x);] *)
Fixpoint push_back_all (this : nat) (xs : list T) : @M T unit :=
  match xs with
  | [] => ret tt
  | x :: xs' => PushBack this x ;; push_back_all this xs'
  end.

End Vocabulary.

(** ** Scenarios *)

(** [*(begin() + i)] read through [operator[]]. *)
Definition read_index {T} (this i : nat) : @M T T :=
  p <- Vector_index this i ;;
  deref p.

(** S1: a default-constructed vector of [int] at address [0], then
    [PushBack(i)] for [i = 0 .. n-1]; the capacity after each step. *)
Definition growth_schedule (n : nat) : @world nat * list (option nat) :=
  let w0 := exec (Vector_default 0) empty_world in
  foldl (fun '(w, trace) i =>
           let w' := exec (PushBack (E:=int_elem) (A:=plenty) 0 i) w in
           (w', trace ++ [capacity_of w' 0]))
        (w0, [capacity_of w0 0]) (seq 0 n).

(** A vector at address [0] whose buffer is block [0] and holds [cells]. *)
Definition vector_world {T} (cells : list (cell T)) (size : nat) : @world T :=
  mkWorld {[ 0 := cells ]} ∅
    {[ 0 := mkVector (mkRawMemory (Ptr (Some 0) 0) (length cells)) size ]} 0 [].

(** A type that is copied on relocation and whose copy constructor raises
    on the call numbered [n]. *)
Definition throwing_copy (n : nat) : ElemType nat := {|
  value_initialized := 0;
  moved_from v := v;
  ctor_throws _ _ := false;
  copy_ctor_throws k _ := k =? n;
  move_ctor_throws _ _ := false;
  copy_assign_throws _ _ := false;
  move_assign_throws _ _ := false;
  is_nothrow_move_constructible := false;
  is_copy_constructible := true;
|}.

(** A move-only handle whose move constructor may raise, and does on the
    call numbered [2]. *)
Definition fragile_handle : ElemType nat := {|
  value_initialized := 0;
  moved_from _ := 0;
  ctor_throws _ _ := false;
  copy_ctor_throws _ _ := false;
  move_ctor_throws k _ := k =? 2;
  move_assign_throws _ _ := false;
  copy_assign_throws _ _ := false;
  is_nothrow_move_constructible := false;
  is_copy_constructible := false;
|}.

(** An [int]-like type whose constructor from arguments raises on the call
    numbered [2]. *)
Definition throwing_ctor : ElemType nat := {|
  value_initialized := 0;
  moved_from v := v;
  ctor_throws k _ := k =? 2;
  copy_ctor_throws _ _ := false;
  move_ctor_throws _ _ := false;
  copy_assign_throws _ _ := false;
  move_assign_throws _ _ := false;
  is_nothrow_move_constructible := true;
  is_copy_constructible := true;
|}.

(** A type whose move assignment raises on the call numbered [2]. *)
Definition throwing_move_assign : ElemType nat := {|
  value_initialized := 0;
  moved_from _ := 0;
  ctor_throws _ _ := false;
  copy_ctor_throws _ _ := false;
  move_ctor_throws _ _ := false;
  copy_assign_throws _ _ := false;
  move_assign_throws k _ := k =? 2;
  is_nothrow_move_constructible := true;
  is_copy_constructible := true;
|}.

(** Two vectors, at addresses [0] and [1], with the blocks [0] and [1]. *)
Definition two_vectors {T} (cells0 : list (cell T)) (size0 : nat)
    (cells1 : list (cell T)) (size1 : nat) : @world T :=
  mkWorld {[ 0 := cells0; 1 := cells1 ]} ∅
    {[ 0 := mkVector (mkRawMemory (Ptr (Some 0) 0) (length cells0)) size0;
       1 := mkVector (mkRawMemory (Ptr (Some 1) 0) (length cells1)) size1 ]} 0 [].

(** Two free-standing [RawMemory] objects, at addresses [0] and [1], that
    own the blocks [0] (3 cells) and [1] (5 cells). *)
Definition two_buffers : @world nat :=
  mkWorld {[ 0 := replicate 3 Raw; 1 := replicate 5 Raw ]}
    {[ 0 := mkRawMemory (Ptr (Some 0) 0) 3; 1 := mkRawMemory (Ptr (Some 1) 0) 5 ]}
    ∅ 0 [].

(** The failing run of S6-like relocation with a move-only type:
    [Reserve(4)] on [[1, 2]] when the second move raises. *)
Definition reserve_fragile : outcome unit * @world nat :=
  Reserve (E:=fragile_handle) (A:=plenty) 0 4 (vector_world [Live 1; Live 2] 2).

(** [push_back(20)] on the full vector [[10, 11]] of a copy-relocated type
    whose copy constructor raises while the second element is relocated
    (call 0 is [operator new], call 1 constructs the new element, calls 2
    and 3 copy the two elements). *)
Definition push_back_relocation_fails : outcome unit * @world nat :=
  PushBack (E:=throwing_copy 3) (A:=plenty) 0 20 (vector_world [Live 10; Live 11] 2).

(** [emplace(begin(), 9)] in place on [[7]] with capacity 2, when the
    constructor of the new element raises (calls 0 and 1 are the move
    construction of cell 1 and the move assignment of the shift). *)
Definition emplace_in_place_ctor_fails : outcome pointer * @world nat :=
  Emplace (E:=throwing_ctor) (A:=plenty) 0 (Ptr (Some 0) 0) (ByArgs 9)
    (vector_world [Live 7; Raw] 1).

(** [emplace(begin(), 9)] in place on [[7, 8]] with capacity 3, when the
    second move assignment of the shift raises. *)
Definition emplace_in_place_shift_fails : outcome pointer * @world nat :=
  Emplace (E:=throwing_move_assign) (A:=plenty) 0 (Ptr (Some 0) 0) (ByArgs 9)
    (vector_world [Live 7; Live 8; Raw] 2).

(** [b = std::move(a)] for the two [RawMemory] objects of [two_buffers]:
    [b] at address [0], [a] at address [1]. *)
Definition move_assign_buffers : outcome unit * @world nat :=
  RawMemory_move_assign 0 1 two_buffers.

(** [emplace(begin(), 99)] in place on the handles [[11, 12]] with
    capacity 4. *)
Definition emplace_front_handles : outcome pointer * @world nat :=
  Emplace (E:=handle_elem) (A:=plenty) 0 (Ptr (Some 0) 0) (ByArgs 99)
    (vector_world [Live 11; Live 12; Raw; Raw] 2).

(** S4: [insert(begin() + 2, 30)] in place on the [int]s [[10, 20, 40, 50]]
    with capacity 8. *)
Definition insert_middle_ints : outcome pointer * @world nat :=
  Insert (E:=int_elem) (A:=plenty) 0 (Ptr (Some 0) 2) 30
    (vector_world [Live 10; Live 20; Live 40; Live 50; Raw; Raw; Raw; Raw] 4).

(** * Proofs *)

Global Instance Live_inj {T} : Inj (=) (=) (@Live T).
Proof. by intros x y [= ->]. Qed.

(** ** Running the monad *)

Section Run.
Context {T : Type}.

Lemma bind_eq {X Y} (c : @M T X) (k : X → @M T Y) w r w1 :
  c w = (r, w1) →
  bind c k w = match r with
               | Ok x => k x w1
               | Throw e => (Throw e, w1)
               | Abort => (Abort, w1)
               | Undefined => (Undefined, w1)
               end.
Proof. intros H. unfold bind. by rewrite H. Qed.

Lemma bind_unfold {X Y} (c : @M T X) (k : X → @M T Y) w :
  bind c k w = match c w with
               | (Ok x, w1) => k x w1
               | (Throw e, w1) => (Throw e, w1)
               | (Abort, w1) => (Abort, w1)
               | (Undefined, w1) => (Undefined, w1)
               end.
Proof. reflexivity. Qed.

Lemma bind_assoc {X Y Z} (c : @M T X) (k : X → @M T Y) (k' : Y → @M T Z) w :
  bind (bind c k) k' w = bind c (fun x => bind (k x) k') w.
Proof. unfold bind. by destruct (c w) as [[x|e| |] w1]. Qed.

Lemma bind_ret {X Y} (x : X) (k : X → @M T Y) w : bind (ret x) k w = k x w.
Proof. reflexivity. Qed.

Lemma on_unwind_ok {X} cleanup (c : @M T X) w x w1 :
  c w = (Ok x, w1) → on_unwind cleanup c w = (Ok x, w1).
Proof. intros H. unfold on_unwind. by rewrite H. Qed.

Lemma on_unwind_throw {X} cleanup (c : @M T X) w e w1 w2 :
  c w = (Throw e, w1) → cleanup w1 = (Ok tt, w2) →
  on_unwind cleanup c w = (Throw e, w2).
Proof. intros H1 H2. unfold on_unwind. by rewrite H1, H2. Qed.

End Run.

Ltac mnorm :=
  unfold set_heap, set_raws, set_vecs, set_clock, set_leaked;
  cbn [data_ size_ buffer_ capacity_ base offset heap vecs raws clock leaked].

Ltac pnorm := unfold padd, pprev; mnorm; cbn [Nat.add].

(** ** Lists of cells *)

Section Cells.
Context {T : Type}.
Implicit Types (l : list T) (cs ps qs : list (cell T)).

Lemma insert_middle ps qs (c c' : cell T) i :
  i = length ps → <[i := c']> (ps ++ c :: qs) = ps ++ c' :: qs.
Proof. intros ->. by rewrite insert_app_r_alt, Nat.sub_diag by lia. Qed.

Lemma lookup_middle ps qs (c : cell T) i :
  i = length ps → (ps ++ c :: qs) !! i = Some c.
Proof. intros ->. by apply list_lookup_middle. Qed.

Lemma live_values_raw n : live_values (replicate n (@Raw T)) = [].
Proof. induction n as [|n IH]; [done|]. exact IH. Qed.

Lemma live_values_live l : live_values (Live <$> l) = l.
Proof.
  induction l as [|v l IH]; [done|].
  change (v :: live_values (Live <$> l) = v :: l). by rewrite IH.
Qed.

Lemma live_values_app cs1 cs2 :
  live_values (cs1 ++ cs2) = live_values cs1 ++ live_values cs2.
Proof. apply omap_app. Qed.

End Cells.

(** ** The primitives on a block *)

Section Primitives.
Context {T : Type} {E : ElemType T} {A : Allocator}.
Implicit Types (h : gmap nat (list (cell T))) (l : list T) (cs ps qs : list (cell T)).

Lemma cell_at_block (w : @world T) b i cs :
  heap w !! b = Some cs → cell_at w (Ptr (Some b) i) = cs !! i.
Proof. intros Hb. unfold cell_at. cbn [base offset]. cbn. by rewrite Hb. Qed.

Lemma deref_live h r vs k lk b i cs v :
  h !! b = Some cs → cs !! i = Some (Live v) →
  deref (Ptr (Some b) i) (mkWorld h r vs k lk) = (Ok v, mkWorld h r vs k lk).
Proof. intros Hb Hi. unfold deref, cell_at. simpl. by rewrite Hb; simpl; rewrite Hi. Qed.

Lemma emplace_cell_raw h r vs k lk b i cs v :
  h !! b = Some cs → cs !! i = Some Raw →
  emplace_cell (Ptr (Some b) i) v (mkWorld h r vs k lk)
  = (Ok tt, mkWorld (<[b := <[i := Live v]> cs]> h) r vs k lk).
Proof.
  intros Hb Hi. unfold emplace_cell, cell_at, put_cell. simpl.
  by rewrite Hb; simpl; rewrite Hi.
Qed.

Lemma assign_cell_live h r vs k lk b i cs u v :
  h !! b = Some cs → cs !! i = Some (Live u) →
  assign_cell (Ptr (Some b) i) v (mkWorld h r vs k lk)
  = (Ok tt, mkWorld (<[b := <[i := Live v]> cs]> h) r vs k lk).
Proof.
  intros Hb Hi. unfold assign_cell, cell_at, put_cell. simpl.
  by rewrite Hb; simpl; rewrite Hi.
Qed.

Lemma destroy_at_live h r vs k lk b i cs u :
  h !! b = Some cs → cs !! i = Some (Live u) →
  destroy_at (Ptr (Some b) i) (mkWorld h r vs k lk)
  = (Ok tt, mkWorld (<[b := <[i := Raw]> cs]> h) r vs k lk).
Proof.
  intros Hb Hi. unfold destroy_at, cell_at, put_cell. simpl.
  by rewrite Hb; simpl; rewrite Hi.
Qed.

Lemma tick_eq h r vs k lk :
  tick (mkWorld h r vs k lk) = (Ok k, mkWorld h r vs (S k) lk).
Proof. reflexivity. Qed.

Lemma construct_at_raw h r vs k lk b i cs a :
  h !! b = Some cs → cs !! i = Some Raw →
  construct_at (Ptr (Some b) i) a (mkWorld h r vs k lk)
  = if construct_raises k a
    then (Throw element_failure, mkWorld h r vs (S k) lk)
    else (Ok tt, mkWorld (<[b := <[i := Live (arg_value a)]> cs]> h) r vs (S k) lk).
Proof.
  intros Hb Hi. unfold construct_at.
  rewrite (bind_eq _ _ _ _ _ (tick_eq h r vs k lk)).
  destruct a as [v|v|v]; cbn [construct_raises arg_value].
  - destruct (copy_ctor_throws k v); [done|]. by apply emplace_cell_raw.
  - destruct (move_ctor_raises k v); [done|]. by apply emplace_cell_raw.
  - destruct (ctor_throws k v); [done|]. by apply emplace_cell_raw.
Qed.

Lemma copy_construct_spec h r vs k lk bs bd i j cs cd v :
  h !! bs = Some cs → cs !! i = Some (Live v) →
  h !! bd = Some cd → cd !! j = Some Raw →
  copy_construct (Ptr (Some bd) j) (Ptr (Some bs) i) (mkWorld h r vs k lk)
  = if copy_ctor_throws k v
    then (Throw element_failure, mkWorld h r vs (S k) lk)
    else (Ok tt, mkWorld (<[bd := <[j := Live v]> cd]> h) r vs (S k) lk).
Proof.
  intros Hs Hi Hd Hj. unfold copy_construct.
  rewrite (bind_eq _ _ _ _ _ (deref_live _ _ _ _ _ _ _ _ _ Hs Hi)).
  by rewrite (construct_at_raw _ _ _ _ _ _ _ _ (ByCopy v) Hd Hj).
Qed.

Lemma move_construct_spec h r vs k lk bs bd i j cs cd v :
  bs ≠ bd →
  h !! bs = Some cs → cs !! i = Some (Live v) →
  h !! bd = Some cd → cd !! j = Some Raw →
  move_construct (Ptr (Some bd) j) (Ptr (Some bs) i) (mkWorld h r vs k lk)
  = if move_ctor_raises k v
    then (Throw element_failure, mkWorld h r vs (S k) lk)
    else (Ok tt, mkWorld (<[bs := <[i := Live (moved_from v)]> cs]>
                            (<[bd := <[j := Live v]> cd]> h)) r vs (S k) lk).
Proof.
  intros Hne Hs Hi Hd Hj. unfold move_construct.
  rewrite (bind_eq _ _ _ _ _ (deref_live _ _ _ _ _ _ _ _ _ Hs Hi)).
  rewrite bind_unfold, (construct_at_raw _ _ _ _ _ _ _ _ (ByMove v) Hd Hj).
  cbn [construct_raises arg_value]. destruct (move_ctor_raises k v); [done|].
  eapply assign_cell_live; [|exact Hi]. by rewrite lookup_insert_ne.
Qed.

(** A move construction within one block, from cell [i] into cell [j]. *)
Lemma move_construct_within h r vs k lk b i j cs v :
  i ≠ j →
  h !! b = Some cs → cs !! i = Some (Live v) → cs !! j = Some Raw →
  move_construct (Ptr (Some b) j) (Ptr (Some b) i) (mkWorld h r vs k lk)
  = if move_ctor_raises k v
    then (Throw element_failure, mkWorld h r vs (S k) lk)
    else (Ok tt, mkWorld (<[b := <[i := Live (moved_from v)]> (<[j := Live v]> cs)]> h)
                   r vs (S k) lk).
Proof.
  intros Hne Hs Hi Hj. unfold move_construct.
  rewrite (bind_eq _ _ _ _ _ (deref_live _ _ _ _ _ _ _ _ _ Hs Hi)).
  rewrite bind_unfold, (construct_at_raw _ _ _ _ _ _ _ _ (ByMove v) Hs Hj).
  cbn [construct_raises arg_value]. destruct (move_ctor_raises k v); [done|].
  erewrite assign_cell_live; [by rewrite insert_insert_eq|apply lookup_insert_eq|].
  by rewrite list_lookup_insert_ne.
Qed.

Lemma copy_assign_spec h r vs k lk bs bd i j cs cd u v :
  h !! bs = Some cs → cs !! i = Some (Live v) →
  h !! bd = Some cd → cd !! j = Some (Live u) →
  copy_assign (Ptr (Some bd) j) (Ptr (Some bs) i) (mkWorld h r vs k lk)
  = if copy_assign_throws k v
    then (Throw element_failure, mkWorld h r vs (S k) lk)
    else (Ok tt, mkWorld (<[bd := <[j := Live v]> cd]> h) r vs (S k) lk).
Proof.
  intros Hs Hi Hd Hj. unfold copy_assign.
  rewrite (bind_eq _ _ _ _ _ (deref_live _ _ _ _ _ _ _ _ _ Hs Hi)).
  rewrite (bind_eq _ _ _ _ _ (tick_eq _ _ _ _ _)).
  destruct (copy_assign_throws k v); [done|]. by eapply assign_cell_live.
Qed.

(** A move assignment within one block, from cell [i] to cell [j]. *)
Lemma move_assign_within h r vs k lk b i j cs u v :
  i ≠ j →
  h !! b = Some cs → cs !! i = Some (Live v) → cs !! j = Some (Live u) →
  move_assign (Ptr (Some b) j) (Ptr (Some b) i) (mkWorld h r vs k lk)
  = if move_assign_throws k v
    then (Throw element_failure, mkWorld h r vs (S k) lk)
    else (Ok tt, mkWorld (<[b := <[i := Live (moved_from v)]> (<[j := Live v]> cs)]> h)
                   r vs (S k) lk).
Proof.
  intros Hne Hs Hi Hj. unfold move_assign.
  rewrite (bind_eq _ _ _ _ _ (deref_live _ _ _ _ _ _ _ _ _ Hs Hi)).
  rewrite (bind_eq _ _ _ _ _ (tick_eq _ _ _ _ _)).
  destruct (move_assign_throws k v); [done|].
  rewrite (bind_eq _ _ _ _ _ (assign_cell_live _ _ _ _ _ _ _ _ _ v Hs Hj)).
  erewrite assign_cell_live; [by rewrite insert_insert_eq|apply lookup_insert_eq|].
  by rewrite list_lookup_insert_ne.
Qed.

End Primitives.

(** ** The algorithms on blocks *)

Section Algorithms.
Context {T : Type} {E : ElemType T} {A : Allocator}.
Implicit Types (h : gmap nat (list (cell T))) (l : list T) (cs ps qs pd qd : list (cell T)).

Lemma destroy_n_spec l : ∀ h r vs k lk b ps qs i,
  i = length ps →
  h !! b = Some (ps ++ (Live <$> l) ++ qs) →
  destroy_n (Ptr (Some b) i) (length l) (mkWorld h r vs k lk)
  = (Ok tt, mkWorld (<[b := ps ++ replicate (length l) Raw ++ qs]> h) r vs k lk).
Proof.
  induction l as [|v l IH]; intros h r vs k lk b ps qs i -> Hb.
  - simpl. unfold ret. by rewrite insert_id.
  - cbn [destroy_n length]. rewrite fmap_cons, <- app_comm_cons in Hb.
    erewrite bind_eq; [|eapply destroy_at_live; [exact Hb|by apply lookup_middle]].
    cbn beta iota. rewrite insert_middle by done.
    unfold padd; cbn [base offset].
    erewrite (IH _ _ _ _ _ b (ps ++ [Raw]) qs).
    + by rewrite insert_insert_eq, <- app_assoc.
    + by rewrite length_app.
    + by rewrite lookup_insert_eq, <- app_assoc.
Qed.

Lemma destroy_n_cells l n : ∀ h r vs k lk b ps qs i,
  i = length ps → n = length l →
  h !! b = Some (ps ++ (Live <$> l) ++ qs) →
  destroy_n (Ptr (Some b) i) n (mkWorld h r vs k lk)
  = (Ok tt, mkWorld (<[b := ps ++ replicate n Raw ++ qs]> h) r vs k lk).
Proof. intros h r vs k lk b ps qs i -> ->. by apply destroy_n_spec. Qed.

Lemma uninitialized_copy_n_spec l : ∀ h r vs k lk bs bd ps qs pd qd i j,
  bs ≠ bd → i = length ps → j = length pd →
  h !! bs = Some (ps ++ (Live <$> l) ++ qs) →
  h !! bd = Some (pd ++ replicate (length l) Raw ++ qd) →
  uninitialized_copy_n (Ptr (Some bs) i) (length l) (Ptr (Some bd) j) (mkWorld h r vs k lk)
  = match first_failure copy_ctor_throws k l with
    | None => (Ok tt, mkWorld (<[bd := pd ++ (Live <$> l) ++ qd]> h) r vs (k + length l) lk)
    | Some n => (Throw element_failure, mkWorld h r vs (S (k + n)) lk)
    end.
Proof.
  induction l as [|v l IH]; intros h r vs k lk bs bd ps qs pd qd i j Hne -> -> Hs Hd.
  - simpl. unfold ret. by rewrite insert_id, Nat.add_0_r.
  - cbn [uninitialized_copy_n length first_failure].
    rewrite fmap_cons in Hs. cbn [length replicate] in Hd.
    rewrite <- app_comm_cons in Hs, Hd.
    rewrite bind_unfold.
    erewrite copy_construct_spec; [|exact Hs|by apply lookup_middle|exact Hd|by apply lookup_middle].
    destruct (copy_ctor_throws k v); cbn beta iota.
    { by rewrite Nat.add_0_r. }
    rewrite insert_middle by done.
    pose proof (IH (<[bd := pd ++ Live v :: replicate (length l) Raw ++ qd]> h) r vs (S k) lk
                  bs bd (ps ++ [Live v]) qs (pd ++ [Live v]) qd
                  (length ps + 1) (length pd + 1) Hne) as IH'.
    rewrite !length_app in IH'. simpl in IH'.
    rewrite lookup_insert_ne, lookup_insert_eq, <- !app_assoc in IH' by done.
    specialize (IH' eq_refl eq_refl Hs eq_refl).
    unfold padd; cbn [base offset].
    destruct (first_failure copy_ctor_throws (S k) l) as [n|]; cbn [fmap option_fmap option_map].
    + erewrite on_unwind_throw; [|exact IH'|].
      2:{ eapply destroy_at_live; [apply lookup_insert_eq|by apply lookup_middle]. }
      rewrite insert_middle, insert_insert_eq by done.
      rewrite (insert_id h bd) by done. by rewrite Nat.add_succ_r.
    + erewrite on_unwind_ok; [|exact IH'].
      rewrite insert_insert_eq, Nat.add_succ_r. reflexivity.
Qed.

Lemma uninitialized_move_n_spec l : ∀ h r vs k lk bs bd ps qs pd qd i j,
  bs ≠ bd → i = length ps → j = length pd →
  h !! bs = Some (ps ++ (Live <$> l) ++ qs) →
  h !! bd = Some (pd ++ replicate (length l) Raw ++ qd) →
  uninitialized_move_n (Ptr (Some bs) i) (length l) (Ptr (Some bd) j) (mkWorld h r vs k lk)
  = match first_failure move_ctor_raises k l with
    | None =>
        (Ok tt, mkWorld (<[bs := ps ++ (Live <$> (moved_from <$> l)) ++ qs]>
                           (<[bd := pd ++ (Live <$> l) ++ qd]> h)) r vs (k + length l) lk)
    | Some n =>
        (Throw element_failure,
         mkWorld (<[bs := ps ++ (Live <$> ((moved_from <$> take n l) ++ drop n l)) ++ qs]> h)
           r vs (S (k + n)) lk)
    end.
Proof.
  induction l as [|v l IH]; intros h r vs k lk bs bd ps qs pd qd i j Hne -> -> Hs Hd.
  - cbn [uninitialized_move_n length first_failure]. unfold ret.
    rewrite Nat.add_0_r. do 2 f_equal. apply map_eq; intros x.
    destruct (decide (x = bs)) as [->|]; [|destruct (decide (x = bd)) as [->|]];
      by simplify_map_eq.
  - cbn [uninitialized_move_n length first_failure].
    rewrite fmap_cons in Hs. cbn [length replicate] in Hd.
    rewrite <- app_comm_cons in Hs, Hd.
    rewrite bind_unfold.
    erewrite move_construct_spec;
      [|exact Hne|exact Hs|by apply lookup_middle|exact Hd|by apply lookup_middle].
    destruct (move_ctor_raises k v); cbn beta iota.
    { rewrite Nat.add_0_r. do 2 f_equal. cbn [take drop fmap list_fmap app].
      by rewrite insert_id. }
    rewrite !insert_middle by done.
    pose proof (IH (<[bs := ps ++ Live (moved_from v) :: (Live <$> l) ++ qs]>
                      (<[bd := pd ++ Live v :: replicate (length l) Raw ++ qd]> h))
                  r vs (S k) lk
                  bs bd (ps ++ [Live (moved_from v)]) qs (pd ++ [Live v]) qd
                  (length ps + 1) (length pd + 1) Hne) as IH'.
    rewrite !length_app in IH'. cbn [length] in IH'.
    rewrite lookup_insert_eq, lookup_insert_ne, lookup_insert_eq, <- !app_assoc in IH' by done.
    specialize (IH' eq_refl eq_refl eq_refl eq_refl).
    unfold padd; cbn [base offset].
    destruct (first_failure move_ctor_raises (S k) l) as [n|]; cbn [fmap option_fmap option_map].
    + erewrite on_unwind_throw; [|exact IH'|].
      2:{ eapply destroy_at_live; [|by apply lookup_middle].
          by rewrite lookup_insert_ne, lookup_insert_ne, lookup_insert_eq. }
      rewrite insert_middle by done. rewrite Nat.add_succ_r.
      do 2 f_equal. cbn [take drop]. rewrite !fmap_cons, <- !app_comm_cons.
      apply map_eq; intros x.
      destruct (decide (x = bs)) as [->|]; [|destruct (decide (x = bd)) as [->|]];
        simplify_map_eq; try done.
      by rewrite <- app_assoc.
    + erewrite on_unwind_ok; [|exact IH'].
      rewrite Nat.add_succ_r. do 2 f_equal. rewrite !fmap_cons, <- !app_comm_cons.
      apply map_eq; intros x.
      destruct (decide (x = bs)) as [->|]; [|destruct (decide (x = bd)) as [->|]];
        simplify_map_eq; try done; by rewrite <- app_assoc.
Qed.

Lemma copy_loop_spec l : ∀ u h r vs k lk bs bd ps qs pd qd i j,
  length u = length l → bs ≠ bd → i = length ps → j = length pd →
  h !! bs = Some (ps ++ (Live <$> l) ++ qs) →
  h !! bd = Some (pd ++ (Live <$> u) ++ qd) →
  copy_loop (Ptr (Some bs) i) (length l) (Ptr (Some bd) j) (mkWorld h r vs k lk)
  = match first_failure copy_assign_throws k l with
    | None => (Ok tt, mkWorld (<[bd := pd ++ (Live <$> l) ++ qd]> h) r vs (k + length l) lk)
    | Some n =>
        (Throw element_failure,
         mkWorld (<[bd := pd ++ (Live <$> (take n l ++ drop n u)) ++ qd]> h) r vs (S (k + n)) lk)
    end.
Proof.
  induction l as [|v l IH]; intros u h r vs k lk bs bd ps qs pd qd i j Hlen Hne -> -> Hs Hd.
  - destruct u; [|done]. cbn [copy_loop length first_failure]. unfold ret.
    by rewrite insert_id, Nat.add_0_r.
  - destruct u as [|x u]; [done|]. injection Hlen as Hlen.
    cbn [copy_loop length first_failure].
    rewrite fmap_cons, <- app_comm_cons in Hs, Hd.
    rewrite bind_unfold.
    erewrite copy_assign_spec; [|exact Hs|by apply lookup_middle|exact Hd|by apply lookup_middle].
    destruct (copy_assign_throws k v); cbn beta iota.
    { rewrite Nat.add_0_r. cbn [take drop app]. by rewrite insert_id. }
    rewrite insert_middle by done.
    pose proof (IH u (<[bd := pd ++ Live v :: (Live <$> u) ++ qd]> h) r vs (S k) lk
                  bs bd (ps ++ [Live v]) qs (pd ++ [Live v]) qd
                  (length ps + 1) (length pd + 1) Hlen Hne) as IH'.
    rewrite !length_app in IH'. cbn [length] in IH'.
    rewrite lookup_insert_ne, lookup_insert_eq, <- !app_assoc in IH' by done.
    specialize (IH' eq_refl eq_refl Hs eq_refl).
    unfold padd; cbn [base offset]. rewrite IH'.
    destruct (first_failure copy_assign_throws (S k) l) as [n|]; cbn [fmap option_fmap option_map].
    + rewrite insert_insert_eq, Nat.add_succ_r, <- app_assoc. reflexivity.
    + rewrite insert_insert_eq, Nat.add_succ_r. reflexivity.
Qed.

Lemma uninitialized_copy_n_cells l n h r vs k lk bs bd ps qs pd qd i j :
  bs ≠ bd → i = length ps → j = length pd → n = length l →
  h !! bs = Some (ps ++ (Live <$> l) ++ qs) →
  h !! bd = Some (pd ++ replicate n Raw ++ qd) →
  uninitialized_copy_n (Ptr (Some bs) i) n (Ptr (Some bd) j) (mkWorld h r vs k lk)
  = match first_failure copy_ctor_throws k l with
    | None => (Ok tt, mkWorld (<[bd := pd ++ (Live <$> l) ++ qd]> h) r vs (k + n) lk)
    | Some m => (Throw element_failure, mkWorld h r vs (S (k + m)) lk)
    end.
Proof. intros Hne -> -> ->. by apply uninitialized_copy_n_spec. Qed.

Lemma copy_loop_cells l u n h r vs k lk bs bd ps qs pd qd i j :
  length u = n → bs ≠ bd → i = length ps → j = length pd → n = length l →
  h !! bs = Some (ps ++ (Live <$> l) ++ qs) →
  h !! bd = Some (pd ++ (Live <$> u) ++ qd) →
  copy_loop (Ptr (Some bs) i) n (Ptr (Some bd) j) (mkWorld h r vs k lk)
  = match first_failure copy_assign_throws k l with
    | None => (Ok tt, mkWorld (<[bd := pd ++ (Live <$> l) ++ qd]> h) r vs (k + n) lk)
    | Some m =>
        (Throw element_failure,
         mkWorld (<[bd := pd ++ (Live <$> (take m l ++ drop m u)) ++ qd]> h) r vs (S (k + m)) lk)
    end.
Proof. intros Hu Hne -> -> ->. by apply copy_loop_spec. Qed.

Lemma vacated_cons x v l : vacated x (v :: l) = vacated (moved_from v) l.
Proof.
  unfold vacated. destruct l as [|y l]; [done|].
  rewrite last_cons_cons. destruct (last (y :: l)) eqn:Hlast; [done|].
  by apply last_None in Hlast.
Qed.

(** [std::move] of the cells after [x] one step to the left, onto [x]. *)
Lemma move_loop_spec l : ∀ x h r vs k lk b ps qs i,
  i = length ps →
  h !! b = Some (ps ++ Live x :: (Live <$> l) ++ qs) →
  move_loop (Ptr (Some b) (S i)) (length l) (Ptr (Some b) i) (mkWorld h r vs k lk)
  = match first_failure move_assign_throws k l with
    | None =>
        (Ok tt, mkWorld (<[b := ps ++ (Live <$> l) ++ Live (vacated x l) :: qs]> h)
                  r vs (k + length l) lk)
    | Some n =>
        (Throw element_failure,
         mkWorld (<[b := ps ++ (Live <$> take n l)
                        ++ Live (vacated x (take n l)) :: (Live <$> drop n l) ++ qs]> h)
           r vs (S (k + n)) lk)
    end.
Proof.
  induction l as [|v l IH]; intros x h r vs k lk b ps qs i -> Hb.
  - cbn [move_loop length first_failure]. unfold ret.
    by rewrite insert_id, Nat.add_0_r.
  - cbn [move_loop length first_failure].
    rewrite fmap_cons, <- app_comm_cons in Hb.
    rewrite bind_unfold.
    erewrite (move_assign_within _ _ _ _ _ b (S (length ps)) (length ps));
      [|lia|exact Hb| |by apply lookup_middle].
    2:{ rewrite (cons_middle (Live x)), app_assoc. apply lookup_middle.
        rewrite length_app. cbn [length]. lia. }
    destruct (move_assign_throws k v); cbn beta iota.
    { rewrite Nat.add_0_r. cbn [take drop fmap list_fmap app]. by rewrite insert_id. }
    rewrite insert_middle by done.
    rewrite (cons_middle (Live v) ps), app_assoc.
    rewrite insert_middle by (rewrite length_app; cbn [length]; lia).
    pose proof (IH (moved_from v)
                  (<[b := (ps ++ [Live v]) ++ Live (moved_from v) :: (Live <$> l) ++ qs]> h)
                  r vs (S k) lk b (ps ++ [Live v]) qs (length ps + 1)) as IH'.
    rewrite !length_app in IH'. cbn [length] in IH'.
    rewrite lookup_insert_eq in IH'. specialize (IH' eq_refl eq_refl).
    unfold padd; cbn [base offset].
    replace (S (length ps) + 1) with (S (length ps + 1)) by lia.
    rewrite IH'.
    destruct (first_failure move_assign_throws (S k) l) as [n|]; cbn [fmap option_fmap option_map].
    + rewrite insert_insert_eq, Nat.add_succ_r, <- !app_assoc.
      cbn [take drop]. by rewrite vacated_cons.
    + rewrite insert_insert_eq, Nat.add_succ_r, <- !app_assoc.
      by rewrite vacated_cons.
Qed.

Lemma vacated_right_snoc y z l :
  vacated_right y (l ++ [z]) = vacated_right (moved_from z) l.
Proof. by destruct l. Qed.

(** [std::move_backward] of the cells [l] one step to the right, onto the
    live cell [y] that follows them; the calls are made on the elements of
    [l] from the last to the first. *)
Lemma move_backward_loop_spec l : ∀ y h r vs k lk b ps qs i,
  i = length ps + length l →
  h !! b = Some (ps ++ (Live <$> l) ++ Live y :: qs) →
  move_backward_loop (Ptr (Some b) i) (length l) (Ptr (Some b) (S i)) (mkWorld h r vs k lk)
  = match first_failure move_assign_throws k (rev l) with
    | None =>
        (Ok tt, mkWorld (<[b := ps ++ Live (vacated_right y l) :: (Live <$> l) ++ qs]> h)
                  r vs (k + length l) lk)
    | Some n =>
        (Throw element_failure,
         mkWorld (<[b := ps ++ (Live <$> take (length l - n) l)
                        ++ Live (vacated_right y (drop (length l - n) l))
                           :: (Live <$> drop (length l - n) l) ++ qs]> h)
           r vs (S (k + n)) lk)
    end.
Proof.
  induction l as [|z l IH] using rev_ind; intros y h r vs k lk b ps qs i -> Hb.
  - cbn [move_backward_loop length rev first_failure]. unfold ret.
    by rewrite insert_id, Nat.add_0_r.
  - rewrite length_app, rev_app_distr. cbn [length rev app].
    rewrite Nat.add_1_r. cbn [move_backward_loop first_failure].
    rewrite fmap_app, <- app_assoc in Hb. cbn [fmap list_fmap app] in Hb.
    unfold pprev. cbn [base offset].
    replace (S (length ps + S (length l)) - 1) with (S (length ps + length l)) by lia.
    replace (length ps + S (length l) - 1) with (length ps + length l) by lia.
    assert ((ps ++ (Live <$> l) ++ Live z :: Live y :: qs) !! (length ps + length l)
            = Some (Live z)) as Hsrc.
    { rewrite app_assoc. apply lookup_middle. by rewrite length_app, length_fmap. }
    assert ((ps ++ (Live <$> l) ++ Live z :: Live y :: qs) !! S (length ps + length l)
            = Some (Live y)) as Hdst.
    { rewrite (cons_middle (Live z)), !app_assoc. apply lookup_middle.
      rewrite !length_app, length_fmap. cbn [length]. lia. }
    rewrite bind_unfold.
    erewrite (move_assign_within _ _ _ _ _ b (length ps + length l) (S (length ps + length l)));
      [|lia|exact Hb|exact Hsrc|exact Hdst].
    destruct (move_assign_throws k z); cbn beta iota.
    { rewrite Nat.add_0_r, Nat.sub_0_r.
      rewrite take_ge, drop_ge by (rewrite length_app; cbn [length]; lia).
      cbn [vacated_right fmap list_fmap app].
      rewrite insert_id; [done|].
      by rewrite Hb, fmap_app, <- app_assoc. }
    assert (<[length ps + length l := Live (moved_from z)]>
              (<[S (length ps + length l) := Live z]>
                 (ps ++ (Live <$> l) ++ Live z :: Live y :: qs))
            = ps ++ (Live <$> l) ++ Live (moved_from z) :: Live z :: qs) as ->.
    { rewrite (cons_middle (Live z)), !app_assoc.
      rewrite insert_middle by (rewrite !length_app, length_fmap; cbn [length]; lia).
      rewrite <- !app_assoc. cbn [app]. rewrite app_assoc.
      rewrite insert_middle by (by rewrite length_app, length_fmap).
      by rewrite <- app_assoc. }
    pose proof (IH (moved_from z)
                  (<[b := ps ++ (Live <$> l) ++ Live (moved_from z) :: Live z :: qs]> h)
                  r vs (S k) lk b ps (Live z :: qs) (length ps + length l) eq_refl) as IH'.
    rewrite lookup_insert_eq in IH'. specialize (IH' eq_refl). rewrite IH'.
    destruct (first_failure move_assign_throws (S k) (rev l)) as [n|];
      cbn [fmap option_fmap option_map].
    + rewrite insert_insert_eq, Nat.add_succ_r.
      replace (length l + 1 - S n) with (length l - n) by lia.
      rewrite take_app_le by lia. rewrite drop_app_le by lia.
      rewrite vacated_right_snoc, fmap_app, <- app_assoc. reflexivity.
    + rewrite insert_insert_eq, Nat.add_succ_r, vacated_right_snoc, fmap_app, <- app_assoc.
      reflexivity.
Qed.

End Algorithms.

(** ** The two classes on explicit worlds *)

Section Objects.
Context {T : Type} {E : ElemType T} {A : Allocator}.
Implicit Types (h : gmap nat (list (cell T))) (l : list T) (cs : list (cell T)).

Lemma first_failure_never (f : nat → T → bool) k l :
  (∀ k v, f k v = false) → first_failure f k l = None.
Proof.
  intros Hf. revert k. induction l as [|v l IH]; intros k; [done|].
  cbn [first_failure]. by rewrite Hf, IH.
Qed.

Lemma fresh_block h : h !! fresh (dom h) = None.
Proof. apply not_elem_of_dom, is_fresh. Qed.

Lemma Allocate_spec h r vs k lk n :
  n ≠ 0 →
  Allocate n (mkWorld h r vs k lk)
  = if new_throws k n
    then (Throw bad_alloc, mkWorld h r vs (S k) lk)
    else (Ok (Ptr (Some (fresh (dom h))) 0),
          mkWorld (<[fresh (dom h) := replicate n Raw]> h) r vs (S k) lk).
Proof.
  intros Hn. unfold Allocate. destruct (Nat.eqb_spec n 0) as [|_]; [done|].
  rewrite (bind_eq _ _ _ _ _ (tick_eq _ _ _ _ _)).
  by destruct (new_throws k n).
Qed.

Lemma RawMemory_ctor_spec h r vs k lk n :
  n ≠ 0 →
  RawMemory_ctor n (mkWorld h r vs k lk)
  = if new_throws k n
    then (Throw bad_alloc, mkWorld h r vs (S k) lk)
    else (Ok (mkRawMemory (Ptr (Some (fresh (dom h))) 0) n),
          mkWorld (<[fresh (dom h) := replicate n Raw]> h) r vs (S k) lk).
Proof.
  intros Hn. unfold RawMemory_ctor. rewrite bind_unfold, Allocate_spec by done.
  by destruct (new_throws k n).
Qed.

Lemma RawMemory_ctor_0 (w : @world T) :
  RawMemory_ctor 0 w = (Ok (mkRawMemory nullptr 0), w).
Proof. reflexivity. Qed.

Lemma Deallocate_block h r vs k lk b cs :
  h !! b = Some cs →
  Deallocate (Ptr (Some b) 0) (mkWorld h r vs k lk)
  = (Ok tt, mkWorld (delete b h) r vs k (lk ++ live_values cs)).
Proof. intros Hb. unfold Deallocate. cbn [base offset heap]. by rewrite Hb. Qed.

Lemma Deallocate_null (w : @world T) : Deallocate nullptr w = (Ok tt, w).
Proof. reflexivity. Qed.

Lemma get_vec_eq h r vs k lk this v :
  vs !! this = Some v →
  get_vec this (mkWorld h r vs k lk) = (Ok v, mkWorld h r vs k lk).
Proof. intros Hv. unfold get_vec. cbn [vecs]. by rewrite Hv. Qed.

Lemma set_data_eq h r vs k lk this v d :
  vs !! this = Some v →
  set_data this d (mkWorld h r vs k lk)
  = (Ok tt, mkWorld h r (<[this := mkVector d (size_ v)]> vs) k lk).
Proof.
  intros Hv. unfold set_data. by rewrite (bind_eq _ _ _ _ _ (get_vec_eq _ _ _ _ _ _ _ Hv)).
Qed.

Lemma set_size_eq h r vs k lk this v n :
  vs !! this = Some v →
  set_size this n (mkWorld h r vs k lk)
  = (Ok tt, mkWorld h r (<[this := mkVector (data_ v) n]> vs) k lk).
Proof.
  intros Hv. unfold set_size. by rewrite (bind_eq _ _ _ _ _ (get_vec_eq _ _ _ _ _ _ _ Hv)).
Qed.

(** The two shapes of a vector: no buffer, or a block of [cap] cells. *)
Lemma is_vector_inv (w : @world T) this l cap :
  is_vector w this l cap →
  (cap = 0 ∧ l = [] ∧ vecs w !! this = Some (mkVector (mkRawMemory nullptr 0) 0)) ∨
  (∃ b, 0 < cap ∧ length l ≤ cap ∧
        vecs w !! this = Some (mkVector (mkRawMemory (Ptr (Some b) 0) cap) (length l)) ∧
        heap w !! b = Some ((Live <$> l) ++ replicate (cap - length l) Raw)).
Proof.
  intros ([[[ob o] c] s] & Hv & Hs & Hc & Ho & Hnull & Hcells).
  cbn [data_ size_ buffer_ capacity_ base offset] in *. subst s c o.
  unfold buffer_cells in Hcells. cbn [buffer_ capacity_ base] in Hcells.
  destruct ob as [b|].
  - right. exists b.
    destruct (heap w !! b) as [cs|] eqn:Hb; [|done]. cbn in Hcells.
    destruct (Nat.eqb_spec (length cs) cap) as [Hlen|]; [|done].
    injection Hcells as ->.
    rewrite length_app, length_fmap, length_replicate in Hlen.
    assert (cap ≠ 0) by (intros ?; by destruct Hnull as [_ ?%symmetry]; [|done]).
    repeat split; [lia|lia|done].
  - left. destruct Hnull as [Hcap _]. specialize (Hcap eq_refl). subst cap.
    cbn in Hcells. injection Hcells as Hcells.
    destruct l; [done|]. done.
Qed.

Lemma is_vector_null (w : @world T) this :
  vecs w !! this = Some (mkVector (mkRawMemory nullptr 0) 0) →
  is_vector w this [] 0.
Proof. intros Hv. eexists. repeat split; try exact Hv; done. Qed.

Lemma is_vector_block (w : @world T) this l cap b :
  0 < cap → length l ≤ cap →
  vecs w !! this = Some (mkVector (mkRawMemory (Ptr (Some b) 0) cap) (length l)) →
  heap w !! b = Some ((Live <$> l) ++ replicate (cap - length l) Raw) →
  is_vector w this l cap.
Proof.
  intros Hcap Hlen Hv Hb. eexists. split; [exact Hv|].
  cbn [data_ size_ buffer_ capacity_ base offset].
  repeat split; try done; try lia.
  unfold buffer_cells. cbn [buffer_ capacity_ base]. rewrite Hb. cbn.
  rewrite length_app, length_fmap, length_replicate.
  by replace (length l + (cap - length l)) with cap by lia; rewrite Nat.eqb_refl.
Qed.

Lemma is_vector_cells (w : @world T) this l cap :
  is_vector w this l cap →
  cells_of w this = Some ((Live <$> l) ++ replicate (cap - length l) Raw).
Proof. intros (v & Hv & _ & _ & _ & _ & Hcells). unfold cells_of. by rewrite Hv. Qed.

Lemma is_vector_size (w : @world T) this l cap :
  is_vector w this l cap → size_of w this = Some (length l).
Proof. intros (v & Hv & Hs & _). unfold size_of. by rewrite Hv, <- Hs. Qed.

Lemma is_vector_capacity (w : @world T) this l cap :
  is_vector w this l cap → capacity_of w this = Some cap.
Proof. intros (v & Hv & _ & Hc & _). unfold capacity_of. by rewrite Hv, <- Hc. Qed.

Lemma CopyMoveConstruct_spec l h r vs k lk bs bd ps qs pd qd i j :
  bs ≠ bd → i = length ps → j = length pd →
  h !! bs = Some (ps ++ (Live <$> l) ++ qs) →
  h !! bd = Some (pd ++ replicate (length l) Raw ++ qd) →
  __CopyMoveConstruct (Ptr (Some bs) i) (Ptr (Some bd) j) (length l) (mkWorld h r vs k lk)
  = match first_failure relocation_raises k l with
    | None =>
        (Ok tt, mkWorld (<[bs := ps ++ (Live <$> (relocated_from <$> l)) ++ qs]>
                           (<[bd := pd ++ (Live <$> l) ++ qd]> h)) r vs (k + length l) lk)
    | Some n =>
        (Throw element_failure,
         mkWorld (<[bs := ps ++ (Live <$> ((relocated_from <$> take n l) ++ drop n l)) ++ qs]> h)
           r vs (S (k + n)) lk)
    end.
Proof.
  intros Hne Hi Hj Hs Hd. unfold __CopyMoveConstruct, relocation_raises, relocated_from.
  destruct relocates_by_move.
  - by apply uninitialized_move_n_spec.
  - rewrite (uninitialized_copy_n_spec l _ _ _ _ _ bs bd ps qs pd qd) by done.
    destruct (first_failure copy_ctor_throws k l) as [n|].
    + rewrite list_fmap_id, take_drop. by rewrite insert_id.
    + rewrite list_fmap_id. rewrite (insert_id _ bs); [done|].
      by rewrite lookup_insert_ne.
Qed.

Lemma relocation_nothrow k l :
  is_nothrow_move_constructible = true → first_failure relocation_raises k l = None.
Proof.
  intros Hn. apply first_failure_never. intros k' v.
  unfold relocation_raises, relocates_by_move, move_ctor_raises. by rewrite Hn.
Qed.

(** With a type that is copied, a failed relocation leaves the source
    block as it was. *)
Lemma relocated_from_copy :
  relocates_by_move = false → relocated_from = id.
Proof. unfold relocated_from. by intros ->. Qed.

Lemma nothing_raises_inv :
  nothing_raises →
  (∀ k n, new_throws k n = false) ∧
  (∀ k a, construct_raises k a = false) ∧
  (∀ k l, first_failure relocation_raises k l = None) ∧
  (∀ k l, first_failure copy_ctor_throws k l = None) ∧
  (∀ k l, first_failure copy_assign_throws k l = None) ∧
  (∀ k l, first_failure move_assign_throws k l = None) ∧
  (∀ k v, move_ctor_raises k v = false).
Proof.
  intros (Hnew & Hctor & Hcopy & Hmove & Hcassign & Hmassign).
  split; [done|]. split; [by intros k [v|v|v]; cbn|].
  split; [|by repeat split; try done; intros k l; apply first_failure_never].
  intros k l. apply first_failure_never. intros k' v.
  unfold relocation_raises. by destruct relocates_by_move.
Qed.

End Objects.

(** Closes a goal [¬ nothing_raises] when a call is known to have raised. *)
Ltac raised :=
  let H := fresh "Hnone" in
  let H1 := fresh in let H2 := fresh in let H3 := fresh in
  let H4 := fresh in let H5 := fresh in let H6 := fresh in let H7 := fresh in
  intros H; apply nothing_raises_inv in H;
  destruct H as (H1 & H2 & H3 & H4 & H5 & H6 & H7);
  match goal with
  | Hc : _ = true |- _ =>
      (rewrite H1 in Hc || rewrite H2 in Hc || rewrite H7 in Hc); discriminate Hc
  | Hc : _ = Some _ |- _ =>
      (rewrite H3 in Hc || rewrite H4 in Hc || rewrite H5 in Hc || rewrite H6 in Hc
       || rewrite (first_failure_never _ _ _ H7) in Hc);
      discriminate Hc
  end.

(** ** [Reserve] *)

Section ReserveProofs.
Context {T : Type} {E : ElemType T} {A : Allocator}.
Implicit Types (w : @world T) (l : list T).

Lemma Reserve_noop w this l cap n :
  is_vector w this l cap → n ≤ cap → Reserve this n w = (Ok tt, w).
Proof.
  intros (v & Hv & _ & Hc & _) Hn. destruct w as [h r vs k lk]. cbn [vecs] in Hv.
  unfold Reserve. rewrite (bind_eq _ _ _ _ _ (get_vec_eq _ _ _ _ _ _ _ Hv)).
  unfold RawMemory_Capacity. rewrite Hc.
  by destruct (Nat.leb_spec n cap) as [_|?]; [|lia].
Qed.

Lemma Reserve_grow w this l cap n :
  is_vector w this l cap → cap < n →
  match Reserve this n w with
  | (Ok _, w') => is_vector w' this l n
  | (Throw _, w') =>
      ¬ nothing_raises ∧
      (is_nothrow_move_constructible || is_copy_constructible = true →
       is_vector w' this l cap ∧ heap w' = heap w ∧ vecs w' = vecs w)
  | _ => False
  end.
Proof.
  intros Hvec Hn. destruct w as [h r vs k lk].
  destruct (is_vector_inv _ _ _ _ Hvec) as [(-> & -> & Hv)|(b & Hcap & Hlen & Hv & Hb)];
    cbn [vecs heap] in *.
  - (* no buffer yet *)
    unfold Reserve. rewrite (bind_eq _ _ _ _ _ (get_vec_eq _ _ _ _ _ _ _ Hv)).
    cbn [data_ size_ RawMemory_Capacity capacity_ GetAddress buffer_].
    destruct (Nat.leb_spec n 0) as [?|_]; [lia|].
    rewrite bind_unfold, RawMemory_ctor_spec by lia.
    destruct (new_throws k n) eqn:Halloc.
    { split; [raised|]. intros _. split; [|done]. by apply is_vector_null. }
    cbn beta iota. unfold GetAddress. cbn [buffer_].
    assert (__CopyMoveConstruct (E:=E) nullptr (Ptr (Some (fresh (dom h))) 0) 0
            = ret tt) as ->.
    { unfold __CopyMoveConstruct. by destruct relocates_by_move. }
    erewrite bind_eq by (apply on_unwind_ok; reflexivity).
    cbn beta iota. cbn [destroy_n RawMemory_Swap buffer_ capacity_].
    rewrite bind_ret.
    rewrite (bind_eq _ _ _ _ _ (set_data_eq _ _ _ _ _ _ _ _ Hv)).
    cbn [size_]. unfold RawMemory_dtor. cbn [buffer_]. rewrite Deallocate_null.
    eapply (is_vector_block _ _ [] n); cbn [vecs heap length]; [lia|lia| |].
    + by rewrite lookup_insert_eq.
    + rewrite lookup_insert_eq. by rewrite Nat.sub_0_r.
  - (* a block of [cap] cells *)
    unfold Reserve. rewrite (bind_eq _ _ _ _ _ (get_vec_eq _ _ _ _ _ _ _ Hv)).
    cbn [data_ size_ RawMemory_Capacity capacity_ GetAddress buffer_].
    destruct (Nat.leb_spec n cap) as [?|_]; [lia|].
    rewrite bind_unfold, RawMemory_ctor_spec by lia.
    destruct (new_throws k n) eqn:Halloc.
    { split; [raised|]. intros _. split; [|done]. by eapply is_vector_block. }
    cbn beta iota. unfold GetAddress. cbn [buffer_].
    set (b' := fresh (dom h)).
    assert (h !! b' = None) as Hfresh by apply fresh_block.
    assert (b ≠ b') as Hne by (intros ->; congruence).
    cbn [buffer_].
    pose proof (CopyMoveConstruct_spec l (<[b' := replicate n Raw]> h) r vs (S k) lk
                  b b' [] (replicate (cap - length l) Raw) [] (replicate (n - length l) Raw)
                  0 0 Hne eq_refl eq_refl) as Hreloc.
    rewrite lookup_insert_ne, lookup_insert_eq in Hreloc by done.
    rewrite <- replicate_add in Hreloc.
    replace (length l + (n - length l)) with n in Hreloc by lia.
    specialize (Hreloc Hb eq_refl). cbn [app] in Hreloc.
    destruct (first_failure relocation_raises (S k) l) as [j|] eqn:Hfail.
    + (* the relocation raises *)
      erewrite bind_eq.
      2:{ eapply on_unwind_throw; [exact Hreloc|].
          unfold RawMemory_dtor. cbn [buffer_]. eapply Deallocate_block.
          by rewrite lookup_insert_ne, lookup_insert_eq. }
      cbn beta iota. split; [raised|]. intros Hstrong.
      assert (relocates_by_move = false) as Hcopy.
      { destruct (is_nothrow_move_constructible) eqn:Hnt.
        - by rewrite relocation_nothrow in Hfail.
        - unfold relocates_by_move. rewrite Hnt. cbn in Hstrong |- *. by rewrite Hstrong. }
      rewrite (relocated_from_copy Hcopy), list_fmap_id, take_drop.
      assert (delete b' (<[b := (Live <$> l) ++ replicate (cap - length l) Raw]>
                           (<[b' := replicate n Raw]> h)) = h) as Hheap.
      { rewrite (insert_id _ b) by (by rewrite lookup_insert_ne).
        by rewrite delete_insert_id. }
      cbn [heap vecs]. rewrite Hheap. split; [|done].
      by eapply is_vector_block.
    + (* the relocation succeeds *)
      erewrite bind_eq; [|eapply on_unwind_ok; exact Hreloc].
      cbn beta iota.
      erewrite bind_eq.
      2:{ eapply (destroy_n_cells (relocated_from <$> l) _ _ _ _ _ _ b []);
            [done|by rewrite length_fmap|].
          rewrite lookup_insert_eq. done. }
      cbn beta iota. cbn [RawMemory_Swap buffer_ capacity_].
      rewrite (bind_eq _ _ _ _ _ (set_data_eq _ _ _ _ _ _ _ _ Hv)).
      unfold RawMemory_dtor. cbn [buffer_ size_].
      erewrite Deallocate_block by apply lookup_insert_eq.
      eapply is_vector_block; cbn [vecs heap]; [lia|lia|by rewrite lookup_insert_eq|].
      rewrite lookup_delete_ne, lookup_insert_ne, lookup_insert_ne, lookup_insert_eq by done.
      done.
Qed.

End ReserveProofs.

(** ** [EmplaceBack] *)

Section EmplaceBackProofs.
Context {T : Type} {E : ElemType T} {A : Allocator}.
Implicit Types (w : @world T) (l : list T).

Lemma RawMemory_plus_ok w (m : RawMemory) off :
  off ≤ capacity_ m → RawMemory_plus m off w = (Ok (buffer_ m +ₚ off), w).
Proof.
  intros Hoff. unfold RawMemory_plus, assert_.
  by destruct (Nat.leb_spec off (capacity_ m)) as [_|?]; [|lia].
Qed.

Lemma CopyMoveConstruct_0 (p q : pointer) (w : @world T) :
  __CopyMoveConstruct p q 0 w = (Ok tt, w).
Proof. unfold __CopyMoveConstruct. by destruct relocates_by_move. Qed.

Lemma EmplaceBack_spec w this l cap a :
  is_vector w this l cap →
  match EmplaceBack this a w with
  | (Ok p, w') =>
      is_vector w' this (l ++ [arg_value a]) (grown (length l) cap) ∧
      points_to w' this p (length l) (arg_value a)
  | (Throw _, w') =>
      ¬ nothing_raises ∧
      (is_nothrow_move_constructible || is_copy_constructible = true →
       is_vector w' this l cap ∧ heap w' = heap w ∧ vecs w' = vecs w)
  | _ => False
  end.
Proof.
  intros Hvec. destruct w as [h r vs k lk].
  destruct (is_vector_inv _ _ _ _ Hvec) as [(-> & -> & Hv)|(b & Hcap & Hlen & Hv & Hb)];
    cbn [vecs heap] in *.
  - (* no buffer yet *)
    unfold EmplaceBack, bind, on_unwind, Capacity, RawMemory_Capacity, GetAddress,
      RawMemory_dtor, ret.
    rewrite (get_vec_eq _ _ _ _ _ _ _ Hv). mnorm. cbn [Nat.eqb].
    rewrite RawMemory_ctor_spec by lia.
    destruct (new_throws k 1) eqn:Halloc; mnorm.
    { split; [raised|]. intros _. split; [|done]. by apply is_vector_null. }
    set (b' := fresh (dom h)).
    assert (h !! b' = None) as Hfresh by apply fresh_block.
    rewrite RawMemory_plus_ok by (cbn; lia). mnorm.
    pnorm.
    rewrite (construct_at_raw _ _ _ _ _ b' 0 [Raw] a) by (done || apply lookup_insert_eq).
    destruct (construct_raises (S k) a) eqn:Hctor; mnorm.
    { erewrite Deallocate_block by apply lookup_insert_eq.
      rewrite delete_insert_id by done.
      split; [raised|]. intros _. split; [|done]. by apply is_vector_null. }
    rewrite insert_insert_eq. cbn [insert list_insert].
    rewrite CopyMoveConstruct_0. mnorm. cbn [destroy_n]. unfold ret. mnorm.
    cbn [RawMemory_Swap]. mnorm.
    rewrite (set_data_eq _ _ _ _ _ _ _ _ Hv). mnorm.
    rewrite Deallocate_null. mnorm.
    erewrite get_vec_eq by apply lookup_insert_eq. mnorm.
    erewrite set_size_eq by apply lookup_insert_eq. mnorm.
    rewrite insert_insert_eq.
    split.
    + eapply (is_vector_block _ _ [arg_value a] 1 b'); cbn [vecs heap length];
        [lia|lia|apply lookup_insert_eq|apply lookup_insert_eq].
    + eexists. cbn [vecs]. split; [apply lookup_insert_eq|]. split; [done|].
      pnorm. by erewrite cell_at_block by apply lookup_insert_eq.
  - (* a block of [cap] cells *)
    unfold EmplaceBack, bind, on_unwind, Capacity, RawMemory_Capacity, GetAddress,
      RawMemory_dtor, ret.
    rewrite (get_vec_eq _ _ _ _ _ _ _ Hv). mnorm.
    unfold grown.
    destruct (Nat.eqb_spec (length l) cap) as [Hfull|Hroom].
    + (* full: a fresh buffer of twice the size *)
      destruct (Nat.eqb_spec (length l) 0) as [?|_]; [lia|].
      replace (Nat.max 1 (2 * cap)) with (length l * 2) by lia.
      set (c' := length l * 2).
      rewrite RawMemory_ctor_spec by lia.
      destruct (new_throws k c') eqn:Halloc; mnorm.
      { split; [raised|]. intros _. split; [|done]. by eapply is_vector_block. }
      set (b' := fresh (dom h)).
      assert (h !! b' = None) as Hfresh by apply fresh_block.
      assert (b ≠ b') as Hne by (intros ->; congruence).
      assert (replicate c' (@Raw T)
              = replicate (length l) Raw ++ Raw :: replicate (length l - 1) Raw) as Hsplit.
      { rewrite <- replicate_S, <- replicate_add. f_equal. lia. }
      rewrite Hsplit.
      rewrite RawMemory_plus_ok by (cbn; lia). mnorm.
      pnorm.
      erewrite (construct_at_raw _ _ _ _ _ b' (length l) _ a);
        [|apply lookup_insert_eq|by apply lookup_middle; rewrite length_replicate].
      destruct (construct_raises (S k) a) eqn:Hctor; mnorm.
      { erewrite Deallocate_block by apply lookup_insert_eq.
        rewrite delete_insert_id by done.
        split; [raised|]. intros _. split; [|done]. by eapply is_vector_block. }
      rewrite insert_insert_eq, insert_middle by (by rewrite length_replicate).
      pose proof (CopyMoveConstruct_spec l
                    (<[b' := replicate (length l) Raw
                             ++ Live (arg_value a) :: replicate (length l - 1) Raw]> h)
                    r vs (S (S k)) lk
                    b b' [] (replicate (cap - length l) Raw) []
                    (Live (arg_value a) :: replicate (length l - 1) Raw)
                    0 0 Hne eq_refl eq_refl) as Hreloc.
      rewrite lookup_insert_ne, lookup_insert_eq in Hreloc by done.
      specialize (Hreloc Hb eq_refl). cbn [app] in Hreloc.
      rewrite Hreloc.
      destruct (first_failure relocation_raises (S (S k)) l) as [j|] eqn:Hfail; mnorm.
      * (* the relocation raises *)
        erewrite Deallocate_block by (by rewrite lookup_insert_ne, lookup_insert_eq).
        split; [raised|]. intros Hstrong.
        assert (relocates_by_move = false) as Hcopy.
        { destruct (is_nothrow_move_constructible) eqn:Hnt.
          - by rewrite relocation_nothrow in Hfail.
          - unfold relocates_by_move. rewrite Hnt. cbn in Hstrong |- *. by rewrite Hstrong. }
        rewrite (relocated_from_copy Hcopy), list_fmap_id, take_drop.
        cbn [heap vecs].
        rewrite (insert_id _ b) by (by rewrite lookup_insert_ne).
        rewrite delete_insert_id by done.
        split; [|done]. by eapply is_vector_block.
      * (* the relocation succeeds *)
        erewrite (destroy_n_cells (relocated_from <$> l) _ _ _ _ _ _ b []);
          [|done|by rewrite length_fmap|by rewrite lookup_insert_eq].
        mnorm. cbn [RawMemory_Swap]. mnorm.
        rewrite (set_data_eq _ _ _ _ _ _ _ _ Hv). mnorm.
        erewrite Deallocate_block by apply lookup_insert_eq. mnorm.
        erewrite get_vec_eq by apply lookup_insert_eq. mnorm.
        erewrite set_size_eq by apply lookup_insert_eq. mnorm.
        rewrite insert_insert_eq.
        match goal with
        | |- is_vector (mkWorld ?h' _ _ _ _) _ _ _ ∧ _ =>
            assert (h' !! b' = Some ((Live <$> (l ++ [arg_value a]))
                                ++ replicate (c' - length (l ++ [arg_value a])) Raw)) as Hnew
        end.
        { rewrite lookup_delete_ne, !lookup_insert_ne, lookup_insert_eq by done.
          replace (c' - length (l ++ [arg_value a])) with (length l - 1)
            by (rewrite length_app; cbn [length]; unfold c'; lia).
          by rewrite fmap_app, <- app_assoc. }
        split.
        -- eapply (is_vector_block _ _ _ _ b'); cbn [vecs heap];
             [lia|rewrite length_app; cbn [length]; lia| |apply Hnew].
           rewrite lookup_insert_eq, length_app. done.
        -- eexists. cbn [vecs]. split; [apply lookup_insert_eq|]. split; [done|].
           unfold begin, GetAddress. pnorm.
           erewrite cell_at_block by apply Hnew.
           rewrite fmap_app. apply lookup_app_l_Some.
           apply lookup_middle. by rewrite length_fmap.
    + (* room left: construct in place *)
      assert (length l < cap) as Hlt by lia.
      rewrite RawMemory_plus_ok by (cbn; lia). mnorm.
      pnorm.
      assert (replicate (cap - length l) (@Raw T) = Raw :: replicate (cap - S (length l)) Raw)
        as Hsplit.
      { rewrite <- replicate_S. f_equal. lia. }
      rewrite Hsplit in Hb.
      erewrite (construct_at_raw _ _ _ _ _ b (length l) _ a);
        [|exact Hb|by apply lookup_middle; rewrite length_fmap].
      destruct (construct_raises k a) eqn:Hctor; mnorm.
      { split; [raised|].
        intros _. split; [|done]. eapply is_vector_block; [| |exact Hv|]; try done.
        cbn [heap]. by rewrite Hsplit. }
      rewrite insert_middle by (by rewrite length_fmap).
      rewrite (get_vec_eq _ _ _ _ _ _ _ Hv). mnorm.
      rewrite (set_size_eq _ _ _ _ _ _ _ _ Hv). mnorm.
      match goal with
      | |- is_vector (mkWorld ?h' _ _ _ _) _ _ _ ∧ _ =>
          assert (h' !! b = Some ((Live <$> (l ++ [arg_value a]))
                             ++ replicate (cap - length (l ++ [arg_value a])) Raw)) as Hnew
      end.
      { rewrite lookup_insert_eq.
        replace (cap - length (l ++ [arg_value a])) with (cap - S (length l))
          by (rewrite length_app; cbn [length]; lia).
        by rewrite fmap_app, <- app_assoc. }
      split.
      * eapply (is_vector_block _ _ _ _ b); cbn [vecs heap];
          [lia|rewrite length_app; cbn [length]; lia| |apply Hnew].
        rewrite lookup_insert_eq, length_app. done.
      * eexists. cbn [vecs]. split; [apply lookup_insert_eq|]. split; [done|].
        unfold begin, GetAddress. pnorm.
        erewrite cell_at_block by apply Hnew.
        rewrite fmap_app. apply lookup_app_l_Some.
        apply lookup_middle. by rewrite length_fmap.
Qed.

(** What [EmplaceBack] does on a full vector of a copied type when the
    relocation raises: everything is as before the call, except that the new
    element, live in the fresh buffer, loses its storage undestroyed. *)
Lemma EmplaceBack_relocation_failure h r vs k lk this l b a j :
  vs !! this = Some (mkVector (mkRawMemory (Ptr (Some b) 0) (length l)) (length l)) →
  h !! b = Some (Live <$> l) →
  relocates_by_move = false →
  new_throws k (length l * 2) = false →
  construct_raises (S k) a = false →
  first_failure copy_ctor_throws (S (S k)) l = Some j →
  EmplaceBack this a (mkWorld h r vs k lk)
  = (Throw element_failure, mkWorld h r vs (S (S (S k) + j)) (lk ++ [arg_value a])).
Proof.
  intros Hv Hb Hcopy Halloc Hctor Hfail.
  assert (l ≠ []) as Hl by (by intros ->).
  assert (0 < length l) as Hpos by (destruct l; [done|cbn; lia]).
  unfold EmplaceBack, bind, on_unwind, Capacity, RawMemory_Capacity, GetAddress,
    RawMemory_dtor, ret.
  rewrite (get_vec_eq _ _ _ _ _ _ _ Hv). mnorm.
  rewrite Nat.eqb_refl.
  destruct (Nat.eqb_spec (length l) 0) as [?|_]; [lia|].
  rewrite RawMemory_ctor_spec, Halloc by lia. mnorm.
  set (b' := fresh (dom h)).
  assert (h !! b' = None) as Hfresh by apply fresh_block.
  assert (b ≠ b') as Hne by (intros ->; congruence).
  assert (replicate (length l * 2) (@Raw T)
          = replicate (length l) Raw ++ Raw :: replicate (length l - 1) Raw) as Hsplit.
  { rewrite <- replicate_S, <- replicate_add. f_equal. lia. }
  rewrite Hsplit.
  rewrite RawMemory_plus_ok by (cbn; lia). pnorm.
  erewrite (construct_at_raw _ _ _ _ _ b' (length l) _ a);
    [|apply lookup_insert_eq|by apply lookup_middle; rewrite length_replicate].
  rewrite Hctor. mnorm.
  rewrite insert_insert_eq, insert_middle by (by rewrite length_replicate).
  pose proof (CopyMoveConstruct_spec l
                (<[b' := replicate (length l) Raw
                         ++ Live (arg_value a) :: replicate (length l - 1) Raw]> h)
                r vs (S (S k)) lk b b' [] [] []
                (Live (arg_value a) :: replicate (length l - 1) Raw)
                0 0 Hne eq_refl eq_refl) as Hreloc.
  rewrite lookup_insert_ne, lookup_insert_eq, app_nil_r in Hreloc by done.
  specialize (Hreloc Hb eq_refl). cbn [app] in Hreloc.
  unfold relocation_raises in Hreloc. rewrite Hcopy, Hfail in Hreloc.
  rewrite Hreloc. mnorm.
  rewrite (relocated_from_copy Hcopy), list_fmap_id, take_drop, app_nil_r.
  rewrite (insert_id _ b) by (by rewrite lookup_insert_ne).
  erewrite Deallocate_block by apply lookup_insert_eq.
  rewrite delete_insert_id by done.
  rewrite live_values_app, live_values_raw. cbn [app].
  change (live_values (Live (arg_value a) :: replicate (length l - 1) Raw))
    with (arg_value a :: live_values (replicate (length l - 1) (@Raw T))).
  by rewrite live_values_raw.
Qed.

End EmplaceBackProofs.

(** ** [PopBack] and [Erase] *)

Section EraseProofs.
Context {T : Type} {E : ElemType T} {A : Allocator}.
Implicit Types (w : @world T) (l : list T) (h : gmap nat (list (cell T))).

Lemma ptr_le_same ob i j : i ≤ j → ptr_le (Ptr ob i) (Ptr ob j) = true.
Proof.
  intros Hij. unfold ptr_le. cbn [base offset].
  rewrite bool_decide_eq_true_2 by done. by apply Nat.leb_le.
Qed.

Lemma ptr_diff_same ob i j : j ≤ i → ptr_diff (Ptr ob i) (Ptr ob j) = Some (i - j).
Proof.
  intros Hij. unfold ptr_diff. cbn [base offset].
  rewrite bool_decide_eq_true_2 by done.
  by destruct (Nat.leb_spec j i) as [_|?]; [|lia].
Qed.

Lemma ptr_diff_past ob i j : i < j → ptr_diff (Ptr ob i) (Ptr ob j) = None.
Proof.
  intros Hij. unfold ptr_diff. cbn [base offset].
  rewrite bool_decide_eq_true_2 by done.
  by destruct (Nat.leb_spec j i) as [?|_]; [lia|].
Qed.

Lemma PopBack_block h r vs k lk this b cap n cs u :
  vs !! this = Some (mkVector (mkRawMemory (Ptr (Some b) 0) cap) (S n)) →
  h !! b = Some cs → cs !! n = Some (Live u) →
  PopBack this (mkWorld h r vs k lk)
  = (Ok tt, mkWorld (<[b := <[n := Raw]> cs]> h) r
              (<[this := mkVector (mkRawMemory (Ptr (Some b) 0) cap) n]> vs) k lk).
Proof.
  intros Hv Hb Hn. unfold PopBack, bind, GetAddress.
  rewrite (get_vec_eq _ _ _ _ _ _ _ Hv). pnorm. cbn [Nat.ltb Nat.leb Nat.sub].
  rewrite Nat.sub_0_r.
  rewrite (destroy_at_live _ _ _ _ _ _ _ _ _ Hb Hn).
  by rewrite (set_size_eq _ _ _ _ _ _ _ _ Hv).
Qed.

Lemma PopBack_empty h r vs k lk this d :
  vs !! this = Some (mkVector d 0) →
  PopBack this (mkWorld h r vs k lk) = (Ok tt, mkWorld h r vs k lk).
Proof.
  intros Hv. unfold PopBack, bind. by rewrite (get_vec_eq _ _ _ _ _ _ _ Hv).
Qed.

(** [Erase] at offset [d] of a vector whose buffer is the block [b]. *)
Lemma Erase_block h r vs k lk this l cap b d x :
  vs !! this = Some (mkVector (mkRawMemory (Ptr (Some b) 0) cap) (length l)) →
  h !! b = Some ((Live <$> l) ++ replicate (cap - length l) Raw) →
  l !! d = Some x →
  Erase this (Ptr (Some b) d) (mkWorld h r vs k lk)
  = match first_failure move_assign_throws k (drop (S d) l) with
    | None =>
        (Ok (Ptr (Some b) d),
         mkWorld (<[b := (Live <$> (take d l ++ drop (S d) l))
                         ++ replicate (S (cap - length l)) Raw]> h) r
           (<[this := mkVector (mkRawMemory (Ptr (Some b) 0) cap) (length l - 1)]> vs)
           (k + (length l - S d)) lk)
    | Some n =>
        (Throw element_failure,
         mkWorld (<[b := (Live <$> take d l ++ take n (drop (S d) l)
                            ++ vacated x (take n (drop (S d) l))
                               :: drop n (drop (S d) l))
                         ++ replicate (cap - length l) Raw]> h) r vs (S (k + n)) lk)
    end.
Proof.
  intros Hv Hb Hd.
  assert (d < length l) as Hlt by (by eapply lookup_lt_Some).
  unfold Erase, std_move, bind, Erase_assertion, cbegin, cend, begin, end_, GetAddress.
  rewrite (get_vec_eq _ _ _ _ _ _ _ Hv). pnorm.
  rewrite !ptr_le_same by lia. unfold assert_. cbn [andb].
  rewrite ptr_diff_same by lia. unfold lift_option. rewrite Nat.sub_0_r.
  rewrite ptr_diff_same by lia.
  rewrite Nat.add_1_r.
  pose proof (take_drop_middle l d x Hd) as Hl.
  assert (length (drop (S d) l) = length l - S d) as Hdrop by apply length_drop.
  rewrite <- Hl in Hb at 1.
  rewrite fmap_app, fmap_cons, <- app_assoc, <- app_comm_cons in Hb.
  pose proof (move_loop_spec (drop (S d) l) x h r vs k lk b (Live <$> take d l)
                (replicate (cap - length l) Raw) d) as Hmove.
  rewrite length_fmap, length_take_le in Hmove by lia.
  specialize (Hmove eq_refl Hb). rewrite Hdrop in Hmove. rewrite Hmove.
  destruct (first_failure move_assign_throws k (drop (S d) l)) as [n|].
  - do 2 f_equal. f_equal. rewrite !fmap_app, fmap_cons, <- !app_assoc. reflexivity.
  - destruct (length l) as [|m] eqn:Hm; [lia|].
    erewrite PopBack_block; [|exact Hv|apply lookup_insert_eq|].
    2:{ rewrite app_assoc. apply lookup_middle.
        rewrite length_app, !length_fmap, length_take_le, Hdrop by lia. lia. }
    erewrite get_vec_eq by apply lookup_insert_eq. unfold ret. mnorm.
    rewrite insert_insert_eq. cbn [Nat.sub]. rewrite Nat.sub_0_r.
    do 2 f_equal. f_equal.
    rewrite app_assoc.
    rewrite insert_middle
      by (rewrite length_app, !length_fmap, length_take_le, Hdrop by lia; lia).
    by rewrite fmap_app.
Qed.

End EraseProofs.

(** ** [Swap], move construction, the assignments *)

Section AssignProofs.
Context {T : Type} {E : ElemType T} {A : Allocator}.
Implicit Types (w : @world T) (l : list T) (h : gmap nat (list (cell T))).

Lemma Swap_spec h r vs k lk this other a b :
  this ≠ other → vs !! this = Some a → vs !! other = Some b →
  Swap this other (mkWorld h r vs k lk)
  = (Ok tt, mkWorld h r (<[other := a]> (<[this := b]> vs)) k lk).
Proof.
  intros Hne Ha Hb. unfold Swap, bind.
  rewrite (get_vec_eq _ _ _ _ _ _ _ Ha), (get_vec_eq _ _ _ _ _ _ _ Hb).
  rewrite (set_size_eq _ _ _ _ _ _ _ _ Ha).
  erewrite set_size_eq by (by rewrite lookup_insert_ne).
  erewrite get_vec_eq by (by rewrite lookup_insert_ne, lookup_insert_eq).
  erewrite get_vec_eq by apply lookup_insert_eq.
  cbn [RawMemory_Swap]. mnorm.
  erewrite set_data_eq by (by rewrite lookup_insert_ne, lookup_insert_eq).
  erewrite set_data_eq by (by rewrite lookup_insert_ne, lookup_insert_eq).
  mnorm. destruct a as [[pa ca] sa], b as [[pb cb] sb]. mnorm.
  do 2 f_equal. apply map_eq; intros x.
  destruct (decide (x = other)) as [->|]; [|destruct (decide (x = this)) as [->|]];
    by simplify_map_eq.
Qed.

(** A vector is where it is said to be whatever else the stores hold. *)
Lemma is_vector_ext w w' this this' l cap v :
  vecs w !! this = Some v → vecs w' !! this' = Some v →
  (∀ b, base (buffer_ (data_ v)) = Some b → heap w' !! b = heap w !! b) →
  is_vector w this l cap → is_vector w' this' l cap.
Proof.
  intros Hv Hv' Hheap (v0 & Hv0 & Hs & Hc & Ho & Hnull & Hcells).
  assert (v0 = v) as -> by congruence.
  exists v. repeat split; try done; try apply Hnull.
  unfold buffer_cells in *. destruct (base (buffer_ (data_ v))) as [b|]; [|done].
  by rewrite Hheap.
Qed.

Lemma is_vector_same w w' this l cap :
  heap w' = heap w → vecs w' = vecs w →
  is_vector w this l cap → is_vector w' this l cap.
Proof.
  intros Hh Hv Hvec. pose proof Hvec as (v & Hlook & _).
  eapply (is_vector_ext w w' this this); [exact Hlook|by rewrite Hv| |exact Hvec].
  intros b _. by rewrite Hh.
Qed.

Lemma Vector_move_ctor_spec w this other l cap :
  this ≠ other → is_vector w other l cap →
  ∃ w', Vector_move_ctor this other w = (Ok tt, w') ∧
        is_vector w' this l cap ∧ is_vector w' other [] 0 ∧ heap w' = heap w.
Proof.
  intros Hne Hvec. pose proof Hvec as (v & Hv & _). destruct w as [h r vs k lk].
  cbn [vecs] in Hv.
  unfold Vector_move_ctor, Vector_default, bind, set_vec. mnorm.
  erewrite Swap_spec; [|done|apply lookup_insert_eq|by rewrite lookup_insert_ne].
  eexists. split; [done|]. rewrite insert_insert_eq. split; [|split; [|done]].
  - apply (is_vector_ext (mkWorld h r vs k lk) _ other this l cap v);
      cbn [vecs]; [exact Hv| |done|exact Hvec].
    by rewrite lookup_insert_ne, lookup_insert_eq.
  - apply is_vector_null. cbn [vecs]. apply lookup_insert_eq.
Qed.

Lemma Vector_copy_assign_self w this l cap :
  is_vector w this l cap → Vector_copy_assign this this w = (Ok tt, w).
Proof.
  intros (v & Hv & _). destruct w as [h r vs k lk]. cbn [vecs] in Hv.
  unfold Vector_copy_assign, bind. rewrite (get_vec_eq _ _ _ _ _ _ _ Hv).
  by rewrite bool_decide_eq_false_2 by (intros ?; done).
Qed.

Lemma Vector_move_assign_self w this :
  Vector_move_assign this this w = (Ok tt, w).
Proof.
  unfold Vector_move_assign. by rewrite bool_decide_eq_false_2 by (intros ?; done).
Qed.

Lemma set_vec_eq h r vs k lk this v :
  set_vec this v (mkWorld h r vs k lk) = (Ok tt, mkWorld h r (<[this := v]> vs) k lk).
Proof. reflexivity. Qed.

Lemma del_vec_eq h r vs k lk this :
  del_vec this (mkWorld h r vs k lk) = (Ok tt, mkWorld h r (delete this vs) k lk).
Proof. reflexivity. Qed.

(** The copy constructor, from a source that holds at least one element. *)
Lemma Vector_copy_ctor_block h r vs k lk this other l cap b :
  this ≠ other → l ≠ [] →
  vs !! other = Some (mkVector (mkRawMemory (Ptr (Some b) 0) cap) (length l)) →
  h !! b = Some ((Live <$> l) ++ replicate (cap - length l) Raw) →
  Vector_copy_ctor this other (mkWorld h r vs k lk)
  = if new_throws k (length l) then (Throw bad_alloc, mkWorld h r vs (S k) lk)
    else match first_failure copy_ctor_throws (S k) l with
         | None =>
             (Ok tt,
              mkWorld (<[fresh (dom h) := Live <$> l]> h) r
                (<[this := mkVector (mkRawMemory (Ptr (Some (fresh (dom h))) 0) (length l))
                             (length l)]> vs)
                (S k + length l) lk)
         | Some n =>
             (Throw element_failure, mkWorld h r (delete this vs) (S (S k + n)) lk)
         end.
Proof.
  intros Hne Hl Hv Hb.
  assert (length l ≠ 0) as Hlen by (by destruct l).
  unfold Vector_copy_ctor, bind, on_unwind, Size, GetAddress, RawMemory_dtor.
  rewrite (get_vec_eq _ _ _ _ _ _ _ Hv). mnorm.
  rewrite RawMemory_ctor_spec by done.
  destruct (new_throws k (length l)); [done|].
  set (b' := fresh (dom h)).
  assert (h !! b' = None) as Hfresh by apply fresh_block.
  assert (b ≠ b') as Hbb by (intros ->; congruence).
  rewrite set_vec_eq.
  erewrite get_vec_eq by apply lookup_insert_eq.
  erewrite get_vec_eq by (by rewrite lookup_insert_ne).
  mnorm.
  pose proof (uninitialized_copy_n_spec l (<[b' := replicate (length l) Raw]> h) r
                (<[this := mkVector (mkRawMemory (Ptr (Some b') 0) (length l)) (length l)]> vs)
                (S k) lk b b' [] (replicate (cap - length l) Raw) [] []
                0 0 Hbb eq_refl eq_refl) as Hcopy.
  rewrite lookup_insert_ne, lookup_insert_eq, !app_nil_r in Hcopy by done.
  specialize (Hcopy Hb eq_refl). cbn [app] in Hcopy. rewrite Hcopy.
  destruct (first_failure copy_ctor_throws (S k) l) as [n|].
  - erewrite Deallocate_block by apply lookup_insert_eq.
    rewrite del_vec_eq, delete_insert_id, delete_insert_eq by done.
    by rewrite live_values_raw, app_nil_r.
  - by rewrite insert_insert_eq.
Qed.

Lemma Vector_dtor_block h r vs k lk this l cap b :
  vs !! this = Some (mkVector (mkRawMemory (Ptr (Some b) 0) cap) (length l)) →
  h !! b = Some ((Live <$> l) ++ replicate (cap - length l) Raw) →
  Vector_dtor this (mkWorld h r vs k lk)
  = (Ok tt, mkWorld (delete b h) r (delete this vs) k lk).
Proof.
  intros Hv Hb. unfold Vector_dtor, bind, GetAddress, RawMemory_dtor.
  rewrite (get_vec_eq _ _ _ _ _ _ _ Hv). mnorm.
  erewrite (destroy_n_cells l _ _ _ _ _ _ b []); [|done|done|exact Hb].
  erewrite Deallocate_block by apply lookup_insert_eq.
  rewrite del_vec_eq, delete_insert_eq.
  cbn [app]. by rewrite live_values_app, !live_values_raw, app_nil_r.
Qed.

Lemma Vector_dtor_null h r vs k lk this :
  vs !! this = Some (mkVector (mkRawMemory nullptr 0) 0) →
  Vector_dtor this (mkWorld h r vs k lk)
  = (Ok tt, mkWorld h r (delete this vs) k lk).
Proof.
  intros Hv. unfold Vector_dtor, bind, GetAddress, RawMemory_dtor.
  by rewrite (get_vec_eq _ _ _ _ _ _ _ Hv).
Qed.

Lemma fresh_vec (vs : gmap nat Vector) : vs !! fresh (dom vs) = None.
Proof. apply not_elem_of_dom, is_fresh. Qed.

(** Copy assignment when the source does not fit: copy and swap. *)
Lemma Vector_copy_assign_rebuild w this other l1 c1 l2 c2 :
  this ≠ other →
  is_vector w this l1 c1 → is_vector w other l2 c2 → disjoint_buffers w this other →
  c1 < length l2 →
  match Vector_copy_assign this other w with
  | (Ok _, w') => is_vector w' this l2 (length l2) ∧ is_vector w' other l2 c2
  | (Throw _, w') => ¬ nothing_raises ∧ heap w' = heap w ∧ vecs w' = vecs w
  | _ => False
  end.
Proof.
  intros Hne Hvec1 Hvec2 Hdisj Hbig. destruct w as [h r vs k lk].
  assert (l2 ≠ []) as Hl2 by (intros ->; cbn in Hbig; lia).
  destruct (is_vector_inv _ _ _ _ Hvec2) as [(_ & -> & _)|(b2 & Hcap2 & Hlen2 & Hv2 & Hb2)];
    [done|].
  cbn [vecs heap] in *.
  set (t := fresh (dom vs)).
  assert (vs !! t = None) as Ht by apply fresh_vec.
  assert (t ≠ this ∧ t ≠ other) as [Htt Hto].
  { destruct Hvec1 as (v1 & Hv1 & _). cbn [vecs] in Hv1.
    split; intros ->; congruence. }
  assert (∃ v1, vs !! this = Some v1 ∧ capacity_ (data_ v1) = c1) as (v1 & Hv1 & Hc1).
  { destruct Hvec1 as (v1 & Hv1 & _ & Hc1 & _). eauto. }
  unfold Vector_copy_assign, bind, Size, Capacity, RawMemory_Capacity, local_vec.
  rewrite (get_vec_eq _ _ _ _ _ _ _ Hv2). mnorm.
  rewrite bool_decide_eq_true_2 by done.
  rewrite (get_vec_eq _ _ _ _ _ _ _ Hv1). rewrite Hc1.
  destruct (Nat.ltb_spec c1 (length l2)) as [_|?]; [|lia].
  mnorm. fold t.
  rewrite (Vector_copy_ctor_block h r vs k lk t other l2 c2 b2) by done.
  destruct (new_throws k (length l2)) eqn:Halloc; [split; [raised|done]|].
  destruct (first_failure copy_ctor_throws (S k) l2) as [n|] eqn:Hfail.
  { mnorm. split; [raised|]. by rewrite delete_id. }
  set (b' := fresh (dom h)).
  assert (h !! b' = None) as Hfresh by apply fresh_block.
  assert (b2 ≠ b') as Hb2' by (intros ->; congruence).
  erewrite Swap_spec; [|done|by rewrite lookup_insert_ne|apply lookup_insert_eq].
  assert (∀ vs' h', vs' !! other = vs !! other → h' !! b2 = h !! b2 →
            is_vector (mkWorld h' r vs' (S k + length l2) lk) other l2 c2) as Hother.
  { intros vs' h' Hvs' Hh'.
    apply (is_vector_ext (mkWorld h r vs k lk) _ other other l2 c2 _ Hv2); cbn [vecs heap];
      [by rewrite Hvs'| |done].
    intros b [= <-]. done. }
  assert (∀ vs' h',
            vs' !! this = Some (mkVector (mkRawMemory (Ptr (Some b') 0) (length l2)) (length l2)) →
            h' !! b' = Some (Live <$> l2) →
            is_vector (mkWorld h' r vs' (S k + length l2) lk) this l2 (length l2)) as Hthis.
  { intros vs' h' Hvs' Hh'. eapply is_vector_block; cbn [vecs heap]; [lia|lia|exact Hvs'|].
    by rewrite Nat.sub_diag, app_nil_r. }
  destruct (is_vector_inv _ _ _ _ Hvec1) as [(-> & -> & Hv1')|(b1 & Hcap1 & Hlen1 & Hv1' & Hb1)];
    cbn [vecs heap] in *.
  - assert (v1 = mkVector (mkRawMemory nullptr 0) 0) as -> by congruence.
    erewrite Vector_dtor_null by apply lookup_insert_eq.
    split.
    + apply Hthis; [|apply lookup_insert_eq].
      by rewrite lookup_delete_ne, lookup_insert_ne, lookup_insert_eq.
    + apply Hother; [|by rewrite lookup_insert_ne].
      by rewrite lookup_delete_ne, !lookup_insert_ne.
  - assert (v1 = mkVector (mkRawMemory (Ptr (Some b1) 0) c1) (length l1)) as -> by congruence.
    assert (b1 ≠ b') as Hb1' by (intros ->; congruence).
    assert (b2 ≠ b1) as Hb21.
    { intros ->. by eapply (Hdisj _ _ b1 Hv1 Hv2). }
    erewrite Vector_dtor_block; [|apply lookup_insert_eq|by rewrite lookup_insert_ne].
    split.
    + apply Hthis.
      * by rewrite lookup_delete_ne, lookup_insert_ne, lookup_insert_eq.
      * by rewrite lookup_delete_ne, lookup_insert_eq.
    + apply Hother.
      * by rewrite lookup_delete_ne, !lookup_insert_ne.
      * by rewrite lookup_delete_ne, lookup_insert_ne by done.
Qed.

Lemma ptr_diff_padd (p : pointer) n : ptr_diff (p +ₚ n) p = Some n.
Proof.
  destruct p as [ob o]. unfold padd. cbn [base offset].
  rewrite ptr_diff_same by lia. f_equal. lia.
Qed.

(** Copy assignment when the source fits: the cells are assigned in place. *)
Lemma Vector_copy_assign_inplace w this other l1 c1 l2 c2 :
  this ≠ other →
  is_vector w this l1 c1 → is_vector w other l2 c2 → disjoint_buffers w this other →
  length l2 ≤ c1 →
  match Vector_copy_assign this other w with
  | (Ok _, w') => is_vector w' this l2 c1 ∧ is_vector w' other l2 c2
  | (Throw _, w') => ¬ nothing_raises
  | _ => False
  end.
Proof.
  intros Hne Hvec1 Hvec2 Hdisj Hfit. destruct w as [h r vs k lk].
  pose proof Hvec1 as (v1 & Hv1 & Hs1 & Hc1 & _).
  pose proof Hvec2 as (v2 & Hv2 & Hs2 & _).
  cbn [vecs] in Hv1, Hv2.
  assert (∀ vs' h' k', vs' !! other = vs !! other →
            (∀ b, base (buffer_ (data_ v2)) = Some b → h' !! b = h !! b) →
            is_vector (mkWorld h' r vs' k' lk) other l2 c2) as Hother.
  { intros vs' h' k' Hvs' Hh'.
    apply (is_vector_ext (mkWorld h r vs k lk) _ other other l2 c2 _ Hv2); cbn [vecs heap];
      [by rewrite Hvs'|done|done]. }
  unfold Vector_copy_assign, std_copy, bind, Size, Capacity, RawMemory_Capacity, GetAddress.
  rewrite (get_vec_eq _ _ _ _ _ _ _ Hv2).
  rewrite bool_decide_eq_true_2 by done.
  rewrite (get_vec_eq _ _ _ _ _ _ _ Hv1). rewrite Hc1, Hs1, Hs2.
  destruct (Nat.ltb_spec c1 (length l2)) as [?|_]; [lia|].
  rewrite !ptr_diff_padd. unfold lift_option.
  destruct (decide (l2 = [])) as [->|Hl2].
  - (* nothing to copy *)
    cbn [length copy_loop]. unfold ret.
    destruct (is_vector_inv _ _ _ _ Hvec1) as [(-> & -> & Hv1')|(b1 & Hcap1 & Hlen1 & Hv1' & Hb1)];
      cbn [vecs heap] in *.
    + assert (v1 = mkVector (mkRawMemory nullptr 0) 0) as -> by congruence.
      cbn [length Nat.ltb Nat.leb copy_loop Nat.sub uninitialized_copy_n]. unfold ret.
      rewrite (set_size_eq _ _ _ _ _ _ _ _ Hv1). mnorm. split.
      * apply is_vector_null. cbn [vecs]. apply lookup_insert_eq.
      * apply Hother; [by rewrite lookup_insert_ne|done].
    + assert (v1 = mkVector (mkRawMemory (Ptr (Some b1) 0) c1) (length l1)) as -> by congruence.
      assert (∀ b, base (buffer_ (data_ v2)) = Some b → b1 ≠ b) as Hb12.
      { intros b Hb ->. by eapply (Hdisj _ _ b Hv1 Hv2). }
      destruct (Nat.ltb_spec 0 (length l1)) as [Hpos|Hzero].
      * pnorm. rewrite Nat.sub_0_r.
        erewrite (destroy_n_cells l1 _ _ _ _ _ _ b1 []); [|done|done|exact Hb1].
        rewrite (set_size_eq _ _ _ _ _ _ _ _ Hv1). mnorm. split.
        -- eapply (is_vector_block _ _ [] c1 b1); cbn [vecs heap length];
             [lia|lia|apply lookup_insert_eq|].
           rewrite lookup_insert_eq. cbn [app fmap list_fmap].
           rewrite <- replicate_add. do 2 f_equal. lia.
        -- apply Hother; [by rewrite lookup_insert_ne|].
           intros b Hb. rewrite lookup_insert_ne; [done|by apply Hb12].
      * assert (l1 = []) as -> by (destruct l1; [done|cbn in Hzero; lia]).
        cbn [length copy_loop Nat.sub uninitialized_copy_n]. unfold ret.
        rewrite (set_size_eq _ _ _ _ _ _ _ _ Hv1). mnorm. split.
        -- eapply (is_vector_block _ _ [] c1 b1); cbn [vecs heap length];
             [lia|lia|apply lookup_insert_eq|done].
        -- apply Hother; [by rewrite lookup_insert_ne|done].
  - (* both vectors have a block *)
    destruct (is_vector_inv _ _ _ _ Hvec2) as [(_ & -> & _)|(b2 & Hcap2 & Hlen2 & Hv2' & Hb2)];
      [done|].
    assert (0 < length l2) as Hpos2 by (destruct l2; [done|cbn; lia]).
    destruct (is_vector_inv _ _ _ _ Hvec1) as [(-> & _)|(b1 & Hcap1 & Hlen1 & Hv1' & Hb1)];
      [lia|].
    cbn [vecs heap] in *.
    assert (v1 = mkVector (mkRawMemory (Ptr (Some b1) 0) c1) (length l1)) as -> by congruence.
    assert (v2 = mkVector (mkRawMemory (Ptr (Some b2) 0) c2) (length l2)) as -> by congruence.
    assert (b2 ≠ b1) as Hb21.
    { intros ->. by eapply (Hdisj _ _ b1 Hv1 Hv2). }
    pnorm.
    destruct (Nat.ltb_spec (length l2) (length l1)) as [Hshrink|Hgrow].
    + (* the target shrinks *)
      pose proof (copy_loop_cells l2 (take (length l2) l1) (length l2) h r vs k lk b2 b1
                    [] (replicate (c2 - length l2) Raw)
                    [] ((Live <$> drop (length l2) l1) ++ replicate (c1 - length l1) Raw)
                    0 0) as Hcopy.
      rewrite length_take_le in Hcopy by lia.
      specialize (Hcopy eq_refl Hb21 eq_refl eq_refl eq_refl Hb2).
      cbn [app] in Hcopy. rewrite app_assoc, <- fmap_app, take_drop in Hcopy.
      specialize (Hcopy Hb1). rewrite Hcopy.
      destruct (first_failure copy_assign_throws k l2) as [m|] eqn:Hfail; [raised|].
      erewrite (destroy_n_cells (drop (length l2) l1) _ _ _ _ _ _ b1 (Live <$> l2));
        [|by rewrite length_fmap|by rewrite length_drop|apply lookup_insert_eq].
      rewrite (set_size_eq _ _ _ _ _ _ _ _ Hv1). mnorm. rewrite insert_insert_eq. split.
      * eapply (is_vector_block _ _ l2 c1 b1); cbn [vecs heap];
          [lia|lia|apply lookup_insert_eq|].
        rewrite lookup_insert_eq, <- replicate_add. do 3 f_equal. lia.
      * apply Hother; [by rewrite lookup_insert_ne|].
        intros b [= <-]. by rewrite lookup_insert_ne.
    + (* the target grows into its raw cells *)
      pose proof (copy_loop_cells (take (length l1) l2) l1 (length l1) h r vs k lk b2 b1
                    [] ((Live <$> drop (length l1) l2) ++ replicate (c2 - length l2) Raw)
                    [] (replicate (c1 - length l1) Raw)
                    0 0 eq_refl Hb21 eq_refl eq_refl) as Hcopy.
      rewrite length_take_le in Hcopy by lia. specialize (Hcopy eq_refl).
      cbn [app] in Hcopy. rewrite app_assoc, <- fmap_app, take_drop in Hcopy.
      specialize (Hcopy Hb2 Hb1). rewrite Hcopy.
      destruct (first_failure copy_assign_throws k (take (length l1) l2)) as [m|] eqn:Hfail;
        [raised|].
      pose proof (uninitialized_copy_n_cells (drop (length l1) l2) (length l2 - length l1)
                    (<[b1 := (Live <$> take (length l1) l2) ++ replicate (c1 - length l1) Raw]> h)
                    r vs (k + length l1) lk b2 b1
                    (Live <$> take (length l1) l2) (replicate (c2 - length l2) Raw)
                    (Live <$> take (length l1) l2) (replicate (c1 - length l2) Raw)
                    (length l1) (length l1) Hb21) as Hfill.
      rewrite !length_fmap, length_take_le, length_drop in Hfill by lia.
      specialize (Hfill eq_refl eq_refl eq_refl).
      rewrite lookup_insert_ne, lookup_insert_eq in Hfill by done.
      rewrite app_assoc, <- fmap_app, take_drop in Hfill. specialize (Hfill Hb2).
      rewrite <- replicate_add in Hfill.
      replace (length l2 - length l1 + (c1 - length l2)) with (c1 - length l1) in Hfill by lia.
      specialize (Hfill eq_refl). rewrite Hfill.
      destruct (first_failure copy_ctor_throws (k + length l1) (drop (length l1) l2)) as [m|]
        eqn:Hfill'; [raised|].
      rewrite (set_size_eq _ _ _ _ _ _ _ _ Hv1). mnorm. rewrite insert_insert_eq. split.
      * eapply (is_vector_block _ _ l2 c1 b1); cbn [vecs heap];
          [lia|lia|apply lookup_insert_eq|].
        rewrite lookup_insert_eq, app_assoc, <- fmap_app, take_drop. done.
      * apply Hother; [by rewrite lookup_insert_ne|].
        intros b [= <-]. by rewrite lookup_insert_ne.
Qed.

End AssignProofs.

(** ** [Emplace] on the in-place path *)

Section EmplaceInPlace.
Context {T : Type} {E : ElemType T} {A : Allocator}.
Implicit Types (w : @world T) (l : list T) (h : gmap nat (list (cell T))).

Lemma first_failure_lt (f : nat → T → bool) k l n :
  first_failure f k l = Some n → n < length l.
Proof.
  revert k n. induction l as [|v l IH]; intros k n; [done|].
  cbn [first_failure length]. destruct (f k v).
  - intros [= <-]. lia.
  - destruct (first_failure f (S k) l) as [m|] eqn:Hm; [|done].
    intros [= <-]. apply IH in Hm. lia.
Qed.

(** [Emplace] at offset [d] of the non-empty sequence [l0 ++ [z]], whose
    buffer is the block [b] and has room: [l'] is the sequence once cell
    [size] has been move-constructed from the last element, [t] the cells
    that the shift moves. *)
Lemma Emplace_in_place_block h r vs k lk this l0 z cap b d a :
  let l := l0 ++ [z] in
  let l' := l0 ++ [moved_from z] in
  let t := drop d l' in
  vs !! this = Some (mkVector (mkRawMemory (Ptr (Some b) 0) cap) (length l)) →
  h !! b = Some ((Live <$> l) ++ replicate (cap - length l) Raw) →
  length l < cap → d ≤ length l →
  Emplace this (Ptr (Some b) d) a (mkWorld h r vs k lk)
  = if move_ctor_raises k z then (Throw element_failure, mkWorld h r vs (S k) lk)
    else match first_failure move_assign_throws (S k) (rev t) with
         | Some n =>
             (Throw element_failure,
              mkWorld (<[b := <[length l := Raw]>
                                ((Live <$> take d l')
                                 ++ (Live <$> take (length t - n) t)
                                 ++ Live (vacated_right z (drop (length t - n) t))
                                    :: (Live <$> drop (length t - n) t)
                                 ++ replicate (cap - S (length l)) Raw)]> h)
                r vs (S (S k + n)) lk)
         | None =>
             if construct_raises (S k + length t) a
             then (Throw element_failure,
                   mkWorld (<[b := (Live <$> take d l') ++ Raw :: (Live <$> t)
                                   ++ replicate (cap - S (length l)) Raw]> h)
                     r vs (S (S k + length t)) lk)
             else (Ok (Ptr (Some b) d),
                   mkWorld (<[b := (Live <$> take d l' ++ arg_value a :: t)
                                   ++ replicate (cap - S (length l)) Raw]> h) r
                     (<[this := mkVector (mkRawMemory (Ptr (Some b) 0) cap) (length l + 1)]> vs)
                     (S (S k + length t)) lk)
         end.
Proof.
  intros l l' t Hv Hb Hroom Hd.
  assert (length l = S (length l0)) as Hlen by (unfold l; rewrite length_app; cbn; lia).
  assert (length l' = S (length l0)) as Hlen' by (unfold l'; rewrite length_app; cbn; lia).
  assert (length t = length l - d) as Ht by (unfold t; rewrite length_drop; lia).
  assert (replicate (cap - length l) (@Raw T) = Raw :: replicate (cap - S (length l)) Raw)
    as Hsplit.
  { rewrite <- replicate_S. f_equal. lia. }
  rewrite Hsplit in Hb. unfold l in Hb at 1.
  rewrite fmap_app, <- app_assoc in Hb. cbn [fmap list_fmap app] in Hb.
  rewrite Hlen in Hv, Hb, Hroom, Hd, Ht |- *. clear Hsplit.
  unfold Emplace, move_backward, bind, on_unwind, begin, end_, Capacity, RawMemory_Capacity,
    GetAddress, ret.
  rewrite (get_vec_eq _ _ _ _ _ _ _ Hv). pnorm.
  rewrite !ptr_le_same by lia. unfold assert_ at 1. cbn [andb].
  rewrite ptr_diff_same by lia. unfold lift_option. rewrite Nat.sub_0_r.
  destruct (Nat.eqb_spec (S (length l0)) cap) as [?|_]; [lia|].
  cbn [Nat.eqb negb].
  rewrite RawMemory_plus_ok by (cbn; lia). pnorm.
  cbn [Nat.sub]. rewrite Nat.sub_0_r.
  erewrite (move_construct_within _ _ _ _ _ b (length l0) (S (length l0)));
    [|lia|exact Hb|by apply lookup_middle; rewrite length_fmap|].
  2:{ rewrite (cons_middle (Live z)), app_assoc. apply lookup_middle.
      rewrite length_app, length_fmap. cbn [length]. lia. }
  destruct (move_ctor_raises k z); [done|].
  assert (<[length l0 := Live (moved_from z)]>
            (<[S (length l0) := Live z]>
               ((Live <$> l0) ++ Live z :: Raw :: replicate (cap - S (S (length l0))) Raw))
          = (Live <$> take d l') ++ (Live <$> t) ++ Live z
              :: replicate (cap - S (S (length l0))) Raw) as ->.
  { rewrite (cons_middle (Live z)), app_assoc.
    rewrite insert_middle by (rewrite length_app, length_fmap; cbn [length]; lia).
    rewrite <- app_assoc. cbn [app].
    rewrite insert_middle by (by rewrite length_fmap).
    rewrite app_assoc, <- fmap_app. unfold t. rewrite take_drop.
    unfold l'. rewrite fmap_app, <- app_assoc. reflexivity. }
  rewrite ptr_diff_same by lia.
  pose proof (move_backward_loop_spec t z
                (<[b := (Live <$> take d l') ++ (Live <$> t) ++ Live z
                          :: replicate (cap - S (S (length l0))) Raw]> h)
                r vs (S k) lk b (Live <$> take d l')
                (replicate (cap - S (S (length l0))) Raw) (S (length l0))) as Hshift.
  rewrite length_fmap, length_take_le, lookup_insert_eq in Hshift by lia.
  rewrite Ht in Hshift.
  specialize (Hshift ltac:(lia) eq_refl).
  rewrite Nat.add_1_r. rewrite Hshift.
  destruct (first_failure move_assign_throws (S k) (rev t)) as [n|] eqn:Hfail.
  - (* the shift raises *)
    apply first_failure_lt in Hfail. rewrite length_rev, Ht in Hfail.
    cbn [destroy_n]. unfold bind, ret.
    set (moved := drop (S (length l0) - d - n) t).
    assert (length moved = n) as Hmoved by (unfold moved; rewrite length_drop, Ht; lia).
    assert (∃ u, (vacated_right z moved :: moved) !! n = Some u) as [u Hu].
    { apply lookup_lt_is_Some_2. cbn [length]. lia. }
    erewrite destroy_at_live; [|apply lookup_insert_eq|].
    2:{ change (Live (vacated_right z moved) :: (Live <$> moved)
                ++ replicate (cap - S (S (length l0))) Raw)
          with ((Live <$> vacated_right z moved :: moved)
                ++ replicate (cap - S (S (length l0))) Raw).
        rewrite !app_assoc, <- fmap_app.
        apply lookup_app_l_Some.
        rewrite lookup_app_r by (rewrite length_fmap, length_app, !length_take_le by lia; lia).
        rewrite length_fmap, length_app, !length_take_le by lia.
        rewrite list_lookup_fmap.
        replace (S (length l0) - (d + (S (length l0) - d - n))) with n by lia.
        by rewrite Hu. }
    rewrite !insert_insert_eq. unfold moved. by rewrite Ht.
  - (* the shift is done *)
    rewrite insert_insert_eq.
    erewrite destroy_at_live; [|apply lookup_insert_eq|].
    2:{ apply lookup_middle. rewrite length_fmap, length_take_le by lia. done. }
    rewrite insert_insert_eq, insert_middle
      by (rewrite length_fmap, length_take_le by lia; done).
    rewrite RawMemory_plus_ok by (cbn; lia). pnorm.
    erewrite (construct_at_raw _ _ _ _ _ b d _ a); [|apply lookup_insert_eq|].
    2:{ apply lookup_middle. rewrite length_fmap, length_take_le by lia. done. }
    rewrite Ht.
    replace (S k + (S (length l0) - d)) with (S (k + (S (length l0) - d))) by lia.
    destruct (construct_raises (S (k + (S (length l0) - d))) a).
    + done.
    + rewrite insert_insert_eq, insert_middle
        by (rewrite length_fmap, length_take_le by lia; done).
      rewrite (get_vec_eq _ _ _ _ _ _ _ Hv). mnorm.
      rewrite (set_size_eq _ _ _ _ _ _ _ _ Hv). mnorm.
      rewrite Nat.add_1_r.
      do 3 f_equal.
      rewrite fmap_app, fmap_cons, <- app_assoc. reflexivity.
Qed.

Lemma is_vector_inj w this l1 l2 c1 c2 :
  is_vector w this l1 c1 → is_vector w this l2 c2 → l1 = l2.
Proof.
  intros H1 H2.
  pose proof (is_vector_size _ _ _ _ H1) as Hs1.
  pose proof (is_vector_size _ _ _ _ H2) as Hs2.
  pose proof (is_vector_cells _ _ _ _ H1) as Hc1.
  pose proof (is_vector_cells _ _ _ _ H2) as Hc2.
  rewrite Hs1 in Hs2. injection Hs2 as Hlen.
  rewrite Hc1 in Hc2. injection Hc2 as Hcells.
  apply app_inj_1 in Hcells as [Hlive _]; [|by rewrite !length_fmap].
  by apply (inj (fmap Live)) in Hlive.
Qed.

(** The in-place path on every non-empty sequence [l0 ++ [z]] with room:
    when [Emplace] returns, the sequence is the one with the new element at
    [d], except that the former last element [z] is [moved_from z]. *)
Lemma Emplace_in_place_spec w this l0 z cap v d a :
  is_vector w this (l0 ++ [z]) cap → vecs w !! this = Some v →
  length (l0 ++ [z]) < cap → d ≤ length (l0 ++ [z]) →
  match Emplace this (begin v +ₚ d) a w with
  | (Ok p, w') =>
      p = begin v +ₚ d ∧
      is_vector w' this
        (take d (l0 ++ [moved_from z]) ++ arg_value a :: drop d (l0 ++ [moved_from z])) cap ∧
      points_to w' this p d (arg_value a)
  | (Throw _, w') => size_of w' this = Some (length (l0 ++ [z])) ∧ ¬ nothing_raises
  | _ => False
  end.
Proof.
  intros Hvec Hv Hroom Hd. destruct w as [h r vs k lk].
  destruct (is_vector_inv _ _ _ _ Hvec) as [(_ & Hnil & _)|(b & Hcap & Hlen & Hv' & Hb)];
    [by destruct l0|].
  cbn [vecs heap] in *.
  assert (v = mkVector (mkRawMemory (Ptr (Some b) 0) cap) (length (l0 ++ [z]))) as ->
    by congruence.
  unfold begin, GetAddress. pnorm.
  rewrite (Emplace_in_place_block h r vs k lk this l0 z cap b d a Hv Hb Hroom Hd).
  cbn zeta.
  destruct (move_ctor_raises k z) eqn:Hmove.
  { split; [|raised]. unfold size_of. cbn [vecs]. by rewrite Hv. }
  destruct (first_failure move_assign_throws (S k) (rev (drop d (l0 ++ [moved_from z]))))
    as [n|] eqn:Hshift.
  { split; [|raised]. unfold size_of. cbn [vecs]. by rewrite Hv. }
  destruct (construct_raises _ a) eqn:Hctor.
  { split; [|raised]. unfold size_of. cbn [vecs]. by rewrite Hv. }
  split; [done|].
  assert (length (l0 ++ [moved_from z]) = length (l0 ++ [z])) as Hlen'
    by (by rewrite !length_app).
  assert (length (take d (l0 ++ [moved_from z]) ++ arg_value a :: drop d (l0 ++ [moved_from z]))
          = S (length (l0 ++ [z]))) as Hlen''.
  { rewrite length_app, length_take_le by lia. cbn [length].
    rewrite length_drop. lia. }
  split.
  - eapply (is_vector_block _ _ _ cap b); cbn [vecs heap]; [lia|lia| |].
    + by rewrite lookup_insert_eq, Hlen'', Nat.add_1_r.
    + by rewrite lookup_insert_eq, Hlen''.
  - eexists. cbn [vecs]. split; [apply lookup_insert_eq|]. split; [done|].
    erewrite cell_at_block by apply lookup_insert_eq.
    apply lookup_app_l_Some. rewrite fmap_app, fmap_cons. apply lookup_middle.
    rewrite length_fmap, length_take_le; lia.
Qed.

(** ... so the specified result is reached exactly when moving from the
    last element leaves it as it was. *)
Lemma Emplace_in_place_correct_iff w this l0 z cap v d a p w' :
  is_vector w this (l0 ++ [z]) cap → vecs w !! this = Some v →
  length (l0 ++ [z]) < cap → d ≤ length (l0 ++ [z]) →
  Emplace this (begin v +ₚ d) a w = (Ok p, w') →
  is_vector w' this (take d (l0 ++ [z]) ++ arg_value a :: drop d (l0 ++ [z])) cap
  ↔ moved_from z = z.
Proof.
  intros Hvec Hv Hroom Hd Hrun.
  pose proof (Emplace_in_place_spec w this l0 z cap v d a Hvec Hv Hroom Hd) as Hspec.
  rewrite Hrun in Hspec. destruct Hspec as (_ & Hvec' & _). split.
  - intros Hwanted. pose proof (is_vector_inj _ _ _ _ _ _ Hvec' Hwanted) as Heq.
    apply app_inj_1 in Heq as [Htake Hdrop];
      [|rewrite !length_take, !length_app; cbn [length]; lia].
    injection Hdrop as Hdrop.
    assert (l0 ++ [moved_from z] = l0 ++ [z]) as Hl
      by (by rewrite <- (take_drop d (l0 ++ [moved_from z])), Htake, Hdrop, take_drop).
    apply app_inv_head in Hl. by injection Hl.
  - intros Hz. by rewrite Hz in Hvec'.
Qed.

(** When the constructor of the new element raises on the in-place path,
    with [d < size]: the size is unchanged, cell [d] is raw, cell [size] is
    live, and no sequence is represented. *)
Lemma Emplace_in_place_ctor_failure h r vs k lk this l0 z cap b d a :
  vs !! this = Some (mkVector (mkRawMemory (Ptr (Some b) 0) cap) (length (l0 ++ [z]))) →
  h !! b = Some ((Live <$> l0 ++ [z]) ++ replicate (cap - length (l0 ++ [z])) Raw) →
  length (l0 ++ [z]) < cap → d < length (l0 ++ [z]) →
  move_ctor_raises k z = false →
  first_failure move_assign_throws (S k) (rev (drop d (l0 ++ [moved_from z]))) = None →
  construct_raises (S k + length (drop d (l0 ++ [moved_from z]))) a = true →
  ∃ w', Emplace this (Ptr (Some b) d) a (mkWorld h r vs k lk) = (Throw element_failure, w') ∧
        size_of w' this = Some (length (l0 ++ [z])) ∧
        cell_at w' (Ptr (Some b) d) = Some Raw ∧
        (∃ u, cell_at w' (Ptr (Some b) (length (l0 ++ [z]))) = Some (Live u)) ∧
        ∀ l, ¬ is_vector w' this l cap.
Proof.
  intros Hv Hb Hroom Hd Hmove Hshift Hctor.
  rewrite (Emplace_in_place_block h r vs k lk this l0 z cap b d a Hv Hb Hroom ltac:(lia)).
  cbn zeta. rewrite Hmove, Hshift, Hctor.
  eexists. split; [done|].
  set (l' := l0 ++ [moved_from z]).
  assert (length l' = length (l0 ++ [z])) as Hlen' by (unfold l'; by rewrite !length_app).
  assert (length (take d l') = d) as Htake by (rewrite length_take_le; lia).
  split; [unfold size_of; cbn [vecs]; by rewrite Hv|].
  assert (∀ cs, cell_at (mkWorld (<[b := cs]> h) r vs
                           (S (S k + length (drop d l'))) lk) (Ptr (Some b) d) = cs !! d)
    as Hcell by (intros cs; by erewrite cell_at_block by apply lookup_insert_eq).
  split; [|split].
  - erewrite cell_at_block by apply lookup_insert_eq.
    apply lookup_middle. by rewrite length_fmap.
  - erewrite cell_at_block by apply lookup_insert_eq.
    destruct (lookup_lt_is_Some_2 (drop d l') (length (l0 ++ [z]) - S d)) as [u Hu].
    { rewrite length_drop. lia. }
    exists u. rewrite (cons_middle Raw), !app_assoc. apply lookup_app_l_Some.
    rewrite lookup_app_r by (rewrite length_app, length_fmap; cbn [length]; lia).
    rewrite (length_app (Live <$> take d l')), length_fmap, list_lookup_fmap. cbn [length].
    replace (length (l0 ++ [z]) - (length (take d l') + 1)) with (length (l0 ++ [z]) - S d)
      by lia.
    by rewrite Hu.
  - intros l Hvec.
    pose proof (is_vector_size _ _ _ _ Hvec) as Hsize.
    pose proof (is_vector_cells _ _ _ _ Hvec) as Hcells.
    unfold size_of in Hsize. cbn [vecs] in Hsize. rewrite Hv in Hsize.
    injection Hsize as Hsize.
    unfold cells_of, buffer_cells in Hcells. cbn [vecs heap] in Hcells.
    rewrite Hv in Hcells. cbn in Hcells. rewrite lookup_insert_eq in Hcells. cbn in Hcells.
    destruct (_ =? _) in Hcells; [|done]. injection Hcells as Hcells.
    assert (((Live <$> l) ++ replicate (cap - length l) Raw) !! d = Some Raw) as Hraw.
    { rewrite <- Hcells. apply lookup_middle. by rewrite length_fmap. }
    rewrite lookup_app_l in Hraw by (rewrite length_fmap; lia).
    rewrite list_lookup_fmap in Hraw. by destruct (l !! d).
Qed.

End EmplaceInPlace.

(** ** [Emplace] on the reallocation path *)

Section EmplaceRealloc.
Context {T : Type} {E : ElemType T} {A : Allocator}.
Implicit Types (w : @world T) (l : list T) (h : gmap nat (list (cell T))).

Lemma uninitialized_move_n_0 (p q : pointer) w : uninitialized_move_n p 0 q w = (Ok tt, w).
Proof. reflexivity. Qed.

Lemma uninitialized_copy_n_0 (p q : pointer) w : uninitialized_copy_n p 0 q w = (Ok tt, w).
Proof. reflexivity. Qed.

Lemma uninitialized_move_n_cells l n h r vs k lk bs bd ps qs pd qd i j :
  bs ≠ bd → i = length ps → j = length pd → n = length l →
  h !! bs = Some (ps ++ (Live <$> l) ++ qs) →
  h !! bd = Some (pd ++ replicate n Raw ++ qd) →
  uninitialized_move_n (Ptr (Some bs) i) n (Ptr (Some bd) j) (mkWorld h r vs k lk)
  = match first_failure move_ctor_raises k l with
    | None =>
        (Ok tt, mkWorld (<[bs := ps ++ (Live <$> (moved_from <$> l)) ++ qs]>
                           (<[bd := pd ++ (Live <$> l) ++ qd]> h)) r vs (k + n) lk)
    | Some m =>
        (Throw element_failure,
         mkWorld (<[bs := ps ++ (Live <$> ((moved_from <$> take m l) ++ drop m l)) ++ qs]> h)
           r vs (S (k + m)) lk)
    end.
Proof. intros Hne -> -> ->. by apply uninitialized_move_n_spec. Qed.

Lemma move_never_raises k l :
  is_nothrow_move_constructible = true → first_failure move_ctor_raises k l = None.
Proof.
  intros Hn. apply first_failure_never. intros k' v.
  unfold move_ctor_raises. by rewrite Hn.
Qed.

(** [Emplace] at offset [d] of a full vector. *)
Lemma Emplace_realloc_spec w this l cap v d a :
  is_vector w this l cap → vecs w !! this = Some v →
  length l = cap → d ≤ length l →
  match Emplace this (begin v +ₚ d) a w with
  | (Ok p, w') =>
      is_vector w' this (take d l ++ arg_value a :: drop d l) (Nat.max 1 (2 * cap)) ∧
      points_to w' this p d (arg_value a)
  | (Throw _, w') =>
      ¬ nothing_raises ∧
      (is_nothrow_move_constructible || is_copy_constructible = true →
       is_vector w' this l cap ∧ heap w' = heap w ∧ vecs w' = vecs w)
  | _ => False
  end.
Proof.
  intros Hvec Hv Hfull Hd. destruct w as [h r vs k lk].
  destruct (is_vector_inv _ _ _ _ Hvec) as [(-> & -> & Hv')|(b & Hcap & Hlen & Hv' & Hb)];
    cbn [vecs heap] in *.
  - (* no buffer yet *)
    assert (v = mkVector (mkRawMemory nullptr 0) 0) as -> by congruence.
    assert (d = 0) as -> by (cbn in Hd; lia).
    unfold Emplace, bind, on_unwind, begin, end_, Capacity, RawMemory_Capacity, GetAddress,
      RawMemory_dtor, ret.
    rewrite (get_vec_eq _ _ _ _ _ _ _ Hv). unfold nullptr. pnorm.
    rewrite !ptr_le_same by lia. unfold assert_ at 1. cbn [andb].
    rewrite ptr_diff_same by lia. unfold lift_option. cbn [Nat.sub Nat.eqb].
    rewrite RawMemory_ctor_spec by lia.
    destruct (new_throws k 1) eqn:Halloc; mnorm.
    { split; [raised|]. intros _. split; [|done]. by apply is_vector_null. }
    set (b' := fresh (dom h)).
    assert (h !! b' = None) as Hfresh by apply fresh_block.
    rewrite RawMemory_plus_ok by (cbn; lia). pnorm.
    rewrite (construct_at_raw _ _ _ _ _ b' 0 [Raw] a) by (done || apply lookup_insert_eq).
    destruct (construct_raises (S k) a) eqn:Hctor; mnorm.
    { erewrite Deallocate_block by apply lookup_insert_eq.
      rewrite delete_insert_id by done.
      split; [raised|]. intros _. split; [|done]. by apply is_vector_null. }
    rewrite insert_insert_eq. cbn [insert list_insert].
    match goal with
    | |- context [(if relocates_by_move then ?X else ?Y) ?W] =>
        replace ((if relocates_by_move then X else Y) W) with (@Ok unit tt, W)
          by (by destruct relocates_by_move)
    end.
    mnorm. cbn [destroy_n]. unfold ret. mnorm.
    cbn [RawMemory_Swap]. mnorm.
    rewrite (set_data_eq _ _ _ _ _ _ _ _ Hv). mnorm.
    rewrite Deallocate_null. mnorm.
    erewrite get_vec_eq by apply lookup_insert_eq. mnorm.
    erewrite set_size_eq by apply lookup_insert_eq. mnorm.
    rewrite insert_insert_eq.
    split.
    + eapply (is_vector_block _ _ [arg_value a] 1 b'); cbn [vecs heap length];
        [lia|lia|apply lookup_insert_eq|apply lookup_insert_eq].
    + eexists. cbn [vecs]. split; [apply lookup_insert_eq|]. split; [done|].
      by erewrite cell_at_block by apply lookup_insert_eq.
  - (* a full block *)
    assert (v = mkVector (mkRawMemory (Ptr (Some b) 0) cap) (length l)) as -> by congruence.
    subst cap. rewrite Nat.sub_diag, app_nil_r in Hb. cbn [replicate] in Hb.
    replace (Nat.max 1 (2 * length l)) with (length l * 2) by lia.
    set (c' := length l * 2).
    set (x := arg_value a).
    unfold Emplace, bind, on_unwind, begin, end_, Capacity, RawMemory_Capacity, GetAddress,
      RawMemory_dtor, ret.
    rewrite (get_vec_eq _ _ _ _ _ _ _ Hv). pnorm.
    rewrite !ptr_le_same by lia. unfold assert_ at 1. cbn [andb].
    rewrite ptr_diff_same by lia. unfold lift_option. rewrite Nat.sub_0_r.
    rewrite Nat.eqb_refl.
    destruct (Nat.eqb_spec (length l) 0) as [?|_]; [lia|].
    fold c'. rewrite RawMemory_ctor_spec by (unfold c'; lia).
    destruct (new_throws k c') eqn:Halloc; mnorm.
    { split; [raised|]. intros _. split; [|done].
      eapply is_vector_block; [| |exact Hv|]; cbn [heap]; [lia|lia|].
      by rewrite Nat.sub_diag, app_nil_r. }
    set (b' := fresh (dom h)).
    assert (h !! b' = None) as Hfresh by apply fresh_block.
    assert (b ≠ b') as Hne by (intros ->; congruence).
    assert (is_vector (mkWorld h r vs k lk) this l (length l)) as Hsame.
    { eapply is_vector_block; [| |exact Hv|]; cbn [heap]; [lia|lia|].
      by rewrite Nat.sub_diag, app_nil_r. }
    assert (∀ k' lk', is_vector (mkWorld h r vs k' lk') this l (length l)) as Hkeep.
    { intros k' lk'. by eapply (is_vector_same (mkWorld h r vs k lk)). }
    assert (replicate c' (@Raw T)
            = replicate d Raw ++ Raw :: replicate (length l - d) Raw
                ++ replicate (length l - 1) Raw) as Hsplit.
    { rewrite <- replicate_add, <- replicate_S, <- replicate_add. f_equal. unfold c'. lia. }
    rewrite Hsplit.
    rewrite RawMemory_plus_ok by (cbn; unfold c'; lia). pnorm.
    erewrite (construct_at_raw _ _ _ _ _ b' d _ a);
      [|apply lookup_insert_eq|by apply lookup_middle; rewrite length_replicate].
    destruct (construct_raises (S k) a) eqn:Hctor; mnorm.
    { erewrite Deallocate_block by apply lookup_insert_eq.
      rewrite delete_insert_id by done.
      split; [raised|]. intros _. split; [apply Hkeep|done]. }
    rewrite insert_insert_eq, insert_middle by (by rewrite length_replicate).
    fold x.
    rewrite <- (take_drop d l) in Hb. rewrite fmap_app in Hb.
    assert (length (take d l) = d) as Htake by (by rewrite length_take_le).
    assert (length (drop d l) = length l - d) as Hdrop by apply length_drop.
    assert (∀ h' vs' k' lk',
              vs' !! this = Some (mkVector (mkRawMemory (Ptr (Some b') 0) c') (S (length l))) →
              h' !! b' = Some ((Live <$> take d l) ++ Live x :: (Live <$> drop d l)
                               ++ replicate (length l - 1) Raw) →
              is_vector (mkWorld h' r vs' k' lk') this (take d l ++ x :: drop d l) c' ∧
              points_to (mkWorld h' r vs' k' lk') this (Ptr (Some b') d) d x) as Hdone.
    { intros h' vs' k' lk' Hvs' Hh'.
      assert (length (take d l ++ x :: drop d l) = S (length l)) as Hlen'.
      { rewrite length_app. cbn [length]. lia. }
      split.
      - eapply (is_vector_block _ _ _ c' b'); cbn [vecs heap]; [unfold c'; lia| | |].
        + rewrite Hlen'. unfold c'. lia.
        + by rewrite Hlen'.
        + rewrite Hh', Hlen', fmap_app, fmap_cons, <- app_assoc. cbn [app].
          replace (c' - S (length l)) with (length l - 1) by (unfold c'; lia). done.
      - eexists. cbn [vecs]. split; [exact Hvs'|]. split; [done|].
        erewrite cell_at_block by exact Hh'.
        apply lookup_middle. by rewrite length_fmap. }
    destruct relocates_by_move eqn:Hreloc; cbn beta iota.
    + (* relocation by move *)
      erewrite (uninitialized_move_n_cells (take d l) d _ _ _ _ _ b b' []
                  (Live <$> drop d l) []
                  (Live x :: replicate (length l - d) Raw ++ replicate (length l - 1) Raw));
        [|done|done|done|done|by rewrite lookup_insert_ne|apply lookup_insert_eq].
      cbn [app].
      destruct (first_failure move_ctor_raises (S (S k)) (take d l)) as [j|] eqn:Hfail1; mnorm.
      { erewrite Deallocate_block by (by rewrite lookup_insert_ne, lookup_insert_eq).
        split; [raised|]. intros Hstrong.
        destruct (is_nothrow_move_constructible) eqn:Hnt.
        - by rewrite move_never_raises in Hfail1.
        - unfold relocates_by_move in Hreloc. rewrite Hnt in Hreloc.
          cbn in Hstrong, Hreloc. by rewrite Hstrong in Hreloc. }
      rewrite insert_insert_eq.
      erewrite (uninitialized_move_n_cells (drop d l) (length l - d) _ _ _ _ _ b b'
                  (Live <$> (moved_from <$> take d l)) []
                  ((Live <$> take d l) ++ [Live x]) (replicate (length l - 1) Raw));
        [|done|by rewrite !length_fmap|by rewrite length_app, length_fmap; cbn [length]; lia
         |done| |].
      2:{ by rewrite lookup_insert_eq, app_nil_r. }
      2:{ rewrite lookup_insert_ne, lookup_insert_eq, <- app_assoc by done. done. }
      destruct (first_failure move_ctor_raises (S (S k) + d) (drop d l)) as [j|] eqn:Hfail2;
        mnorm.
      { erewrite Deallocate_block
          by (by rewrite lookup_insert_ne, lookup_insert_ne, lookup_insert_eq).
        split; [raised|]. intros Hstrong.
        destruct (is_nothrow_move_constructible) eqn:Hnt.
        - by rewrite move_never_raises in Hfail2.
        - unfold relocates_by_move in Hreloc. rewrite Hnt in Hreloc.
          cbn in Hstrong, Hreloc. by rewrite Hstrong in Hreloc. }
      erewrite (destroy_n_cells (moved_from <$> l) _ _ _ _ _ _ b [] []);
        [|done|by rewrite length_fmap|].
      2:{ rewrite lookup_insert_eq, !app_nil_r, <- fmap_app, <- fmap_app, take_drop. done. }
      mnorm. cbn [RawMemory_Swap]. mnorm.
      rewrite (set_data_eq _ _ _ _ _ _ _ _ Hv). mnorm.
      erewrite Deallocate_block by apply lookup_insert_eq. mnorm.
      erewrite get_vec_eq by apply lookup_insert_eq. mnorm.
      erewrite set_size_eq by apply lookup_insert_eq. mnorm.
      rewrite insert_insert_eq. apply Hdone.
      * by rewrite lookup_insert_eq, Nat.add_1_r.
      * rewrite lookup_delete_ne, !lookup_insert_ne, lookup_insert_eq by done.
        by rewrite <- !app_assoc.
    + (* relocation by copy *)
      erewrite (uninitialized_copy_n_cells (take d l) d _ _ _ _ _ b b' []
                  (Live <$> drop d l) []
                  (Live x :: replicate (length l - d) Raw ++ replicate (length l - 1) Raw));
        [|done|done|done|done|by rewrite lookup_insert_ne|apply lookup_insert_eq].
      cbn [app].
      destruct (first_failure copy_ctor_throws (S (S k)) (take d l)) as [j|] eqn:Hfail1; mnorm.
      { cbn [destroy_n]. unfold bind, ret.
        erewrite destroy_at_live;
          [|apply lookup_insert_eq|by apply lookup_middle; rewrite length_replicate].
        erewrite Deallocate_block by apply lookup_insert_eq.
        rewrite !delete_insert_eq, delete_id by done.
        split; [raised|]. intros _. split; [apply Hkeep|done]. }
      rewrite insert_insert_eq.
      erewrite (uninitialized_copy_n_cells (drop d l) (length l - d) _ _ _ _ _ b b'
                  (Live <$> take d l) []
                  ((Live <$> take d l) ++ [Live x]) (replicate (length l - 1) Raw));
        [|done|by rewrite !length_fmap|by rewrite length_app, length_fmap; cbn [length]; lia
         |done| |].
      2:{ by rewrite lookup_insert_ne, app_nil_r. }
      2:{ rewrite lookup_insert_eq, <- app_assoc. done. }
      destruct (first_failure copy_ctor_throws (S (S k) + d) (drop d l)) as [j|] eqn:Hfail2;
        mnorm.
      { cbn [destroy_n]. unfold bind, ret.
        erewrite destroy_at_live;
          [|apply lookup_insert_eq|by apply lookup_middle; rewrite length_fmap].
        erewrite Deallocate_block by apply lookup_insert_eq.
        rewrite !delete_insert_eq, delete_id by done.
        split; [raised|]. intros _. split; [apply Hkeep|done]. }
      erewrite (destroy_n_cells l _ _ _ _ _ _ b [] []); [|done|done|].
      2:{ rewrite !lookup_insert_ne, app_nil_r by done. cbn [app].
          by rewrite Hb, <- fmap_app, take_drop. }
      mnorm. cbn [RawMemory_Swap]. mnorm.
      rewrite (set_data_eq _ _ _ _ _ _ _ _ Hv). mnorm.
      erewrite Deallocate_block by apply lookup_insert_eq. mnorm.
      erewrite get_vec_eq by apply lookup_insert_eq. mnorm.
      erewrite set_size_eq by apply lookup_insert_eq. mnorm.
      rewrite insert_insert_eq. apply Hdone.
      * by rewrite lookup_insert_eq, Nat.add_1_r.
      * rewrite lookup_delete_ne, !lookup_insert_ne, lookup_insert_eq by done.
        by rewrite <- !app_assoc.
Qed.

(** [Emplace] into an empty vector that has a buffer. *)
Lemma Emplace_in_place_empty w this cap v a :
  is_vector w this [] cap → vecs w !! this = Some v → 0 < cap →
  match Emplace this (begin v +ₚ 0) a w with
  | (Ok p, w') => is_vector w' this [arg_value a] cap ∧ points_to w' this p 0 (arg_value a)
  | (Throw _, w') =>
      ¬ nothing_raises ∧ is_vector w' this [] cap ∧ heap w' = heap w ∧ vecs w' = vecs w
  | _ => False
  end.
Proof.
  intros Hvec Hv Hcap. destruct w as [h r vs k lk].
  destruct (is_vector_inv _ _ _ _ Hvec) as [(-> & _)|(b & _ & Hlen & Hv' & Hb)]; [lia|].
  cbn [vecs heap length] in *.
  assert (v = mkVector (mkRawMemory (Ptr (Some b) 0) cap) 0) as -> by congruence.
  cbn [fmap list_fmap app] in Hb. rewrite Nat.sub_0_r in Hb.
  unfold Emplace, bind, on_unwind, begin, end_, Capacity, RawMemory_Capacity, GetAddress, ret.
  rewrite (get_vec_eq _ _ _ _ _ _ _ Hv). pnorm.
  rewrite !ptr_le_same by lia. unfold assert_ at 1. cbn [andb].
  rewrite ptr_diff_same by lia. unfold lift_option. cbn [Nat.sub].
  destruct (Nat.eqb_spec 0 cap) as [?|_]; [lia|]. cbn [Nat.eqb negb].
  rewrite RawMemory_plus_ok by (cbn; lia). pnorm.
  assert (replicate cap (@Raw T) = Raw :: replicate (cap - 1) Raw) as Hsplit.
  { rewrite <- replicate_S. f_equal. lia. }
  rewrite Hsplit in Hb.
  erewrite (construct_at_raw _ _ _ _ _ b 0 _ a); [|exact Hb|done].
  destruct (construct_raises k a) eqn:Hctor.
  { split; [raised|]. split; [|done].
    eapply (is_vector_block _ _ [] cap b); cbn [vecs heap length]; [lia|lia|done|].
    by rewrite Hb, Nat.sub_0_r, Hsplit. }
  cbn [insert list_insert].
  rewrite (get_vec_eq _ _ _ _ _ _ _ Hv). mnorm.
  rewrite (set_size_eq _ _ _ _ _ _ _ _ Hv). mnorm.
  split.
  - eapply (is_vector_block _ _ [arg_value a] cap b); cbn [vecs heap length];
      [lia|lia|apply lookup_insert_eq|apply lookup_insert_eq].
  - eexists. cbn [vecs]. split; [apply lookup_insert_eq|]. split; [done|].
    by erewrite cell_at_block by apply lookup_insert_eq.
Qed.

(** [Emplace] for a type whose move leaves its source as it was (an [int],
    any trivially copyable type): the specified result, on either path. *)
Lemma Emplace_spec_when_moves_copy w this l cap v d a :
  (∀ x, moved_from x = x) →
  is_vector w this l cap → vecs w !! this = Some v → d ≤ length l →
  match Emplace this (begin v +ₚ d) a w with
  | (Ok p, w') =>
      is_vector w' this (take d l ++ arg_value a :: drop d l) (grown (length l) cap) ∧
      points_to w' this p d (arg_value a)
  | (Throw _, w') => ¬ nothing_raises
  | _ => False
  end.
Proof.
  intros Hmf Hvec Hv Hd. unfold grown.
  assert (length l ≤ cap) as Hle.
  { destruct (is_vector_inv _ _ _ _ Hvec) as [(-> & -> & _)|(b & _ & Hlen & _)]; [done|lia]. }
  destruct (Nat.eqb_spec (length l) cap) as [Hfull|Hroom].
  - pose proof (Emplace_realloc_spec w this l cap v d a Hvec Hv Hfull Hd) as Hspec.
    destruct (Emplace this (begin v +ₚ d) a w) as [[p|e| |] w']; try done.
    by destruct Hspec.
  - destruct l as [|y l] using rev_ind.
    + assert (d = 0) as -> by (cbn in Hd; lia).
      pose proof (Emplace_in_place_empty w this cap v a Hvec Hv ltac:(cbn in *; lia)) as Hspec.
      destruct (Emplace this (begin v +ₚ 0) a w) as [[p|e| |] w']; try done.
      by destruct Hspec.
    + clear IHl.
      pose proof (Emplace_in_place_spec w this l y cap v d a Hvec Hv ltac:(lia) Hd) as Hspec.
      rewrite Hmf in Hspec.
      destruct (Emplace this (begin v +ₚ d) a w) as [[p|e| |] w']; try done.
      * by destruct Hspec as (_ & ? & ?).
      * by destruct Hspec.
Qed.

End EmplaceRealloc.

(** * The properties of the specification *)

(** ** Generic statements *)

Section Claims.
Context {T : Type} {E : ElemType T} {A : Allocator}.
Implicit Types (w : @world T) (l : list T).

Lemma erased_length l d : d < length l → length (take d l ++ drop (S d) l) = length l - 1.
Proof. intros Hd. rewrite length_app, length_take_le, length_drop by lia. lia. Qed.

Lemma erased_before l d i : i < d → (take d l ++ drop (S d) l) !! i = l !! i.
Proof.
  intros Hi. destruct (decide (d ≤ length l)).
  - rewrite lookup_app_l by (rewrite length_take_le by lia; lia).
    by rewrite lookup_take_lt.
  - rewrite take_ge, drop_ge, app_nil_r by lia. done.
Qed.

Lemma erased_after l d i : d < length l → d ≤ i → (take d l ++ drop (S d) l) !! i = l !! S i.
Proof.
  intros Hd Hi. rewrite lookup_app_r by (rewrite length_take_le by lia; lia).
  rewrite length_take_le, lookup_drop by lia. f_equal. lia.
Qed.

Lemma Erase_spec w this l cap v d :
  is_vector w this l cap → vecs w !! this = Some v → d < length l →
  match Erase this (begin v +ₚ d) w with
  | (Ok p, w') =>
      is_vector w' this (take d l ++ drop (S d) l) cap ∧
      p = begin v +ₚ d ∧
      match l !! S d with
      | Some y => cell_at w' p = Some (Live y)
      | None => ∃ v', vecs w' !! this = Some v' ∧ p = end_ v'
      end
  | (Throw _, _) => first_failure move_assign_throws (clock w) (drop (S d) l) ≠ None
  | _ => False
  end.
Proof.
  intros Hvec Hv Hd. destruct w as [h r vs k lk].
  destruct (is_vector_inv _ _ _ _ Hvec) as [(_ & -> & _)|(b & Hcap & Hlen & Hv' & Hb)];
    [cbn in Hd; lia|].
  cbn [vecs heap clock] in *.
  assert (v = mkVector (mkRawMemory (Ptr (Some b) 0) cap) (length l)) as -> by congruence.
  destruct (lookup_lt_is_Some_2 l d Hd) as [x Hx].
  unfold begin, GetAddress. pnorm.
  rewrite (Erase_block h r vs k lk this l cap b d x Hv Hb Hx).
  destruct (first_failure move_assign_throws k (drop (S d) l)) as [n|]; [done|].
  assert (length (take d l ++ drop (S d) l) = length l - 1) as Hlen' by (by apply erased_length).
  assert (<[b := (Live <$> take d l ++ drop (S d) l) ++ replicate (S (cap - length l)) Raw]> h
            !! b = Some ((Live <$> take d l ++ drop (S d) l)
                         ++ replicate (cap - length (take d l ++ drop (S d) l)) Raw)) as Hnew.
  { rewrite lookup_insert_eq, Hlen'. do 3 f_equal. lia. }
  split; [|split; [done|]].
  - eapply (is_vector_block _ _ _ cap b); cbn [vecs heap]; [done|lia| |exact Hnew].
    by rewrite lookup_insert_eq, Hlen'.
  - destruct (l !! S d) as [y|] eqn:Hy.
    + erewrite cell_at_block by exact Hnew.
      apply lookup_app_l_Some. rewrite list_lookup_fmap, erased_after, Hy by lia. done.
    + eexists. cbn [vecs]. split; [apply lookup_insert_eq|].
      unfold end_, GetAddress. pnorm. f_equal.
      apply lookup_ge_None in Hy. lia.
Qed.

End Claims.

Section MoreClaims.
Context {T : Type} {E : ElemType T} {A : Allocator}.
Implicit Types (w : @world T) (l : list T).

Lemma push_spec w this l cap a :
  is_vector w this l cap →
  match (EmplaceBack this a ;; ret tt) w with
  | (Ok _, w') =>
      is_vector w' this (l ++ [arg_value a])
        (if length l =? cap then Nat.max 1 (2 * cap) else cap)
  | (Throw _, w') => ¬ nothing_raises
  | _ => False
  end.
Proof.
  intros Hvec. pose proof (EmplaceBack_spec w this l cap a Hvec) as Hspec.
  rewrite bind_unfold.
  destruct (EmplaceBack this a w) as [[p|e| |] w']; try done; by destruct Hspec.
Qed.

(** [operator=(RawMemory&&)] between two objects, of which the destination
    owns a block: the source ends with capacity 0 and the pointer to the
    block that the destination has released. *)
Lemma RawMemory_move_assign_spec (h : gmap nat (list (cell T))) r vs k lk
    this other b c cs m :
  this ≠ other →
  r !! this = Some (mkRawMemory (Ptr (Some b) 0) c) → r !! other = Some m →
  h !! b = Some cs →
  RawMemory_move_assign this other (mkWorld h r vs k lk)
  = (Ok tt, mkWorld (delete b h)
              (<[other := mkRawMemory (Ptr (Some b) 0) 0]> (<[this := m]> r))
              vs k (lk ++ live_values cs)).
Proof.
  intros Hne Hthis Hother Hb. unfold RawMemory_move_assign, bind.
  rewrite bool_decide_eq_true_2 by done.
  unfold get_raw at 1. mnorm. rewrite Hthis. mnorm.
  rewrite (Deallocate_block _ _ _ _ _ _ _ Hb).
  unfold set_raw at 1. mnorm.
  unfold get_raw at 1. mnorm. rewrite lookup_insert_eq.
  unfold get_raw at 1. mnorm. rewrite lookup_insert_ne, Hother by done.
  cbn [RawMemory_Swap]. mnorm. unfold set_raw. mnorm.
  rewrite insert_insert_eq. by destruct m.
Qed.

Lemma get_raw_eq (h : gmap nat (list (cell T))) r vs k lk a m :
  r !! a = Some m →
  get_raw a (mkWorld h r vs k lk) = (Ok m, mkWorld h r vs k lk).
Proof. intros Hm. unfold get_raw. cbn [raws]. by rewrite Hm. Qed.

Lemma set_raw_eq (h : gmap nat (list (cell T))) r vs k lk a m :
  set_raw a m (mkWorld h r vs k lk) = (Ok tt, mkWorld h (<[a := m]> r) vs k lk).
Proof. reflexivity. Qed.

(** [RawMemory(RawMemory&&)] hands the buffer over and leaves the source
    with no buffer and no capacity. *)
Lemma RawMemory_move_ctor_spec (h : gmap nat (list (cell T))) r vs k lk this other m :
  this ≠ other → r !! other = Some m →
  RawMemory_move_ctor this other (mkWorld h r vs k lk)
  = (Ok tt, mkWorld h (<[other := mkRawMemory nullptr 0]> (<[this := m]> r)) vs k lk).
Proof.
  intros Hne Hm. unfold RawMemory_move_ctor, bind.
  rewrite (get_raw_eq _ _ _ _ _ _ _ Hm), set_raw_eq.
  erewrite get_raw_eq by (by rewrite lookup_insert_ne).
  rewrite set_raw_eq.
  erewrite get_raw_eq by apply lookup_insert_eq.
  rewrite set_raw_eq. mnorm. rewrite !insert_insert_eq.
  by destruct m.
Qed.

(** [Erase] at [end()]: the assertion holds, the distance is [size_], and
    the range handed to [std::move] starts one past [end()]. *)
Lemma Erase_at_end w this v :
  vecs w !! this = Some v →
  Erase_assertion v (cend v) = true ∧
  ptr_diff (cend v) (cbegin v) = Some (size_ v) ∧
  ptr_diff (end_ v) (begin v +ₚ size_ v +ₚ 1) = None ∧
  Erase this (cend v) w = (Undefined, w).
Proof.
  intros Hv. destruct w as [h r vs k lk]. cbn [vecs] in Hv.
  destruct v as [[[ob o] c] s].
  assert (Erase_assertion (mkVector (mkRawMemory (Ptr ob o) c) s)
            (cend (mkVector (mkRawMemory (Ptr ob o) c) s)) = true) as Hassert.
  { unfold Erase_assertion, cbegin, cend, GetAddress. pnorm.
    by rewrite !ptr_le_same by lia. }
  assert (ptr_diff (cend (mkVector (mkRawMemory (Ptr ob o) c) s))
            (cbegin (mkVector (mkRawMemory (Ptr ob o) c) s)) = Some s) as Hdist.
  { unfold cbegin, cend, GetAddress. mnorm. apply ptr_diff_padd. }
  assert (ptr_diff (end_ (mkVector (mkRawMemory (Ptr ob o) c) s))
            (begin (mkVector (mkRawMemory (Ptr ob o) c) s) +ₚ s +ₚ 1) = None) as Hpast.
  { unfold begin, end_, GetAddress. pnorm. apply ptr_diff_past. lia. }
  repeat split; try done.
  unfold Erase, std_move, bind. rewrite (get_vec_eq _ _ _ _ _ _ _ Hv).
  rewrite Hassert. unfold assert_. rewrite Hdist. unfold lift_option at 1.
  by rewrite Hpast.
Qed.

Lemma Vector_copy_assign_refines w this other v o :
  this ≠ other → vecs w !! this = Some v → vecs w !! other = Some o →
  Vector_copy_assign this other w
  = if Capacity v <? size_ o then copy_and_swap this other w
    else copy_assign_in_place this other w.
Proof.
  intros Hne Hv Ho. destruct w as [h r vs k lk]. cbn [vecs] in Hv, Ho.
  unfold Vector_copy_assign, copy_assign_in_place, copy_and_swap.
  rewrite !(bind_eq _ _ _ _ _ (get_vec_eq _ _ _ _ _ _ _ Ho)).
  rewrite bool_decide_eq_true_2 by done.
  rewrite !(bind_eq _ _ _ _ _ (get_vec_eq _ _ _ _ _ _ _ Hv)).
  unfold Size, begin. destruct (Capacity v <? size_ o); [done|].
  destruct (Nat.ltb_spec (size_ o) (size_ v)) as [Hlt|Hge].
  - by rewrite bind_assoc, Nat.min_r by lia.
  - rewrite bind_assoc, Nat.min_l by lia.
    destruct (Nat.ltb_spec (size_ v) (size_ o)) as [Hlt|Hge']; [done|].
    by replace (size_ o - size_ v) with 0 by lia.
Qed.

End MoreClaims.

(** ** The claims *)

(** C4. A successful [push_back(x)] (of an lvalue or of an rvalue) on the
    sequence [l] with capacity [cap] leaves the sequence [l ++ [x]]: one
    element more, [x] last, the earlier elements as they were; the capacity
    becomes [max(1, 2 * cap)] when [size == capacity] and stays otherwise.
    From a default-constructed vector, ten calls [push_back(i)], [i = 0..9],
    give the capacities 0, 1, 2, 4, 4, 8, 8, 8, 8, 16, 16, size 10 and
    [s[i] == i]. *)
Theorem C4_push_back_growth {T : Type} {E : ElemType T} {A : Allocator}
    (w : @world T) (this : nat) (l : list T) (cap : nat) (x : T) :
  is_vector w this l cap →
  (match PushBack this x w with
   | (Ok _, w') =>
       is_vector w' this (l ++ [x]) (if length l =? cap then Nat.max 1 (2 * cap) else cap)
   | (Throw _, _) => ¬ nothing_raises
   | _ => False
   end) ∧
  (match PushBack_rvalue this x w with
   | (Ok _, w') =>
       is_vector w' this (l ++ [x]) (if length l =? cap then Nat.max 1 (2 * cap) else cap)
   | (Throw _, _) => ¬ nothing_raises
   | _ => False
   end) ∧
  (length (l ++ [x]) = length l + 1 ∧ last (l ++ [x]) = Some x ∧
   ∀ i, i < length l → (l ++ [x]) !! i = l !! i) ∧
  (snd (growth_schedule 10)
   = [Some 0; Some 1; Some 2; Some 4; Some 4; Some 8; Some 8; Some 8; Some 8;
      Some 16; Some 16] ∧
   size_of (fst (growth_schedule 10)) 0 = Some 10 ∧
   ∀ i, i < 10 → fst (read_index 0 i (fst (growth_schedule 10))) = Ok i).
Proof.
  intros Hvec. split; [|split; [|split]].
  - exact (push_spec w this l cap (ByCopy x) Hvec).
  - exact (push_spec w this l cap (ByMove x) Hvec).
  - split; [by rewrite length_app|]. split; [apply last_snoc|].
    intros i Hi. by apply lookup_app_l.
  - split; [by vm_compute|]. split; [by vm_compute|].
    intros i Hi.
    do 10 (destruct i as [|i]; [by vm_compute|]). lia.
Qed.

Lemma C4_push_back_growth_witness :
  is_vector (vector_world [Live 1; Raw] 1) 0 [1] 2 ∧
  match PushBack (E:=int_elem) (A:=plenty) 0 5 (vector_world [Live 1; Raw] 1) with
  | (Ok _, w') => is_vector w' 0 [1; 5] 2
  | (Throw _, _) => ¬ nothing_raises (E:=int_elem) (A:=plenty)
  | _ => False
  end.
Proof.
  assert (is_vector (vector_world [Live 1; Raw] 1) 0 [1] 2) as Hvec.
  { apply (is_vector_block _ 0 [1] 2 0); [lia|cbn; lia|reflexivity|reflexivity]. }
  split; [exact Hvec|].
  exact (proj1 (C4_push_back_growth (E:=int_elem) (A:=plenty) _ 0 [1] 2 5 Hvec)).
Defined.

(** C6. [erase(pos)] at offset [d < size] of the sequence [l], when it
    returns: the sequence is [l] without its element [d] (one element less,
    the prefix as it was, the elements after [d] one place to the left), the
    capacity is unchanged, and the pointer returned is [begin() + d], which
    holds the element formerly at [d + 1], or is [end()] when there is none.
    It raises only when a move assignment of the shift does. *)
Theorem C6_erase_shifts_left {T : Type} {E : ElemType T}
    (w : @world T) (this : nat) (l : list T) (cap : nat) (v : Vector) (d : nat) :
  is_vector w this l cap → vecs w !! this = Some v → d < length l →
  match Erase this (begin v +ₚ d) w with
  | (Ok p, w') =>
      is_vector w' this (take d l ++ drop (S d) l) cap ∧
      length (take d l ++ drop (S d) l) = length l - 1 ∧
      (∀ i, i < d → (take d l ++ drop (S d) l) !! i = l !! i) ∧
      (∀ i, d ≤ i → (take d l ++ drop (S d) l) !! i = l !! S i) ∧
      p = begin v +ₚ d ∧
      match l !! S d with
      | Some y => cell_at w' p = Some (Live y)
      | None => ∃ v', vecs w' !! this = Some v' ∧ p = end_ v'
      end
  | (Throw _, _) => first_failure move_assign_throws (clock w) (drop (S d) l) ≠ None
  | _ => False
  end.
Proof.
  intros Hvec Hv Hd. pose proof (Erase_spec w this l cap v d Hvec Hv Hd) as Hspec.
  destruct (Erase this (begin v +ₚ d) w) as [[p|e| |] w']; try done.
  destruct Hspec as (Hvec' & Hp & Hcell).
  split; [done|]. split; [by apply erased_length|].
  split; [intros i Hi; by apply erased_before|].
  split; [intros i Hi; by apply erased_after|]. done.
Qed.

Lemma C6_erase_shifts_left_witness :
  is_vector (vector_world [Live 10; Live 20; Live 30; Live 40; Live 50] 5) 0
    [10; 20; 30; 40; 50] 5 ∧
  match Erase (E:=int_elem) 0 (Ptr (Some 0) 2)
          (vector_world [Live 10; Live 20; Live 30; Live 40; Live 50] 5) with
  | (Ok p, w') =>
      is_vector w' 0 [10; 20; 40; 50] 5 ∧ p = Ptr (Some 0) 2 ∧
      cell_at w' p = Some (Live 40)
  | _ => False
  end.
Proof.
  assert (is_vector (vector_world [Live 10; Live 20; Live 30; Live 40; Live 50] 5) 0
            [10; 20; 30; 40; 50] 5) as Hvec.
  { apply (is_vector_block _ 0 _ 5 0); [lia|cbn; lia|reflexivity|reflexivity]. }
  split; [exact Hvec|].
  pose proof (C6_erase_shifts_left (E:=int_elem) _ 0 _ 5
                (mkVector (mkRawMemory (Ptr (Some 0) 0) 5) 5) 2 Hvec eq_refl
                ltac:(cbn; lia)) as Hspec.
  change (begin (mkVector (mkRawMemory (Ptr (Some 0) 0) 5) 5) +ₚ 2)
    with (Ptr (Some 0) 2) in Hspec.
  destruct (Erase (E:=int_elem) 0 (Ptr (Some 0) 2)
              (vector_world [Live 10; Live 20; Live 30; Live 40; Live 50] 5))
    as [[p|e| |] w'].
  - destruct Hspec as (Hvec' & _ & _ & _ & Hp & Hcell). repeat split; assumption.
  - apply Hspec. reflexivity.
  - exact Hspec.
  - exact Hspec.
Defined.

(** C7, as stated, fails: with a move-only [T] whose move constructor can
    raise, the relocation of [Reserve] moves, and a raising relocation
    leaves an element of the sequence moved from. *)
Lemma C7_reserve_counterexample :
  is_vector (vector_world [Live 1; Live 2] 2) 0 [1; 2] 2 ∧
  fst reserve_fragile = Throw element_failure ∧
  cells_of (snd reserve_fragile) 0 = Some [Live 0; Live 2] ∧
  ¬ is_vector (snd reserve_fragile) 0 [1; 2] 2.
Proof.
  split; [|split; [|split]].
  - apply (is_vector_block _ 0 [1; 2] 2 0); [lia|cbn; lia|reflexivity|reflexivity].
  - by vm_compute.
  - by vm_compute.
  - intros Hvec%is_vector_cells.
    assert (cells_of (snd reserve_fragile) 0 = Some [Live 0; Live 2]) as Hcells
      by (by vm_compute).
    rewrite Hcells in Hvec. discriminate Hvec.
Qed.

(** C7, amended. [reserve(n)] with [n <= capacity] changes nothing. With
    [n > capacity] and [n * sizeof(T)] in the range of [size_t], when it
    returns the sequence holds the same elements in the same order in a
    buffer of capacity exactly [n], which is at least
    [max(n, old capacity)]; when it raises and [T] is nothrow-move-
    constructible or copy-constructible, the sequence, its buffer and the
    heap are as before the call. *)
Theorem C7_reserve {T : Type} {E : ElemType T} {A : Allocator} {Sz : SizeOf T}
    (w : @world T) (this : nat) (l : list T) (cap n : nat) :
  is_vector w this l cap →
  (n ≤ cap → Reserve this n w = (Ok tt, w)) ∧
  (cap < n → fits_size_t n →
   match Reserve this n w with
   | (Ok _, w') => is_vector w' this l n ∧ Nat.max n cap ≤ n
   | (Throw _, w') =>
       ¬ nothing_raises ∧
       (is_nothrow_move_constructible || is_copy_constructible = true →
        is_vector w' this l cap ∧ heap w' = heap w ∧ vecs w' = vecs w)
   | _ => False
   end).
Proof.
  intros Hvec. split.
  - intros Hn. by eapply Reserve_noop.
  - intros Hn _. pose proof (Reserve_grow w this l cap n Hvec Hn) as Hspec.
    destruct (Reserve this n w) as [[[]|e| |] w']; try done.
    split; [done|lia].
Qed.

Lemma C7_reserve_witness :
  is_vector (vector_world [Live 1; Live 2] 2) 0 [1; 2] 2 ∧
  2 ≤ 2 ∧ 2 < 4 ∧ fits_size_t (Sz:=int_size) 4 ∧
  Reserve (E:=throwing_copy 2) (A:=plenty) 0 2 (vector_world [Live 1; Live 2] 2)
  = (Ok tt, vector_world [Live 1; Live 2] 2) ∧
  match Reserve (E:=throwing_copy 2) (A:=plenty) 0 4 (vector_world [Live 1; Live 2] 2) with
  | (Ok _, w') => is_vector w' 0 [1; 2] 4 ∧ Nat.max 4 2 ≤ 4
  | (Throw _, w') =>
      ¬ nothing_raises (E:=throwing_copy 2) (A:=plenty) ∧
      (false || true = true →
       is_vector w' 0 [1; 2] 2 ∧
       heap w' = heap (vector_world [Live 1; Live 2] 2) ∧
       vecs w' = vecs (vector_world [Live 1; Live 2] 2))
  | _ => False
  end.
Proof.
  assert (is_vector (vector_world [Live 1; Live 2] 2) 0 [1; 2] 2) as Hvec.
  { apply (is_vector_block _ 0 [1; 2] 2 0); [lia|cbn; lia|reflexivity|reflexivity]. }
  assert (2 ≤ 2) as Hle by lia. assert (2 < 4) as Hlt by lia.
  assert (fits_size_t (Sz:=int_size) 4) as Hfits by (by vm_compute).
  split; [exact Hvec|]. split; [exact Hle|]. split; [exact Hlt|]. split; [exact Hfits|].
  split.
  - exact (proj1 (C7_reserve (E:=throwing_copy 2) (A:=plenty) (Sz:=int_size)
                    _ 0 [1; 2] 2 2 Hvec) Hle).
  - exact (proj2 (C7_reserve (E:=throwing_copy 2) (A:=plenty) (Sz:=int_size)
                    _ 0 [1; 2] 2 4 Hvec) Hlt Hfits).
Defined.

(** C8. Copy assignment between two vectors: when the size of the source
    exceeds the capacity of the target, the code is copy-and-swap, and a
    raise leaves target, source and heap as they were; otherwise the code is
    the in-place assignment of the specification (copy-assign the first
    [min(size, src.size)] cells, destroy the tail or copy-construct into the
    raw cells, set the size) and the capacity is unchanged. When copy
    assignment returns the target holds the elements of the source, which is
    unchanged. Copy or move assignment of a vector to itself changes
    nothing. *)
Theorem C8_copy_assignment {T : Type} {E : ElemType T} {A : Allocator}
    (w : @world T) (this other : nat) (l1 l2 : list T) (c1 c2 : nat) :
  this ≠ other →
  is_vector w this l1 c1 → is_vector w other l2 c2 → disjoint_buffers w this other →
  (match Vector_copy_assign this other w with
   | (Ok _, w') =>
       is_vector w' this l2 (if c1 <? length l2 then length l2 else c1) ∧
       is_vector w' other l2 c2
   | (Throw _, w') =>
       ¬ nothing_raises ∧
       (c1 < length l2 →
        is_vector w' this l1 c1 ∧ is_vector w' other l2 c2 ∧
        heap w' = heap w ∧ vecs w' = vecs w)
   | _ => False
   end) ∧
  Vector_copy_assign this other w
  = (if c1 <? length l2 then copy_and_swap this other w
     else copy_assign_in_place this other w) ∧
  Vector_copy_assign this this w = (Ok tt, w) ∧
  Vector_move_assign this this w = (Ok tt, w).
Proof.
  intros Hne Hvec1 Hvec2 Hdisj. split; [|split; [|split]].
  - destruct (Nat.ltb_spec c1 (length l2)) as [Hbig|Hfit].
    + pose proof (Vector_copy_assign_rebuild w this other l1 c1 l2 c2
                    Hne Hvec1 Hvec2 Hdisj Hbig) as Hspec.
      destruct (Vector_copy_assign this other w) as [[[]|e| |] w']; try done.
      destruct Hspec as (Hraised & Hh & Hv). split; [done|]. intros _.
      split; [by eapply is_vector_same|]. split; [by eapply is_vector_same|done].
    + pose proof (Vector_copy_assign_inplace w this other l1 c1 l2 c2
                    Hne Hvec1 Hvec2 Hdisj Hfit) as Hspec.
      destruct (Vector_copy_assign this other w) as [[[]|e| |] w']; try done.
      split; [done|]. intros ?. lia.
  - destruct Hvec1 as (v & Hv & _ & Hc & _), Hvec2 as (o & Ho & Hs & _).
    rewrite (Vector_copy_assign_refines w this other v o Hne Hv Ho).
    unfold Capacity, RawMemory_Capacity. by rewrite Hc, Hs.
  - by eapply Vector_copy_assign_self.
  - apply Vector_move_assign_self.
Qed.

Lemma C8_copy_assignment_witness :
  0 ≠ 1 ∧
  is_vector (two_vectors [Live 1; Live 2; Live 3] 3 [Live 7; Live 8; Raw] 2) 0 [1; 2; 3] 3 ∧
  is_vector (two_vectors [Live 1; Live 2; Live 3] 3 [Live 7; Live 8; Raw] 2) 1 [7; 8] 3 ∧
  disjoint_buffers (two_vectors [Live 1; Live 2; Live 3] 3 [Live 7; Live 8; Raw] 2) 0 1 ∧
  match Vector_copy_assign (E:=int_elem) (A:=plenty) 0 1
          (two_vectors [Live 1; Live 2; Live 3] 3 [Live 7; Live 8; Raw] 2) with
  | (Ok _, w') => is_vector w' 0 [7; 8] 3 ∧ is_vector w' 1 [7; 8] 3
  | (Throw _, w') =>
      ¬ nothing_raises (E:=int_elem) (A:=plenty) ∧
      (3 < 2 →
       is_vector w' 0 [1; 2; 3] 3 ∧ is_vector w' 1 [7; 8] 3 ∧
       heap w' = heap (two_vectors [Live 1; Live 2; Live 3] 3 [Live 7; Live 8; Raw] 2) ∧
       vecs w' = vecs (two_vectors [Live 1; Live 2; Live 3] 3 [Live 7; Live 8; Raw] 2))
  | _ => False
  end.
Proof.
  assert (is_vector (two_vectors [Live 1; Live 2; Live 3] 3 [Live 7; Live 8; Raw] 2)
            0 [1; 2; 3] 3) as Hvec1.
  { apply (is_vector_block _ 0 [1; 2; 3] 3 0); [lia|cbn; lia|reflexivity|reflexivity]. }
  assert (is_vector (two_vectors [Live 1; Live 2; Live 3] 3 [Live 7; Live 8; Raw] 2)
            1 [7; 8] 3) as Hvec2.
  { apply (is_vector_block _ 1 [7; 8] 3 1); [lia|cbn; lia|reflexivity|reflexivity]. }
  assert (disjoint_buffers
            (two_vectors [Live 1; Live 2; Live 3] 3 [Live 7; Live 8; Raw] 2) 0 1) as Hdisj.
  { intros va vb blk Ha Hb. vm_compute in Ha, Hb.
    injection Ha as <-. injection Hb as <-. cbn. congruence. }
  assert (0 ≠ 1) as Hne by lia.
  split; [exact Hne|]. split; [exact Hvec1|]. split; [exact Hvec2|]. split; [exact Hdisj|].
  exact (proj1 (C8_copy_assignment (E:=int_elem) (A:=plenty) _ 0 1 _ _ 3 3
                  Hne Hvec1 Hvec2 Hdisj)).
Defined.

(** C9. Move construction [Vector b(std::move(a))] returns, [b] holds the
    former elements of [a] in order, in the buffer that was [a]'s, and [a] is
    left empty with size 0 and capacity 0. *)
Theorem C9_move_construction {T : Type}
    (w : @world T) (a b : nat) (l : list T) (cap : nat) :
  b ≠ a → is_vector w a l cap →
  ∃ w', Vector_move_ctor b a w = (Ok tt, w') ∧
        is_vector w' b l cap ∧ is_vector w' a [] 0 ∧
        size_of w' a = Some 0 ∧ capacity_of w' a = Some 0 ∧
        heap w' = heap w.
Proof.
  intros Hne Hvec.
  destruct (Vector_move_ctor_spec w b a l cap Hne Hvec) as (w' & Hrun & Hb & Ha & Hheap).
  exists w'. repeat split; try done.
  - by apply is_vector_size in Ha.
  - by apply is_vector_capacity in Ha.
Qed.

Lemma C9_move_construction_witness :
  1 ≠ 0 ∧
  is_vector (vector_world [Live 1; Live 2; Live 3] 3) 0 [1; 2; 3] 3 ∧
  ∃ w', Vector_move_ctor 1 0 (vector_world [Live 1; Live 2; Live 3] 3) = (Ok tt, w') ∧
        is_vector w' 1 [1; 2; 3] 3 ∧ is_vector w' 0 [] 0 ∧
        size_of w' 0 = Some 0 ∧ capacity_of w' 0 = Some 0 ∧
        heap w' = heap (vector_world [Live 1; Live 2; Live 3] 3).
Proof.
  assert (is_vector (vector_world [Live 1; Live 2; Live 3] 3) 0 [1; 2; 3] 3) as Hvec.
  { apply (is_vector_block _ 0 [1; 2; 3] 3 0); [lia|cbn; lia|reflexivity|reflexivity]. }
  assert (1 ≠ 0) as Hne by lia.
  split; [exact Hne|]. split; [exact Hvec|].
  exact (C9_move_construction _ 0 1 [1; 2; 3] 3 Hne Hvec).
Defined.

(** C10. [Erase(end())]: the assertion [pos >= cbegin() && pos <= cend()]
    holds, so the call does not abort; the distance is [size_], and the
    range handed to [std::move] starts at [begin() + size_ + 1], one past
    [end()], which is no valid range: the behaviour is undefined. *)
Theorem C10_erase_at_end_passes_assertion {T : Type} {E : ElemType T}
    (w : @world T) (this : nat) (v : Vector) :
  vecs w !! this = Some v →
  Erase_assertion v (cend v) = true ∧
  fst (Erase this (cend v) w) ≠ Abort ∧
  ptr_diff (cend v) (cbegin v) = Some (size_ v) ∧
  offset (end_ v) < offset (begin v +ₚ size_ v +ₚ 1) ∧
  ptr_diff (end_ v) (begin v +ₚ size_ v +ₚ 1) = None ∧
  Erase this (cend v) w = (Undefined, w).
Proof.
  intros Hv. destruct (Erase_at_end w this v Hv) as (Hassert & Hdist & Hpast & Hrun).
  repeat split; try done.
  - by rewrite Hrun.
  - unfold end_, begin, padd. cbn [offset]. lia.
Qed.

Lemma C10_erase_at_end_passes_assertion_witness :
  vecs (vector_world [Live 1; Live 2; Raw] 2) !! 0
  = Some (mkVector (mkRawMemory (Ptr (Some 0) 0) 3) 2) ∧
  Erase_assertion (mkVector (mkRawMemory (Ptr (Some 0) 0) 3) 2) (Ptr (Some 0) 2) = true ∧
  Erase (E:=int_elem) 0 (Ptr (Some 0) 2) (vector_world [Live 1; Live 2; Raw] 2)
  = (Undefined, vector_world [Live 1; Live 2; Raw] 2).
Proof.
  assert (vecs (vector_world [Live 1; Live 2; Raw] 2) !! 0
          = Some (mkVector (mkRawMemory (Ptr (Some 0) 0) 3) 2)) as Hv by reflexivity.
  split; [exact Hv|].
  pose proof (C10_erase_at_end_passes_assertion (E:=int_elem) _ 0 _ Hv)
    as (Hassert & _ & _ & _ & _ & Hrun).
  split; [exact Hassert|exact Hrun].
Defined.

(** ** Runs on which the code departs from the specification *)

(** C1. In [EmplaceBack] the relocation is not guarded: when it raises, the
    copies it made are destroyed and the fresh buffer is released, the
    vector is as before the call, but the new element, constructed in the
    fresh buffer before the relocation, is never destroyed: its storage is
    released under it. *)
Theorem C1_failed_relocation_leaks_new_element :
  is_vector (vector_world [Live 10; Live 11] 2) 0 [10; 11] 2 ∧
  fst push_back_relocation_fails = Throw element_failure ∧
  is_vector (snd push_back_relocation_fails) 0 [10; 11] 2 ∧
  heap (snd push_back_relocation_fails) = heap (vector_world [Live 10; Live 11] 2) ∧
  vecs (snd push_back_relocation_fails) = vecs (vector_world [Live 10; Live 11] 2) ∧
  leaked (snd push_back_relocation_fails) = [20].
Proof.
  assert (is_vector (vector_world [Live 10; Live 11] 2) 0 [10; 11] 2) as Hvec.
  { apply (is_vector_block _ 0 [10; 11] 2 0); [lia|cbn; lia|reflexivity|reflexivity]. }
  assert (heap (snd push_back_relocation_fails) = heap (vector_world [Live 10; Live 11] 2))
    as Hheap by (by vm_compute).
  assert (vecs (snd push_back_relocation_fails) = vecs (vector_world [Live 10; Live 11] 2))
    as Hvecs by (by vm_compute).
  split; [exact Hvec|]. split; [by vm_compute|].
  split; [by eapply is_vector_same|].
  split; [exact Hheap|]. split; [exact Hvecs|]. by vm_compute.
Qed.

(** The failure of the tail shift is handled as specified: the extra cell
    is destroyed, the size is unchanged, the elements of the window are live
    and may be moved from. *)
Lemma Emplace_shift_failure_keeps_invariant :
  fst emplace_in_place_shift_fails = Throw element_failure ∧
  is_vector (snd emplace_in_place_shift_fails) 0 [7; 0] 3.
Proof.
  split; [by vm_compute|].
  apply (is_vector_block _ 0 [7; 0] 3 0); [lia|cbn; lia|by vm_compute|by vm_compute].
Qed.

(** C2. On the in-place path of [Emplace] the new element is constructed
    last, after the shift and after cell [d] has been destroyed, outside any
    handler: when its constructor raises, cell [d] is raw although
    [d < size], cell [size] is live, and no sequence is represented any
    more. *)
Theorem C2_in_place_ctor_failure_breaks_invariant :
  is_vector (vector_world [Live 7; Raw] 1) 0 [7] 2 ∧
  fst emplace_in_place_ctor_fails = Throw element_failure ∧
  size_of (snd emplace_in_place_ctor_fails) 0 = Some 1 ∧
  cells_of (snd emplace_in_place_ctor_fails) 0 = Some [Raw; Live 7] ∧
  ∀ l, ¬ is_vector (snd emplace_in_place_ctor_fails) 0 l 2.
Proof.
  assert (cells_of (snd emplace_in_place_ctor_fails) 0 = Some [Raw; Live 7]) as Hcells
    by (by vm_compute).
  split; [|split; [|split; [|split]]].
  - apply (is_vector_block _ 0 [7] 2 0); [lia|cbn; lia|reflexivity|reflexivity].
  - by vm_compute.
  - by vm_compute.
  - exact Hcells.
  - intros l Hvec. apply is_vector_cells in Hvec. rewrite Hcells in Hvec.
    destruct l as [|y l]; [|done].
    cbn in Hvec. discriminate Hvec.
Qed.

(** C3. Move assignment of [RawMemory] releases the buffer of the
    destination and sets its capacity to 0 but keeps the pointer, which the
    swap then hands to the source: the source is left with capacity 0 and a
    pointer to the released block, and its destructor releases that block
    again. Move construction does zero the source. *)
Theorem C3_move_assign_leaves_dangling_source :
  raws two_buffers !! 0 = Some (mkRawMemory (Ptr (Some 0) 0) 3) ∧
  raws two_buffers !! 1 = Some (mkRawMemory (Ptr (Some 1) 0) 5) ∧
  fst move_assign_buffers = Ok tt ∧
  raws (snd move_assign_buffers) !! 0 = Some (mkRawMemory (Ptr (Some 1) 0) 5) ∧
  raws (snd move_assign_buffers) !! 1 = Some (mkRawMemory (Ptr (Some 0) 0) 0) ∧
  heap (snd move_assign_buffers) !! 0 = None ∧
  ¬ RawMemory_inv (mkRawMemory (Ptr (Some 0) 0) 0) ∧
  fst (RawMemory_destroy 1 (snd move_assign_buffers)) = Undefined ∧
  raws (snd (RawMemory_move_ctor 2 1 two_buffers)) !! 1 = Some (mkRawMemory nullptr 0) ∧
  raws (snd (RawMemory_move_ctor 2 1 two_buffers)) !! 2
  = Some (mkRawMemory (Ptr (Some 1) 0) 5).
Proof.
  do 6 (split; [by vm_compute|]).
  split; [|by repeat split; vm_compute].
  intros [_ Hinv]. specialize (Hinv eq_refl). discriminate Hinv.
Qed.

Lemma Insert_middle_ints_result :
  fst insert_middle_ints = Ok (Ptr (Some 0) 2) ∧
  is_vector (snd insert_middle_ints) 0 [10; 20; 30; 40; 50] 8.
Proof.
  split; [by vm_compute|].
  apply (is_vector_block _ 0 [10; 20; 30; 40; 50] 8 0);
    [lia|cbn; lia|by vm_compute|by vm_compute].
Qed.

(** C5. On the in-place path [Emplace] move-constructs cell [size] from the
    last element and then shifts [[d, size)] (not [[d, size - 1)]) one step
    to the right, so that the moved-from last element is move-assigned over
    cell [size]: with a type whose move changes its source, a successful
    insertion loses the last element of the sequence. *)
Theorem C5_in_place_insert_loses_last_element :
  is_vector (vector_world [Live 11; Live 12; Raw; Raw] 2) 0 [11; 12] 4 ∧
  fst emplace_front_handles = Ok (Ptr (Some 0) 0) ∧
  is_vector (snd emplace_front_handles) 0 [99; 11; 0] 4 ∧
  ¬ is_vector (snd emplace_front_handles) 0 [99; 11; 12] 4.
Proof.
  assert (cells_of (snd emplace_front_handles) 0 = Some [Live 99; Live 11; Live 0; Raw])
    as Hcells by (by vm_compute).
  split; [|split; [|split]].
  - apply (is_vector_block _ 0 [11; 12] 4 0); [lia|cbn; lia|reflexivity|reflexivity].
  - by vm_compute.
  - apply (is_vector_block _ 0 [99; 11; 0] 4 0); [lia|cbn; lia|by vm_compute|by vm_compute].
  - intros Hvec%is_vector_cells. rewrite Hcells in Hvec. discriminate Hvec.
Qed.

(** * Further properties of the code *)

(** ** [PopBack], [operator[]], [Swap], move assignment *)

Section Access.
Context {T : Type} {E : ElemType T} {A : Allocator}.
Implicit Types (w : @world T) (l : list T).

Lemma cells_without_last l u cap :
  length (l ++ [u]) ≤ cap →
  <[length l := Raw]> ((Live <$> l ++ [u]) ++ replicate (cap - length (l ++ [u])) Raw)
  = (Live <$> l) ++ replicate (cap - length l) (@Raw T).
Proof.
  rewrite length_app. cbn [length]. intros Hcap.
  rewrite fmap_app, <- app_assoc. cbn [fmap list_fmap app].
  rewrite (insert_middle (Live <$> l)) by (by rewrite length_fmap).
  replace (cap - length l) with (S (cap - (length l + 1))) by lia. done.
Qed.

Lemma PopBack_spec w this l cap :
  is_vector w this l cap →
  ∃ w', PopBack this w = (Ok tt, w') ∧
        is_vector w' this (removelast l) cap ∧
        leaked w' = leaked w ∧ clock w' = clock w ∧
        (l = [] → w' = w).
Proof.
  intros Hvec. destruct w as [h r vs k lk].
  destruct (is_vector_inv _ _ _ _ Hvec) as [(-> & -> & Hv)|(b & Hcap & Hlen & Hv & Hb)];
    cbn [vecs heap] in *.
  - exists (mkWorld h r vs k lk). by rewrite (PopBack_empty _ _ _ _ _ _ _ Hv).
  - destruct l as [|x l0] using rev_ind.
    + exists (mkWorld h r vs k lk). by rewrite (PopBack_empty _ _ _ _ _ _ _ Hv).
    + clear IHl0. rewrite removelast_last.
      assert (length (l0 ++ [x]) = S (length l0)) as Hl by (rewrite length_app; cbn; lia).
      rewrite Hl in Hv.
      eexists. split.
      { eapply (PopBack_block _ _ _ _ _ _ _ _ _ _ x); [exact Hv|exact Hb|].
        rewrite lookup_app_l by (rewrite length_fmap, length_app; cbn; lia).
        rewrite list_lookup_fmap, lookup_app_r by lia.
        by rewrite Nat.sub_diag. }
      split; [|split; [done|split; [done|]]].
      * apply (is_vector_block _ this l0 cap b); [lia|lia| |]; cbn [vecs heap].
        -- by rewrite lookup_insert_eq.
        -- rewrite lookup_insert_eq. f_equal. apply cells_without_last. lia.
      * intros Hnil. by destruct l0.
Qed.

Lemma Vector_index_spec w this l cap v i :
  is_vector w this l cap → vecs w !! this = Some v →
  Vector_index this i w
  = if i <? length l then (Ok (begin v +ₚ i), w) else (Abort, w).
Proof.
  intros Hvec Hv. destruct w as [h r vs k lk]. cbn [vecs] in Hv.
  pose proof Hvec as (v' & Hv' & Hsize & Hcapv & _). cbn [vecs] in Hv'.
  assert (v' = v) as -> by congruence.
  destruct (is_vector_inv _ _ _ _ Hvec) as [(-> & -> & _)|(b & Hcap & Hlen & _ & _)].
  - unfold Vector_index, bind. rewrite (get_vec_eq _ _ _ _ _ _ _ Hv).
    rewrite Hsize. cbn [length]. by destruct i.
  - unfold Vector_index, RawMemory_index, bind.
    rewrite (get_vec_eq _ _ _ _ _ _ _ Hv), Hsize, Hcapv. unfold assert_.
    destruct (Nat.ltb_spec i (length l)) as [Hi|Hi]; [|done].
    by destruct (Nat.ltb_spec i cap) as [_|?]; [|lia].
Qed.

Lemma read_index_spec w this l cap i :
  is_vector w this l cap →
  read_index this i w
  = match l !! i with Some x => (Ok x, w) | None => (Abort, w) end.
Proof.
  intros Hvec. pose proof Hvec as (v & Hv & _).
  unfold read_index, bind. rewrite (Vector_index_spec w this l cap v i Hvec Hv).
  destruct (Nat.ltb_spec i (length l)) as [Hi|Hi].
  - destruct (lookup_lt_is_Some_2 l i Hi) as [x Hx]. rewrite Hx.
    destruct w as [h r vs k lk].
    destruct (is_vector_inv _ _ _ _ Hvec) as [(-> & -> & _)|(b & Hcap & Hlen & Hv' & Hb)];
      [done|]. cbn [vecs heap] in *.
    assert (v = mkVector (mkRawMemory (Ptr (Some b) 0) cap) (length l)) as -> by congruence.
    unfold begin, GetAddress, padd. cbn [data_ buffer_ base offset Nat.add].
    apply (deref_live _ _ _ _ _ _ _ _ _ Hb).
    rewrite lookup_app_l by (by rewrite length_fmap).
    by rewrite list_lookup_fmap, Hx.
  - by rewrite (lookup_ge_None_2 l i Hi).
Qed.

Lemma swapped_back (vs : gmap nat Vector) this other a b :
  vs !! this = Some a → vs !! other = Some b →
  <[other := b]> (<[this := a]> (<[other := a]> (<[this := b]> vs))) = vs.
Proof.
  intros Ha Hb. apply map_eq. intros i.
  destruct (decide (i = other)) as [->|Hio].
  - by rewrite lookup_insert_eq.
  - rewrite lookup_insert_ne by done.
    destruct (decide (i = this)) as [->|Hit].
    + by rewrite lookup_insert_eq.
    + by rewrite !lookup_insert_ne.
Qed.

Lemma Swap_vectors w this other l1 c1 l2 c2 :
  this ≠ other → is_vector w this l1 c1 → is_vector w other l2 c2 →
  ∃ w', Swap this other w = (Ok tt, w') ∧
        is_vector w' this l2 c2 ∧ is_vector w' other l1 c1 ∧
        heap w' = heap w ∧ leaked w' = leaked w ∧ clock w' = clock w ∧
        Swap this other w' = (Ok tt, w).
Proof.
  intros Hne Hvec1 Hvec2.
  pose proof Hvec1 as (a & Ha & _). pose proof Hvec2 as (b & Hb & _).
  destruct w as [h r vs k lk]. cbn [vecs] in Ha, Hb.
  eexists. split; [by apply Swap_spec|].
  split; [|split; [|split; [done|split; [done|split; [done|]]]]].
  - eapply (is_vector_ext (mkWorld h r vs k lk) _ other this); [exact Hb| |done|exact Hvec2].
    cbn [vecs]. rewrite lookup_insert_ne by done. by rewrite lookup_insert_eq.
  - eapply (is_vector_ext (mkWorld h r vs k lk) _ this other); [exact Ha| |done|exact Hvec1].
    cbn [vecs]. by rewrite lookup_insert_eq.
  - rewrite (Swap_spec _ _ _ _ _ this other b a Hne).
    + by rewrite (swapped_back vs this other a b Ha Hb).
    + rewrite lookup_insert_ne by done. by rewrite lookup_insert_eq.
    + by rewrite lookup_insert_eq.
Qed.

Lemma Swap_self w this v :
  vecs w !! this = Some v → Swap this this w = (Ok tt, w).
Proof.
  intros Hv. destruct w as [h r vs k lk]. cbn [vecs] in Hv.
  unfold Swap, bind. rewrite (get_vec_eq _ _ _ _ _ _ _ Hv).
  rewrite (get_vec_eq _ _ _ _ _ _ _ Hv).
  rewrite (set_size_eq _ _ _ _ _ _ v _ Hv).
  erewrite set_size_eq by apply lookup_insert_eq.
  erewrite get_vec_eq by apply lookup_insert_eq.
  erewrite get_vec_eq by apply lookup_insert_eq.
  cbn [RawMemory_Swap data_ size_ buffer_ capacity_].
  erewrite set_data_eq by apply lookup_insert_eq.
  erewrite set_data_eq by apply lookup_insert_eq.
  cbn [data_ size_]. rewrite !insert_insert_eq.
  destruct v as [[p c] n]. cbn [data_ size_ buffer_ capacity_].
  by rewrite (insert_id vs this _ Hv).
Qed.

End Access.

(** ** Construction and destruction *)

Section Lifetime.
Context {T : Type} {E : ElemType T} {A : Allocator}.
Implicit Types (w : @world T) (l : list T).

Lemma uninitialized_value_construct_n_spec n : ∀ h r vs k lk b ps qs i,
  i = length ps →
  h !! b = Some (ps ++ replicate n Raw ++ qs) →
  uninitialized_value_construct_n (Ptr (Some b) i) n (mkWorld h r vs k lk)
  = match first_failure ctor_throws k (replicate n value_initialized) with
    | None =>
        (Ok tt, mkWorld (<[b := ps ++ (Live <$> replicate n value_initialized) ++ qs]> h)
                  r vs (k + n) lk)
    | Some m => (Throw element_failure, mkWorld h r vs (S (k + m)) lk)
    end.
Proof.
  induction n as [|n IH]; intros h r vs k lk b ps qs i -> Hb.
  - cbn. unfold ret. by rewrite insert_id, Nat.add_0_r.
  - cbn [uninitialized_value_construct_n replicate first_failure].
    cbn [replicate] in Hb. rewrite <- app_comm_cons in Hb.
    rewrite bind_unfold.
    erewrite construct_at_raw; [|exact Hb|by apply lookup_middle].
    cbn [construct_raises arg_value].
    destruct (ctor_throws k value_initialized); cbn beta iota.
    { by rewrite Nat.add_0_r. }
    rewrite insert_middle by done.
    pose proof (IH (<[b := ps ++ Live value_initialized :: replicate n Raw ++ qs]> h) r vs
                  (S k) lk b (ps ++ [Live value_initialized]) qs (length ps + 1)) as IH'.
    rewrite length_app in IH'. cbn [length] in IH'.
    rewrite lookup_insert_eq, <- !app_assoc in IH'.
    specialize (IH' eq_refl eq_refl).
    unfold padd; cbn [base offset].
    destruct (first_failure ctor_throws (S k) (replicate n value_initialized)) as [m|];
      cbn [fmap option_fmap option_map].
    + erewrite on_unwind_throw; [|exact IH'|].
      2:{ eapply destroy_at_live; [apply lookup_insert_eq|by apply lookup_middle]. }
      rewrite insert_middle, insert_insert_eq by done.
      rewrite (insert_id h b) by done. by rewrite Nat.add_succ_r.
    + erewrite on_unwind_ok; [|exact IH'].
      rewrite insert_insert_eq, Nat.add_succ_r, fmap_cons. reflexivity.
Qed.

Lemma Vector_sized_block h r vs k lk this n :
  n ≠ 0 →
  Vector_sized this n (mkWorld h r vs k lk)
  = if new_throws k n then (Throw bad_alloc, mkWorld h r vs (S k) lk)
    else match first_failure ctor_throws (S k) (replicate n value_initialized) with
         | None =>
             (Ok tt,
              mkWorld (<[fresh (dom h) := Live <$> replicate n value_initialized]> h) r
                (<[this := mkVector (mkRawMemory (Ptr (Some (fresh (dom h))) 0) n) n]> vs)
                (S k + n) lk)
         | Some m =>
             (Throw element_failure, mkWorld h r (delete this vs) (S (S k + m)) lk)
         end.
Proof.
  intros Hn.
  unfold Vector_sized, bind, on_unwind, GetAddress, RawMemory_dtor.
  rewrite RawMemory_ctor_spec by done.
  destruct (new_throws k n); [done|].
  set (b' := fresh (dom h)).
  assert (h !! b' = None) as Hfresh by apply fresh_block.
  rewrite set_vec_eq.
  erewrite get_vec_eq by apply lookup_insert_eq.
  mnorm.
  pose proof (uninitialized_value_construct_n_spec n (<[b' := replicate n Raw]> h) r
                (<[this := mkVector (mkRawMemory (Ptr (Some b') 0) n) n]> vs)
                (S k) lk b' [] [] 0 eq_refl) as Hfill.
  rewrite lookup_insert_eq, !app_nil_r in Hfill.
  specialize (Hfill eq_refl). cbn [app] in Hfill. rewrite Hfill.
  destruct (first_failure ctor_throws (S k) (replicate n value_initialized)) as [m|].
  - erewrite Deallocate_block by apply lookup_insert_eq.
    rewrite del_vec_eq, delete_insert_id, delete_insert_eq by done.
    by rewrite live_values_raw, app_nil_r.
  - by rewrite insert_insert_eq.
Qed.

Lemma Vector_sized_0 h r vs k lk this :
  Vector_sized this 0 (mkWorld h r vs k lk)
  = (Ok tt, mkWorld h r (<[this := mkVector (mkRawMemory nullptr 0) 0]> vs) k lk).
Proof.
  unfold Vector_sized, bind, on_unwind. rewrite RawMemory_ctor_0, set_vec_eq.
  by erewrite get_vec_eq by apply lookup_insert_eq.
Qed.

(** The fresh block of a construction leaves the blocks there were alone. *)
Lemma heap_kept (h : gmap nat (list (cell T))) cs b :
  is_Some (h !! b) → <[fresh (dom h) := cs]> h !! b = h !! b.
Proof.
  intros [x Hx]. apply lookup_insert_ne. intros <-.
  by rewrite fresh_block in Hx.
Qed.

Lemma ctor_never_raises k l :
  nothing_raises → first_failure ctor_throws k l = None.
Proof. intros (_ & Hctor & _). by apply first_failure_never. Qed.

Lemma Vector_sized_spec w this n :
  vecs w !! this = None →
  match Vector_sized this n w with
  | (Ok _, w') =>
      is_vector w' this (replicate n value_initialized) n ∧
      leaked w' = leaked w ∧
      (∀ a, a ≠ this → vecs w' !! a = vecs w !! a) ∧
      (∀ b, is_Some (heap w !! b) → heap w' !! b = heap w !! b)
  | (Throw _, w') =>
      ¬ nothing_raises ∧ heap w' = heap w ∧ vecs w' = vecs w ∧ leaked w' = leaked w
  | _ => False
  end.
Proof.
  intros Hnew. destruct w as [h r vs k lk]. cbn [vecs] in Hnew.
  destruct (decide (n = 0)) as [->|Hn].
  - rewrite Vector_sized_0. cbn [replicate vecs heap leaked].
    split; [apply is_vector_null; cbn [vecs]; by rewrite lookup_insert_eq|].
    split; [done|]. split; [|done]. intros a Ha. by rewrite lookup_insert_ne.
  - rewrite Vector_sized_block by done.
    destruct (new_throws k n) eqn:Halloc; [split; [raised|done]|].
    destruct (first_failure ctor_throws (S k) (replicate n value_initialized)) as [m|]
      eqn:Hfail.
    + cbn [heap vecs leaked]. split.
      * intros Hnone. by rewrite ctor_never_raises in Hfail.
      * by rewrite delete_id.
    + cbn [heap vecs leaked]. split; [|split; [done|split]].
      * apply (is_vector_block _ this (replicate n value_initialized) n (fresh (dom h)));
          cbn [vecs heap]; rewrite ?length_replicate; [lia|lia| |].
        -- by rewrite lookup_insert_eq.
        -- by rewrite lookup_insert_eq, Nat.sub_diag, app_nil_r.
      * intros a Ha. by rewrite lookup_insert_ne.
      * intros b Hb. by apply heap_kept.
Qed.

Lemma Vector_copy_ctor_empty h r vs k lk this other d :
  vs !! other = Some (mkVector d 0) →
  Vector_copy_ctor this other (mkWorld h r vs k lk)
  = (Ok tt, mkWorld h r (<[this := mkVector (mkRawMemory nullptr 0) 0]> vs) k lk).
Proof.
  intros Hv. unfold Vector_copy_ctor, bind, on_unwind, Size.
  rewrite (get_vec_eq _ _ _ _ _ _ _ Hv). cbn [size_].
  rewrite RawMemory_ctor_0, set_vec_eq.
  erewrite get_vec_eq by apply lookup_insert_eq.
  destruct (decide (this = other)) as [->|Hne].
  - by erewrite get_vec_eq by apply lookup_insert_eq.
  - by erewrite get_vec_eq by (by rewrite lookup_insert_ne).
Qed.

Lemma Vector_copy_ctor_spec w this other l cap :
  vecs w !! this = None → is_vector w other l cap →
  match Vector_copy_ctor this other w with
  | (Ok _, w') =>
      is_vector w' this l (length l) ∧ is_vector w' other l cap ∧
      disjoint_buffers w' this other ∧
      leaked w' = leaked w ∧
      (∀ a, a ≠ this → vecs w' !! a = vecs w !! a) ∧
      (∀ b, is_Some (heap w !! b) → heap w' !! b = heap w !! b)
  | (Throw _, w') =>
      ¬ nothing_raises ∧ heap w' = heap w ∧ vecs w' = vecs w ∧ leaked w' = leaked w
  | _ => False
  end.
Proof.
  intros Hnew Hvec. pose proof Hvec as (o & Ho & _).
  assert (this ≠ other) as Hne by (intros ->; congruence).
  destruct w as [h r vs k lk]. cbn [vecs] in Hnew, Ho.
  destruct (is_vector_inv _ _ _ _ Hvec) as [(-> & -> & Hv)|(b & Hcap & Hlen & Hv & Hb)];
    cbn [vecs heap] in *.
  - rewrite (Vector_copy_ctor_empty _ _ _ _ _ _ _ _ Hv). cbn [length vecs heap leaked].
    split; [apply is_vector_null; cbn [vecs]; by rewrite lookup_insert_eq|].
    split; [apply is_vector_null; cbn [vecs]; by rewrite lookup_insert_ne|].
    split.
    { intros va vb blk Ha _ Hblk. cbn [vecs] in Ha. rewrite lookup_insert_eq in Ha.
      injection Ha as <-. discriminate Hblk. }
    split; [done|]. split; [|done]. intros a Ha. by rewrite lookup_insert_ne.
  - destruct (decide (l = [])) as [->|Hl].
    + rewrite (Vector_copy_ctor_empty _ _ _ _ _ _ _ _ Hv). cbn [length vecs heap leaked].
      split; [apply is_vector_null; cbn [vecs]; by rewrite lookup_insert_eq|].
      split.
      { eapply (is_vector_block _ other [] cap b); cbn [vecs heap length]; [lia|lia| |done].
        by rewrite lookup_insert_ne. }
      split.
      { intros va vb blk Ha _ Hblk. cbn [vecs] in Ha. rewrite lookup_insert_eq in Ha.
        injection Ha as <-. discriminate Hblk. }
      split; [done|]. split; [|done]. intros a Ha. by rewrite lookup_insert_ne.
    + rewrite (Vector_copy_ctor_block _ _ _ _ _ _ _ _ _ _ Hne Hl Hv Hb).
      destruct (new_throws k (length l)) eqn:Halloc; [split; [raised|done]|].
      destruct (first_failure copy_ctor_throws (S k) l) as [m|] eqn:Hfail.
      { cbn [heap vecs leaked]. split; [raised|]. by rewrite delete_id. }
      assert (h !! fresh (dom h) = None) as Hfresh by apply fresh_block.
      assert (b ≠ fresh (dom h)) as Hbb by (intros Heq; rewrite <- Heq in Hfresh; congruence).
      assert (0 < length l) as Hpos by (destruct l; [done|cbn; lia]).
      cbn [heap vecs leaked]. split; [|split; [|split; [|split; [done|split]]]].
      * apply (is_vector_block _ this l (length l) (fresh (dom h))); cbn [vecs heap];
          [lia|lia| |].
        -- by rewrite lookup_insert_eq.
        -- by rewrite lookup_insert_eq, Nat.sub_diag, app_nil_r.
      * apply (is_vector_block _ other l cap b); cbn [vecs heap]; [lia|lia| |].
        -- by rewrite lookup_insert_ne.
        -- by rewrite lookup_insert_ne.
      * intros va vb blk Ha Hb' Hblk. cbn [vecs] in Ha, Hb'.
        rewrite lookup_insert_eq in Ha. rewrite lookup_insert_ne in Hb' by done.
        injection Ha as <-. rewrite Hv in Hb'. injection Hb' as <-.
        cbn in Hblk |- *. congruence.
      * intros a Ha. by rewrite lookup_insert_ne.
      * intros b0 Hb0. by apply heap_kept.
Qed.

(** [~Vector()]: every element is destroyed, the buffer is released. *)
Lemma Vector_dtor_spec w this l cap v :
  is_vector w this l cap → vecs w !! this = Some v →
  ∃ w', Vector_dtor this w = (Ok tt, w') ∧
        vecs w' = delete this (vecs w) ∧
        leaked w' = leaked w ∧ clock w' = clock w ∧
        (∀ b, heap w' !! b
              = if bool_decide (base (buffer_ (data_ v)) = Some b) then None
                else heap w !! b).
Proof.
  intros Hvec Hv0. destruct w as [h r vs k lk]. cbn [vecs] in Hv0.
  destruct (is_vector_inv _ _ _ _ Hvec) as [(-> & -> & Hv)|(b & Hcap & Hlen & Hv & Hb)];
    cbn [vecs heap] in *.
  - eexists. split; [by apply Vector_dtor_null|].
    assert (v = mkVector (mkRawMemory nullptr 0) 0) as -> by congruence.
    by repeat split.
  - eexists. split; [by eapply Vector_dtor_block|].
    assert (v = mkVector (mkRawMemory (Ptr (Some b) 0) cap) (length l)) as -> by congruence.
    repeat split; try done. intros b0. cbn.
    destruct (decide (b0 = b)) as [->|Hne].
    + by rewrite bool_decide_eq_true_2, lookup_delete_eq.
    + rewrite bool_decide_eq_false_2 by congruence. by rewrite lookup_delete_ne.
Qed.

(** A copy that is destroyed leaves no trace but the calls it made. *)
Lemma Vector_copy_then_destroy w this other l cap :
  vecs w !! this = None → is_vector w other l cap →
  match (Vector_copy_ctor this other ;; Vector_dtor this) w with
  | (Ok _, w') | (Throw _, w') =>
      heap w' = heap w ∧ vecs w' = vecs w ∧ leaked w' = leaked w
  | _ => False
  end.
Proof.
  intros Hnew Hvec. pose proof Hvec as (o & Ho & _).
  assert (this ≠ other) as Hne by (intros ->; congruence).
  destruct w as [h r vs k lk]. cbn [vecs] in Hnew, Ho.
  rewrite bind_unfold.
  destruct (is_vector_inv _ _ _ _ Hvec) as [(-> & -> & Hv)|(b & Hcap & Hlen & Hv & Hb)];
    cbn [vecs heap] in *.
  - rewrite (Vector_copy_ctor_empty _ _ _ _ _ _ _ _ Hv).
    erewrite Vector_dtor_null by apply lookup_insert_eq.
    cbn [heap vecs leaked]. by rewrite delete_insert_id.
  - destruct (decide (l = [])) as [->|Hl].
    + rewrite (Vector_copy_ctor_empty _ _ _ _ _ _ _ _ Hv).
      erewrite Vector_dtor_null by apply lookup_insert_eq.
      cbn [heap vecs leaked]. by rewrite delete_insert_id.
    + rewrite (Vector_copy_ctor_block _ _ _ _ _ _ _ _ _ _ Hne Hl Hv Hb).
      destruct (new_throws k (length l)); [done|].
      destruct (first_failure copy_ctor_throws (S k) l) as [m|].
      { cbn [heap vecs leaked]. by rewrite delete_id. }
      erewrite (Vector_dtor_block _ _ _ _ _ this l (length l)).
      2:{ apply lookup_insert_eq. }
      2:{ by rewrite lookup_insert_eq, Nat.sub_diag, app_nil_r. }
      cbn [heap vecs leaked].
      by rewrite !delete_insert_id by (done || apply fresh_block).
Qed.

End Lifetime.

(** ** [Resize] *)

Section ResizeProofs.
Context {T : Type} {E : ElemType T} {A : Allocator}.
Implicit Types (w : @world T) (l : list T).

(** What [Resize] does once the capacity suffices. *)
Lemma Resize_within w this l cap n :
  is_vector w this l cap → n ≤ cap →
  match (v <- get_vec this ;;
         (if n <? size_ v then
            destroy_n (GetAddress (data_ v) +ₚ n) (size_ v - n)
          else if size_ v <? n then
            uninitialized_value_construct_n (GetAddress (data_ v) +ₚ size_ v) (n - size_ v)
          else ret tt) ;;
         set_size this n) w with
  | (Ok _, w') =>
      is_vector w' this (take n l ++ replicate (n - length l) value_initialized) cap ∧
      leaked w' = leaked w
  | (Throw _, w') =>
      ¬ nothing_raises ∧ heap w' = heap w ∧ vecs w' = vecs w ∧ leaked w' = leaked w
  | _ => False
  end.
Proof.
  intros Hvec Hn. destruct w as [h r vs k lk].
  destruct (is_vector_inv _ _ _ _ Hvec) as [(-> & -> & Hv)|(b & Hcap & Hlen & Hv & Hb)];
    cbn [vecs heap] in *.
  - assert (n = 0) as -> by lia.
    unfold bind. rewrite (get_vec_eq _ _ _ _ _ _ _ Hv). cbn [size_ Nat.ltb Nat.leb].
    unfold ret. rewrite (set_size_eq _ _ _ _ _ _ _ _ Hv). cbn [data_ leaked].
    split; [|done]. apply is_vector_null. cbn [vecs]. by rewrite lookup_insert_eq.
  - unfold bind at 1. rewrite (get_vec_eq _ _ _ _ _ _ _ Hv).
    unfold GetAddress, padd. cbn [data_ size_ buffer_ base offset Nat.add].
    destruct (Nat.ltb_spec n (length l)) as [Hshrink|Hge].
    + rewrite <- (take_drop n l) in Hb at 1. rewrite fmap_app, <- app_assoc in Hb.
      rewrite bind_unfold.
      erewrite (destroy_n_cells (drop n l) _ _ _ _ _ _ b (Live <$> take n l));
        [|by rewrite length_fmap, length_take; lia|by rewrite length_drop|exact Hb].
      rewrite (set_size_eq _ _ _ _ _ _ _ _ Hv). cbn [data_ leaked].
      split; [|done].
      replace (n - length l) with 0 by lia. cbn [replicate]. rewrite app_nil_r.
      assert (length (take n l) = n) as Hlt by (rewrite length_take; lia).
      apply (is_vector_block _ this (take n l) cap b); cbn [vecs heap]; rewrite ?Hlt;
        [lia|lia|by rewrite lookup_insert_eq|].
      rewrite lookup_insert_eq. do 2 f_equal.
      rewrite <- replicate_add. f_equal. lia.
    + destruct (Nat.ltb_spec (length l) n) as [Hgrow|Hsame].
      * replace (cap - length l) with ((n - length l) + (cap - n)) in Hb by lia.
        rewrite replicate_add in Hb.
        rewrite bind_unfold.
        erewrite (uninitialized_value_construct_n_spec (n - length l) _ _ _ _ _ b
                    (Live <$> l)); [|by rewrite length_fmap|exact Hb].
        destruct (first_failure ctor_throws k (replicate (n - length l) value_initialized))
          as [m|] eqn:Hfail.
        { split; [|done]. intros Hnone. by rewrite ctor_never_raises in Hfail. }
        rewrite (set_size_eq _ _ _ _ _ _ _ _ Hv). cbn [data_ leaked].
        split; [|done].
        rewrite take_ge by lia.
        assert (length (l ++ replicate (n - length l) value_initialized) = n) as Hlt
          by (rewrite length_app, length_replicate; lia).
        apply (is_vector_block _ this _ cap b); cbn [vecs heap]; rewrite ?Hlt;
          [lia|lia|by rewrite lookup_insert_eq|].
        rewrite lookup_insert_eq. by rewrite fmap_app, <- app_assoc.
      * assert (n = length l) as -> by lia.
        unfold ret, bind. rewrite (set_size_eq _ _ _ _ _ _ _ _ Hv). cbn [data_ leaked].
        split; [|done].
        rewrite take_ge, Nat.sub_diag by lia. cbn [replicate]. rewrite app_nil_r.
        apply (is_vector_block _ this l cap b); cbn [vecs heap];
          [lia|lia|by rewrite lookup_insert_eq|done].
Qed.

Lemma Resize_spec w this l cap n :
  is_vector w this l cap →
  match Resize this n w with
  | (Ok _, w') =>
      is_vector w' this (take n l ++ replicate (n - length l) value_initialized)
        (Nat.max cap n)
  | (Throw _, w') =>
      ¬ nothing_raises ∧
      (is_nothrow_move_constructible || is_copy_constructible = true →
       is_vector w' this l cap ∨ is_vector w' this l n)
  | _ => False
  end.
Proof.
  intros Hvec. unfold Resize. rewrite bind_unfold.
  destruct (Nat.le_gt_cases n cap) as [Hfit|Hbig].
  - rewrite (Reserve_noop w this l cap n Hvec Hfit).
    pose proof (Resize_within w this l cap n Hvec Hfit) as Hspec.
    cbn beta iota.
    lazymatch type of Hspec with
    | (let (_, _) := ?c in _) => destruct c as [[[]|e| |] w']; try done
    end.
    + rewrite Nat.max_l by lia. apply Hspec.
    + destruct Hspec as (Hraised & Hh & Hv & _). split; [done|].
      intros _. left. by eapply is_vector_same.
  - pose proof (Reserve_grow w this l cap n Hvec Hbig) as Hres.
    destruct (Reserve this n w) as [[[]|e| |] w1]; try done.
    + pose proof (Resize_within w1 this l n n Hres (Nat.le_refl n)) as Hspec.
      cbn beta iota.
      lazymatch type of Hspec with
      | (let (_, _) := ?c in _) => destruct c as [[[]|e| |] w']; try done
      end.
      * rewrite Nat.max_r by lia. apply Hspec.
      * destruct Hspec as (Hraised & Hh & Hv & _). split; [done|].
        intros _. right. by eapply is_vector_same.
    + destruct Hres as (Hraised & Hstrong). split; [done|].
      intros Hc. left. by apply Hstrong.
Qed.

End ResizeProofs.

(** ** Appends that do not reallocate *)

Section InPlaceAppend.
Context {T : Type} {E : ElemType T} {A : Allocator}.
Implicit Types (w : @world T) (l : list T).

Lemma EmplaceBack_in_place h r vs k lk this l cap b a :
  vs !! this = Some (mkVector (mkRawMemory (Ptr (Some b) 0) cap) (length l)) →
  h !! b = Some ((Live <$> l) ++ replicate (cap - length l) Raw) →
  length l < cap →
  EmplaceBack this a (mkWorld h r vs k lk)
  = if construct_raises k a
    then (Throw element_failure, mkWorld h r vs (S k) lk)
    else (Ok (Ptr (Some b) (length l)),
          mkWorld (<[b := (Live <$> l ++ [arg_value a])
                          ++ replicate (cap - length (l ++ [arg_value a])) Raw]> h) r
            (<[this := mkVector (mkRawMemory (Ptr (Some b) 0) cap)
                         (length (l ++ [arg_value a]))]> vs)
            (S k) lk).
Proof.
  intros Hv Hb Hroom.
  unfold EmplaceBack, bind, Capacity, RawMemory_Capacity.
  rewrite (get_vec_eq _ _ _ _ _ _ _ Hv). cbn [data_ size_ capacity_].
  destruct (Nat.eqb_spec (length l) cap) as [?|_]; [lia|].
  rewrite RawMemory_plus_ok by (cbn [capacity_]; lia).
  unfold padd. cbn [buffer_ base offset Nat.add].
  replace (cap - length l) with (S (cap - S (length l))) in Hb by lia.
  cbn [replicate] in Hb.
  erewrite construct_at_raw;
    [|exact Hb|by apply lookup_middle; rewrite length_fmap].
  destruct (construct_raises k a); [done|]. cbn beta iota. unfold ret.
  rewrite (get_vec_eq _ _ _ _ _ _ _ Hv).
  rewrite (set_size_eq _ _ _ _ _ _ _ _ Hv). cbn [data_ size_]. unfold ret.
  rewrite insert_middle by (by rewrite length_fmap).
  rewrite length_app. cbn [length].
  rewrite fmap_app, <- app_assoc. cbn [fmap list_fmap app].
  by replace (cap - (length l + 1)) with (cap - S (length l)) by lia.
Qed.

Lemma EmplaceBack_in_place_spec w this l cap v a :
  is_vector w this l cap → vecs w !! this = Some v → length l < cap →
  match EmplaceBack this a w with
  | (Ok p, w') =>
      p = end_ v ∧
      is_vector w' this (l ++ [arg_value a]) cap ∧
      (∃ v', vecs w' !! this = Some v' ∧ data_ v' = data_ v) ∧
      (∀ i x, l !! i = Some x → cell_at w' (begin v +ₚ i) = Some (Live x)) ∧
      cell_at w' p = Some (Live (arg_value a)) ∧
      leaked w' = leaked w
  | (Throw _, w') =>
      ¬ nothing_raises ∧ heap w' = heap w ∧ vecs w' = vecs w ∧ leaked w' = leaked w
  | _ => False
  end.
Proof.
  intros Hvec Hv0 Hroom. destruct w as [h r vs k lk]. cbn [vecs] in Hv0.
  destruct (is_vector_inv _ _ _ _ Hvec) as [(-> & -> & Hv)|(b & Hcap & Hlen & Hv & Hb)];
    cbn [vecs heap] in *; [cbn in Hroom; lia|].
  assert (v = mkVector (mkRawMemory (Ptr (Some b) 0) cap) (length l)) as -> by congruence.
  rewrite (EmplaceBack_in_place _ _ _ _ _ _ _ _ _ a Hv Hb Hroom).
  destruct (construct_raises k a) eqn:Hraise; [split; [raised|done]|].
  assert (length (l ++ [arg_value a]) ≤ cap) as Hlen'
    by (rewrite length_app; cbn [length]; lia).
  split; [done|]. split; [|split; [|split; [|split; [|done]]]].
  - apply (is_vector_block _ this _ cap b); cbn [vecs heap];
      [lia|lia|by rewrite lookup_insert_eq|by rewrite lookup_insert_eq].
  - eexists. cbn [vecs]. by rewrite lookup_insert_eq.
  - intros i x Hx. unfold begin, GetAddress, padd. cbn [data_ buffer_ base offset Nat.add].
    erewrite cell_at_block by (cbn [heap]; apply lookup_insert_eq).
    apply lookup_lt_Some in Hx as Hi.
    rewrite lookup_app_l by (rewrite length_fmap, length_app; lia).
    rewrite list_lookup_fmap, lookup_app_l by done. by rewrite Hx.
  - erewrite cell_at_block by (cbn [heap]; apply lookup_insert_eq).
    rewrite lookup_app_l by (rewrite length_fmap, length_app; cbn [length]; lia).
    rewrite list_lookup_fmap, lookup_app_r by done.
    by rewrite Nat.sub_diag.
Qed.

Lemma push_back_all_fits xs : ∀ w this l cap v,
  is_vector w this l cap → vecs w !! this = Some v → length l + length xs ≤ cap →
  match push_back_all this xs w with
  | (Ok _, w') =>
      is_vector w' this (l ++ xs) cap ∧
      (∃ v', vecs w' !! this = Some v' ∧ data_ v' = data_ v) ∧
      (∀ i x, l !! i = Some x → cell_at w' (begin v +ₚ i) = Some (Live x)) ∧
      leaked w' = leaked w
  | (Throw _, w') =>
      ¬ nothing_raises ∧
      (∃ n, n < length xs ∧ is_vector w' this (l ++ take n xs) cap) ∧
      leaked w' = leaked w
  | _ => False
  end.
Proof.
  induction xs as [|x xs IH]; intros w this l cap v Hvec Hv Hfit.
  - cbn [push_back_all]. unfold ret. rewrite app_nil_r.
    split; [done|]. split; [by exists v|]. split; [|done].
    intros i x Hx. destruct w as [h r vs k lk].
    destruct (is_vector_inv _ _ _ _ Hvec) as [(-> & -> & _)|(b & Hcap & Hlen & Hv' & Hb)];
      [done|]. cbn [vecs heap] in *.
    assert (v = mkVector (mkRawMemory (Ptr (Some b) 0) cap) (length l)) as -> by congruence.
    unfold begin, GetAddress, padd. cbn [data_ buffer_ base offset Nat.add].
    erewrite cell_at_block by (cbn [heap]; exact Hb).
    apply lookup_lt_Some in Hx as Hi.
    rewrite lookup_app_l by (by rewrite length_fmap).
    by rewrite list_lookup_fmap, Hx.
  - cbn [push_back_all length] in *. unfold PushBack.
    rewrite bind_assoc, bind_unfold.
    pose proof (EmplaceBack_in_place_spec w this l cap v (ByCopy x) Hvec Hv
                  ltac:(lia)) as Hpush.
    destruct (EmplaceBack this (ByCopy x) w) as [[p|e| |] w1]; try done.
    + destruct Hpush as (_ & Hvec1 & (v1 & Hv1 & Hdata) & Hcells & _ & Hleak).
      cbn [arg_value] in Hvec1. rewrite bind_ret.
      assert (length (l ++ [x]) + length xs ≤ cap) as Hfit'
        by (rewrite length_app; cbn [length]; lia).
      pose proof (IH w1 this (l ++ [x]) cap v1 Hvec1 Hv1 Hfit') as Hrest.
      assert (begin v1 = begin v) as Hbegin by (unfold begin; by rewrite Hdata).
      destruct (push_back_all this xs w1) as [[[]|e| |] w']; try done.
      * destruct Hrest as (Hvec' & (v' & Hv' & Hdata') & Hcells' & Hleak').
        rewrite <- app_assoc in Hvec'. split; [done|].
        split; [exists v'; split; [done|congruence]|]. split; [|congruence].
        intros i y Hy. rewrite <- Hbegin. apply Hcells'.
        by apply lookup_app_l_Some.
      * destruct Hrest as (Hraised & (n & Hn & Hvec') & Hleak').
        split; [done|]. split; [|congruence].
        exists (S n). split; [lia|]. cbn [take]. by rewrite <- app_assoc in Hvec'.
    + destruct Hpush as (Hraised & Hh & Hvs & Hleak).
      split; [done|]. split; [|done].
      exists 0. split; [lia|]. cbn [take]. rewrite app_nil_r.
      by eapply is_vector_same.
Qed.

(** In general the capacity grows as the appends require. *)
Lemma push_back_all_spec xs : ∀ w this l cap,
  is_vector w this l cap →
  match push_back_all this xs w with
  | (Ok _, w') => ∃ cap', cap ≤ cap' ∧ is_vector w' this (l ++ xs) cap'
  | (Throw _, w') => ¬ nothing_raises
  | _ => False
  end.
Proof.
  induction xs as [|x xs IH]; intros w this l cap Hvec.
  - cbn [push_back_all]. unfold ret. rewrite app_nil_r. by exists cap.
  - cbn [push_back_all]. unfold PushBack. rewrite bind_assoc, bind_unfold.
    pose proof (EmplaceBack_spec w this l cap (ByCopy x) Hvec) as Hpush.
    destruct (EmplaceBack this (ByCopy x) w) as [[p|e| |] w1]; try done.
    + destruct Hpush as (Hvec1 & _). cbn [arg_value] in Hvec1. rewrite bind_ret.
      pose proof (IH w1 this (l ++ [x]) _ Hvec1) as Hrest.
      destruct (push_back_all this xs w1) as [[[]|e| |] w']; try done.
      destruct Hrest as (cap' & Hcap' & Hvec'). exists cap'.
      rewrite <- app_assoc in Hvec'. split; [|done].
      unfold grown in Hcap'. destruct (length l =? cap); lia.
    + by destruct Hpush.
Qed.

End InPlaceAppend.

(** ** Operations in sequence *)

Section Composition.
Context {T : Type} {E : ElemType T} {A : Allocator}.
Implicit Types (w : @world T) (l : list T).

Lemma PushBack_then_PopBack w this l cap x :
  is_vector w this l cap →
  match (PushBack this x ;; PopBack this) w with
  | (Ok _, w') => is_vector w' this l (grown (length l) cap)
  | (Throw _, w') => ¬ nothing_raises
  | _ => False
  end.
Proof.
  intros Hvec. rewrite bind_unfold. unfold PushBack.
  pose proof (push_spec w this l cap (ByCopy x) Hvec) as Hpush.
  destruct ((EmplaceBack this (ByCopy x) ;; ret tt) w) as [[[]|e| |] w1]; try done.
  cbn [arg_value] in Hpush.
  destruct (PopBack_spec w1 this _ _ Hpush) as (w' & -> & Hvec' & _).
  by rewrite removelast_last in Hvec'.
Qed.

Lemma inserted_then_erased l d (x : T) :
  d ≤ length l →
  take d (take d l ++ x :: drop d l) ++ drop (S d) (take d l ++ x :: drop d l) = l.
Proof.
  intros Hd. assert (length (take d l) = d) as Hlen by (rewrite length_take; lia).
  rewrite take_app_length' by done.
  rewrite drop_app_ge by lia. rewrite Hlen.
  replace (S d - d) with 1 by lia. cbn [drop]. rewrite drop_0.
  apply take_drop.
Qed.

(** For a type whose move leaves its source as it was, erasing the element
    just inserted gives the sequence back. *)
Lemma Emplace_then_Erase w this l cap v d a :
  (∀ x, moved_from x = x) →
  is_vector w this l cap → vecs w !! this = Some v → d ≤ length l →
  match (p <- Emplace this (begin v +ₚ d) a ;; Erase this p) w with
  | (Ok q, w') =>
      is_vector w' this l (grown (length l) cap) ∧
      match l !! d with
      | Some y => cell_at w' q = Some (Live y)
      | None => ∃ v', vecs w' !! this = Some v' ∧ q = end_ v'
      end
  | (Throw _, w') => ¬ nothing_raises
  | _ => False
  end.
Proof.
  intros Hmove Hvec Hv Hd. rewrite bind_unfold.
  pose proof (Emplace_spec_when_moves_copy w this l cap v d a Hmove Hvec Hv Hd) as Hins.
  destruct (Emplace this (begin v +ₚ d) a w) as [[p|e| |] w1]; try done.
  destruct Hins as (Hvec1 & v1 & Hv1 & -> & _).
  assert (d < length (take d l ++ arg_value a :: drop d l)) as Hd1.
  { rewrite length_app, length_take. cbn [length]. lia. }
  pose proof (Erase_spec w1 this _ _ v1 d Hvec1 Hv1 Hd1) as Hdel.
  destruct (Erase this (begin v1 +ₚ d) w1) as [[q|e| |] w']; try done.
  - destruct Hdel as (Hvec' & -> & Hcell).
    rewrite inserted_then_erased in Hvec' by done. split; [done|].
    assert ((take d l ++ arg_value a :: drop d l) !! S d = l !! d) as Hnext.
    { rewrite lookup_app_r by (rewrite length_take; lia).
      rewrite length_take, Nat.min_l by lia.
      replace (S d - d) with 1 by lia.
      change ((arg_value a :: drop d l) !! 1) with (drop d l !! 0).
      rewrite lookup_drop. f_equal. lia. }
    by rewrite Hnext in Hcell.
  - intros Hnone. apply Hdel.
    destruct (nothing_raises_inv Hnone) as (_ & _ & _ & _ & _ & Hma & _). apply Hma.
Qed.

(** A position past [end()] fails the assertion of [Emplace] and [Erase]. *)
Lemma position_past_end w this v d a :
  vecs w !! this = Some v → size_ v < d →
  Emplace this (begin v +ₚ d) a w = (Abort, w) ∧
  Erase this (begin v +ₚ d) w = (Abort, w).
Proof.
  intros Hv Hd. destruct w as [h r vs k lk]. cbn [vecs] in Hv.
  assert (ptr_le (begin v +ₚ d) (end_ v) = false) as Hle.
  { unfold ptr_le, end_, begin, padd. cbn [base offset].
    rewrite bool_decide_eq_true_2 by done.
    apply Nat.leb_gt. lia. }
  split.
  - unfold Emplace, bind. rewrite (get_vec_eq _ _ _ _ _ _ _ Hv).
    by rewrite Hle, andb_false_r.
  - unfold Erase, Erase_assertion, bind. rewrite (get_vec_eq _ _ _ _ _ _ _ Hv).
    unfold cend, cbegin, begin. unfold end_, begin in Hle. by rewrite Hle, andb_false_r.
Qed.

(** When a move assignment of the shift raises, [Erase] has destroyed
    nothing: the size and the elements before [d] are as they were. *)
Lemma Erase_failure w this l cap v d :
  is_vector w this l cap → vecs w !! this = Some v → d < length l →
  match Erase this (begin v +ₚ d) w with
  | (Ok _, w') => leaked w' = leaked w
  | (Throw _, w') =>
      (∃ l', is_vector w' this l' cap ∧ length l' = length l ∧ take d l' = take d l) ∧
      vecs w' = vecs w ∧ leaked w' = leaked w
  | _ => False
  end.
Proof.
  intros Hvec Hv0 Hd. destruct w as [h r vs k lk]. cbn [vecs] in Hv0.
  destruct (is_vector_inv _ _ _ _ Hvec) as [(-> & -> & Hv)|(b & Hcap & Hlen & Hv & Hb)];
    cbn [vecs heap] in *; [cbn in Hd; lia|].
  assert (v = mkVector (mkRawMemory (Ptr (Some b) 0) cap) (length l)) as -> by congruence.
  destruct (lookup_lt_is_Some_2 l d Hd) as [x Hx].
  unfold begin, GetAddress, padd. cbn [data_ buffer_ base offset Nat.add].
  rewrite (Erase_block _ _ _ _ _ _ _ _ _ _ _ Hv Hb Hx).
  destruct (first_failure move_assign_throws k (drop (S d) l)) as [n|] eqn:Hfail; [|done].
  split; [|done].
  set (l' := take d l ++ take n (drop (S d) l)
             ++ vacated x (take n (drop (S d) l)) :: drop n (drop (S d) l)).
  assert (length l' = length l) as Hlen'.
  { pose proof (first_failure_lt _ _ _ _ Hfail) as Hn. rewrite length_drop in Hn.
    unfold l'. rewrite !length_app. cbn [length].
    rewrite !length_take, !length_drop. lia. }
  exists l'. split; [|split; [done|]].
  - apply (is_vector_block _ this l' cap b); cbn [vecs heap]; rewrite ?Hlen'; [lia|lia|done|].
    by rewrite lookup_insert_eq.
  - unfold l'. rewrite take_app_length'; [done|]. rewrite length_take. lia.
Qed.

End Composition.

(** ** Buffers *)

Section Buffers.
Context {T : Type} {E : ElemType T} {A : Allocator} {Sz : SizeOf T}.
Implicit Types (w : @world T) (l : list T).

(** When [n * sizeof(T)] does not wrap, [operator new] is asked for
    exactly the bytes of [n] cells. *)
Lemma requested_bytes_fits n :
  fits_size_t n →
  requested_bytes n = (N.of_nat n * sizeof)%N ∧
  (requested_bytes n / sizeof)%N = N.of_nat n.
Proof.
  unfold fits_size_t, requested_bytes. intros Hfits.
  rewrite N.mod_small by lia. split; [done|].
  apply N.div_mul. pose proof sizeof_pos. lia.
Qed.

(** [RawMemory(n)] and [~RawMemory()]. *)
Lemma RawMemory_ctor_dtor w n :
  match RawMemory_ctor n w with
  | (Ok m, w') =>
      capacity_ m = n ∧ RawMemory_inv m ∧
      buffer_cells w' m = Some (replicate n Raw) ∧
      (∀ b, base (buffer_ m) = Some b → heap w !! b = None) ∧
      (∀ b, is_Some (heap w !! b) → heap w' !! b = heap w !! b) ∧
      ∃ w'', RawMemory_dtor m w' = (Ok tt, w'') ∧
             heap w'' = heap w ∧ leaked w'' = leaked w
  | (Throw e, w') =>
      e = bad_alloc ∧ n ≠ 0 ∧ new_throws (clock w) n = true ∧
      heap w' = heap w ∧ leaked w' = leaked w
  | _ => False
  end.
Proof.
  destruct w as [h r vs k lk]. destruct (decide (n = 0)) as [->|Hn].
  - rewrite RawMemory_ctor_0. cbn [capacity_ buffer_ replicate heap leaked].
    split; [done|]. split; [done|]. split; [done|]. split; [done|]. split; [done|].
    eexists. unfold RawMemory_dtor. cbn [buffer_]. by rewrite Deallocate_null.
  - rewrite RawMemory_ctor_spec by done. cbn [clock].
    destruct (new_throws k n) eqn:Halloc; [done|].
    cbn [capacity_ buffer_ base heap leaked].
    assert (h !! fresh (dom h) = None) as Hfresh by apply fresh_block.
    split; [done|]. split.
    { unfold RawMemory_inv. cbn [buffer_ capacity_]. split; [done|lia]. }
    split.
    { unfold buffer_cells. cbn [buffer_ base capacity_ heap].
      rewrite lookup_insert_eq. cbn. by rewrite length_replicate, Nat.eqb_refl. }
    split; [by intros b [= <-]|].
    split; [intros b Hb; by apply heap_kept|].
    eexists. unfold RawMemory_dtor. cbn [buffer_].
    erewrite Deallocate_block by apply lookup_insert_eq.
    cbn [heap leaked]. by rewrite delete_insert_id, live_values_raw, app_nil_r.
Qed.

(** A growing [Reserve] moves the elements to a block that did not exist
    and releases the block they were in. *)
Lemma Reserve_moves_buffer w this l cap n v :
  is_vector w this l cap → vecs w !! this = Some v → cap < n →
  match Reserve this n w with
  | (Ok _, w') =>
      (∀ b, base (buffer_ (data_ v)) = Some b → heap w' !! b = None) ∧
      (∃ v' b', vecs w' !! this = Some v' ∧ base (buffer_ (data_ v')) = Some b' ∧
                heap w !! b' = None) ∧
      leaked w' = leaked w
  | (Throw _, w') => leaked w' = leaked w
  | _ => False
  end.
Proof.
  intros Hvec Hv0 Hn. destruct w as [h r vs k lk]. cbn [vecs] in Hv0.
  destruct (is_vector_inv _ _ _ _ Hvec) as [(-> & -> & Hv)|(b & Hcap & Hlen & Hv & Hb)];
    cbn [vecs heap] in *.
  - assert (v = mkVector (mkRawMemory nullptr 0) 0) as -> by congruence.
    unfold Reserve. rewrite (bind_eq _ _ _ _ _ (get_vec_eq _ _ _ _ _ _ _ Hv)).
    cbn [data_ size_ RawMemory_Capacity capacity_ GetAddress buffer_].
    destruct (Nat.leb_spec n 0) as [?|_]; [lia|].
    rewrite bind_unfold, RawMemory_ctor_spec by lia.
    destruct (new_throws k n) eqn:Halloc; [done|].
    cbn beta iota. unfold GetAddress. cbn [buffer_].
    assert (__CopyMoveConstruct (E:=E) nullptr (Ptr (Some (fresh (dom h))) 0) 0
            = ret tt) as ->.
    { unfold __CopyMoveConstruct. by destruct relocates_by_move. }
    erewrite bind_eq by (apply on_unwind_ok; reflexivity).
    cbn beta iota. cbn [destroy_n RawMemory_Swap buffer_ capacity_].
    rewrite bind_ret.
    rewrite (bind_eq _ _ _ _ _ (set_data_eq _ _ _ _ _ _ _ _ Hv)).
    cbn [size_]. unfold RawMemory_dtor. cbn [buffer_]. rewrite Deallocate_null.
    cbn [heap vecs leaked]. split; [done|]. split; [|done].
    eexists _, _. rewrite lookup_insert_eq. split; [done|]. split; [done|].
    apply fresh_block.
  - assert (v = mkVector (mkRawMemory (Ptr (Some b) 0) cap) (length l)) as -> by congruence.
    unfold Reserve. rewrite (bind_eq _ _ _ _ _ (get_vec_eq _ _ _ _ _ _ _ Hv)).
    cbn [data_ size_ RawMemory_Capacity capacity_ GetAddress buffer_].
    destruct (Nat.leb_spec n cap) as [?|_]; [lia|].
    rewrite bind_unfold, RawMemory_ctor_spec by lia.
    destruct (new_throws k n) eqn:Halloc; [done|].
    cbn beta iota. unfold GetAddress. cbn [buffer_].
    set (b' := fresh (dom h)).
    assert (h !! b' = None) as Hfresh by apply fresh_block.
    assert (b ≠ b') as Hne by (intros ->; congruence).
    cbn [buffer_].
    pose proof (CopyMoveConstruct_spec l (<[b' := replicate n Raw]> h) r vs (S k) lk
                  b b' [] (replicate (cap - length l) Raw) [] (replicate (n - length l) Raw)
                  0 0 Hne eq_refl eq_refl) as Hreloc.
    rewrite lookup_insert_ne, lookup_insert_eq in Hreloc by done.
    rewrite <- replicate_add in Hreloc.
    replace (length l + (n - length l)) with n in Hreloc by lia.
    specialize (Hreloc Hb eq_refl). cbn [app] in Hreloc.
    destruct (first_failure relocation_raises (S k) l) as [j|] eqn:Hfail.
    + erewrite bind_eq.
      2:{ eapply on_unwind_throw; [exact Hreloc|].
          unfold RawMemory_dtor. cbn [buffer_]. eapply Deallocate_block.
          by rewrite lookup_insert_ne, lookup_insert_eq. }
      cbn beta iota. cbn [leaked]. by rewrite live_values_raw, app_nil_r.
    + erewrite bind_eq; [|eapply on_unwind_ok; exact Hreloc].
      cbn beta iota.
      erewrite bind_eq.
      2:{ eapply (destroy_n_cells (relocated_from <$> l) _ _ _ _ _ _ b []);
            [done|by rewrite length_fmap|].
          rewrite lookup_insert_eq. done. }
      cbn beta iota. cbn [RawMemory_Swap buffer_ capacity_].
      rewrite (bind_eq _ _ _ _ _ (set_data_eq _ _ _ _ _ _ _ _ Hv)).
      unfold RawMemory_dtor. cbn [buffer_ size_].
      erewrite Deallocate_block by apply lookup_insert_eq.
      cbn [heap vecs leaked data_ buffer_ base]. split; [|split].
      * intros b0 [= <-]. by rewrite lookup_delete_eq.
      * eexists _, b'. rewrite lookup_insert_eq. by split; [|split].
      * cbn [app]. by rewrite live_values_app, !live_values_raw, app_nil_r.
Qed.

(** After [Reserve(n)], appends up to [n] elements stay in the buffer. *)
Lemma Reserve_then_push_back_all w this l cap n xs :
  is_vector w this l cap → cap < n → length l + length xs ≤ n →
  match (Reserve this n ;; push_back_all this xs) w with
  | (Ok _, w') => is_vector w' this (l ++ xs) n
  | (Throw _, w') => ¬ nothing_raises
  | _ => False
  end.
Proof.
  intros Hvec Hn Hfit. rewrite bind_unfold.
  pose proof (Reserve_grow w this l cap n Hvec Hn) as Hres.
  destruct (Reserve this n w) as [[[]|e| |] w1]; try done; [|by destruct Hres].
  pose proof Hres as (v1 & Hv1 & _).
  pose proof (push_back_all_fits xs w1 this l n v1 Hres Hv1 Hfit) as Hpush.
  destruct (push_back_all this xs w1) as [[[]|e| |] w']; try done.
  - by destruct Hpush.
  - by destruct Hpush.
Qed.

(** When the allocation and the relocation do not raise, a growing
    [Reserve] returns after one call to [operator new] and one call per
    element. *)
Lemma Reserve_grow_ok w this l cap n :
  is_vector w this l cap → cap < n →
  new_throws (clock w) n = false →
  first_failure relocation_raises (S (clock w)) l = None →
  ∃ w', Reserve this n w = (Ok tt, w') ∧ is_vector w' this l n ∧
        clock w' = S (clock w) + length l ∧ leaked w' = leaked w.
Proof.
  intros Hvec Hn Halloc Hreloc0. destruct w as [h r vs k lk]. cbn [clock] in *.
  destruct (is_vector_inv _ _ _ _ Hvec) as [(-> & -> & Hv)|(b & Hcap & Hlen & Hv & Hb)];
    cbn [vecs heap] in *.
  - unfold Reserve. rewrite (bind_eq _ _ _ _ _ (get_vec_eq _ _ _ _ _ _ _ Hv)).
    cbn [data_ size_ RawMemory_Capacity capacity_ GetAddress buffer_].
    destruct (Nat.leb_spec n 0) as [?|_]; [lia|].
    rewrite bind_unfold, RawMemory_ctor_spec by lia. rewrite Halloc.
    cbn beta iota. unfold GetAddress. cbn [buffer_].
    assert (__CopyMoveConstruct (E:=E) nullptr (Ptr (Some (fresh (dom h))) 0) 0
            = ret tt) as ->.
    { unfold __CopyMoveConstruct. by destruct relocates_by_move. }
    erewrite bind_eq by (apply on_unwind_ok; reflexivity).
    cbn beta iota. cbn [destroy_n RawMemory_Swap buffer_ capacity_].
    rewrite bind_ret.
    rewrite (bind_eq _ _ _ _ _ (set_data_eq _ _ _ _ _ _ _ _ Hv)).
    cbn [size_]. unfold RawMemory_dtor. cbn [buffer_]. rewrite Deallocate_null.
    eexists. split; [done|]. cbn [clock leaked length]. split; [|split; [lia|done]].
    eapply (is_vector_block _ _ [] n); cbn [vecs heap length]; [lia|lia| |].
    + by rewrite lookup_insert_eq.
    + rewrite lookup_insert_eq. by rewrite Nat.sub_0_r.
  - unfold Reserve. rewrite (bind_eq _ _ _ _ _ (get_vec_eq _ _ _ _ _ _ _ Hv)).
    cbn [data_ size_ RawMemory_Capacity capacity_ GetAddress buffer_].
    destruct (Nat.leb_spec n cap) as [?|_]; [lia|].
    rewrite bind_unfold, RawMemory_ctor_spec by lia. rewrite Halloc.
    cbn beta iota. unfold GetAddress. cbn [buffer_].
    set (b' := fresh (dom h)).
    assert (h !! b' = None) as Hfresh by apply fresh_block.
    assert (b ≠ b') as Hne by (intros ->; congruence).
    cbn [buffer_].
    pose proof (CopyMoveConstruct_spec l (<[b' := replicate n Raw]> h) r vs (S k) lk
                  b b' [] (replicate (cap - length l) Raw) [] (replicate (n - length l) Raw)
                  0 0 Hne eq_refl eq_refl) as Hreloc.
    rewrite lookup_insert_ne, lookup_insert_eq in Hreloc by done.
    rewrite <- replicate_add in Hreloc.
    replace (length l + (n - length l)) with n in Hreloc by lia.
    specialize (Hreloc Hb eq_refl). cbn [app] in Hreloc.
    rewrite Hreloc0 in Hreloc.
    erewrite bind_eq; [|eapply on_unwind_ok; exact Hreloc].
    cbn beta iota.
    erewrite bind_eq.
    2:{ eapply (destroy_n_cells (relocated_from <$> l) _ _ _ _ _ _ b []);
          [done|by rewrite length_fmap|].
        rewrite lookup_insert_eq. done. }
    cbn beta iota. cbn [RawMemory_Swap buffer_ capacity_].
    rewrite (bind_eq _ _ _ _ _ (set_data_eq _ _ _ _ _ _ _ _ Hv)).
    unfold RawMemory_dtor. cbn [buffer_ size_].
    erewrite Deallocate_block by apply lookup_insert_eq.
    eexists. split; [done|]. cbn [clock leaked]. split; [|split; [done|]].
    + eapply is_vector_block; cbn [vecs heap]; [lia|lia|by rewrite lookup_insert_eq|].
      rewrite lookup_delete_ne, lookup_insert_ne, lookup_insert_ne, lookup_insert_eq by done.
      done.
    + cbn [app]. by rewrite live_values_app, !live_values_raw, app_nil_r.
Qed.

(** [Resize(n)] beyond the capacity when a constructor of the new elements
    raises: the call raises after [Reserve] has replaced the buffer. *)
Lemma Resize_fill_failure w this l cap n :
  is_vector w this l cap → cap < n →
  new_throws (clock w) n = false →
  first_failure relocation_raises (S (clock w)) l = None →
  first_failure ctor_throws (S (clock w) + length l)
    (replicate (n - length l) value_initialized) ≠ None →
  ∃ w', Resize this n w = (Throw element_failure, w') ∧
        is_vector w' this l n ∧ ¬ is_vector w' this l cap.
Proof.
  intros Hvec Hn Halloc Hreloc Hfill.
  destruct (Reserve_grow_ok w this l cap n Hvec Hn Halloc Hreloc)
    as (w1 & Hres & Hvec1 & Hclock & _).
  assert (length l ≤ cap) as Hsize.
  { destruct (is_vector_inv _ _ _ _ Hvec) as [(_ & -> & _)|(_ & _ & ? & _)];
      [cbn; lia|done]. }
  assert (∀ w', is_vector w' this l n → ¬ is_vector w' this l cap) as Hcap.
  { intros w' H1%is_vector_capacity H2%is_vector_capacity.
    rewrite H1 in H2. injection H2 as ->. lia. }
  unfold Resize. rewrite bind_unfold, Hres. cbn beta iota.
  destruct w1 as [h r vs k lk]. cbn [clock] in Hclock. subst k.
  destruct (is_vector_inv _ _ _ _ Hvec1) as [(-> & _)|(b & Hpos & Hlen & Hv & Hb)];
    [lia|]. cbn [vecs heap] in Hv, Hb.
  unfold bind at 1. rewrite (get_vec_eq _ _ _ _ _ _ _ Hv).
  unfold GetAddress, padd. cbn [data_ size_ buffer_ base offset Nat.add].
  destruct (Nat.ltb_spec n (length l)) as [?|_]; [lia|].
  destruct (Nat.ltb_spec (length l) n) as [_|?]; [|lia].
  rewrite bind_unfold.
  erewrite (uninitialized_value_construct_n_spec (n - length l) _ _ _ _ _ b
              (Live <$> l) []); [|by rewrite length_fmap|by rewrite app_nil_r].
  change (S (clock w) + length l) with (S (clock w + length l)) in Hfill.
  destruct (first_failure ctor_throws (S (clock w + length l))
              (replicate (n - length l) value_initialized)) as [m|]; [|done].
  eexists. split; [done|]. split; [|apply Hcap]; by eapply is_vector_same.
Qed.

End Buffers.

(** ** Move assignment of [RawMemory] *)

Section RawMoves.
Context {T : Type}.

(** [operator=(RawMemory&&)] into an object that owns no block. *)
Lemma RawMemory_move_assign_empty (h : gmap nat (list (cell T))) r vs k lk this other m :
  this ≠ other →
  r !! this = Some (mkRawMemory nullptr 0) → r !! other = Some m →
  RawMemory_move_assign this other (mkWorld h r vs k lk)
  = (Ok tt, mkWorld h (<[other := mkRawMemory nullptr 0]> (<[this := m]> r)) vs k lk).
Proof.
  intros Hne Hthis Hother. unfold RawMemory_move_assign, bind.
  rewrite bool_decide_eq_true_2 by done.
  rewrite (get_raw_eq _ _ _ _ _ _ _ Hthis). cbn [buffer_].
  rewrite Deallocate_null, set_raw_eq.
  erewrite get_raw_eq by apply lookup_insert_eq.
  erewrite get_raw_eq by (by rewrite lookup_insert_ne).
  cbn [RawMemory_Swap buffer_ capacity_].
  rewrite !set_raw_eq, insert_insert_eq. by destruct m.
Qed.

End RawMoves.

(** ** The properties *)

(** X1. [PopBack] never raises, aborts or is undefined on a vector: it
    destroys the last element and keeps the capacity; on the empty vector
    it does nothing. *)
Theorem X1_pop_back {T : Type} (w : @world T) (this : nat) (l : list T) (cap : nat) :
  is_vector w this l cap →
  ∃ w', PopBack this w = (Ok tt, w') ∧
        is_vector w' this (removelast l) cap ∧
        leaked w' = leaked w ∧
        (l = [] → w' = w).
Proof.
  intros Hvec. destruct (PopBack_spec w this l cap Hvec) as (w' & Hrun & Hvec' & Hlk & _ & Hnil).
  by exists w'.
Qed.

Lemma X1_pop_back_witness :
  is_vector (vector_world [Live 1; Live 2; Raw] 2) 0 [1; 2] 3 ∧
  ∃ w', PopBack 0 (vector_world [Live 1; Live 2; Raw] 2) = (Ok tt, w') ∧
        is_vector w' 0 [1] 3 ∧
        leaked w' = leaked (vector_world [Live 1; Live 2; Raw] 2) ∧
        ([1; 2] = [] → w' = vector_world [Live 1; Live 2; Raw] 2).
Proof.
  assert (is_vector (vector_world [Live 1; Live 2; Raw] 2) 0 [1; 2] 3) as Hvec.
  { apply (is_vector_block _ 0 [1; 2] 3 0); [lia|cbn; lia|reflexivity|reflexivity]. }
  split; [exact Hvec|]. exact (X1_pop_back _ 0 [1; 2] 3 Hvec).
Defined.

(** X2. [operator[]] checks the index against the size, not the capacity:
    for [index < size] it gives the address [begin() + index], which holds
    element [index] of the sequence; for any other index the assertion
    fails. The assertion of [RawMemory::operator[]] behind it never fails on
    a vector. *)
Theorem X2_index_checks_size {T : Type} (w : @world T) (this : nat) (l : list T)
    (cap : nat) (v : Vector) (i : nat) :
  is_vector w this l cap → vecs w !! this = Some v →
  Vector_index this i w = (if i <? length l then (Ok (begin v +ₚ i), w) else (Abort, w)) ∧
  read_index this i w = match l !! i with Some x => (Ok x, w) | None => (Abort, w) end.
Proof.
  intros Hvec Hv. split.
  - by apply (Vector_index_spec w this l cap).
  - by apply (read_index_spec w this l cap).
Qed.

Lemma X2_index_checks_size_witness :
  is_vector (vector_world [Live 1; Live 2; Raw] 2) 0 [1; 2] 3 ∧
  vecs (vector_world [Live 1; Live 2; Raw] 2) !! 0
  = Some (mkVector (mkRawMemory (Ptr (Some 0) 0) 3) 2) ∧
  Vector_index 0 2 (vector_world [Live 1; Live 2; Raw] 2)
  = (Abort, vector_world [Live 1; Live 2; Raw] 2) ∧
  read_index 0 1 (vector_world [Live 1; Live 2; Raw] 2)
  = (Ok 2, vector_world [Live 1; Live 2; Raw] 2).
Proof.
  assert (is_vector (vector_world [Live 1; Live 2; Raw] 2) 0 [1; 2] 3) as Hvec.
  { apply (is_vector_block _ 0 [1; 2] 3 0); [lia|cbn; lia|reflexivity|reflexivity]. }
  assert (vecs (vector_world [Live 1; Live 2; Raw] 2) !! 0
          = Some (mkVector (mkRawMemory (Ptr (Some 0) 0) 3) 2)) as Hv by reflexivity.
  split; [exact Hvec|]. split; [exact Hv|]. split.
  - exact (proj1 (X2_index_checks_size _ 0 [1; 2] 3 _ 2 Hvec Hv)).
  - exact (proj2 (X2_index_checks_size _ 0 [1; 2] 3 _ 1 Hvec Hv)).
Defined.

(** X3. [Swap] of two vectors exchanges their sequences and capacities
    without touching a cell of the heap, and a second [Swap] restores the
    world; [Swap] of a vector with itself changes nothing. *)
Theorem X3_swap_exchanges {T : Type} (w : @world T) (this other : nat)
    (l1 l2 : list T) (c1 c2 : nat) :
  this ≠ other → is_vector w this l1 c1 → is_vector w other l2 c2 →
  (∃ w', Swap this other w = (Ok tt, w') ∧
         is_vector w' this l2 c2 ∧ is_vector w' other l1 c1 ∧
         heap w' = heap w ∧ leaked w' = leaked w ∧
         Swap this other w' = (Ok tt, w)) ∧
  Swap this this w = (Ok tt, w).
Proof.
  intros Hne Hvec1 Hvec2. split.
  - destruct (Swap_vectors w this other l1 c1 l2 c2 Hne Hvec1 Hvec2)
      as (w' & Hrun & H1 & H2 & Hh & Hlk & _ & Hback).
    by exists w'.
  - destruct Hvec1 as (v & Hv & _). by eapply Swap_self.
Qed.

Lemma X3_swap_exchanges_witness :
  0 ≠ 1 ∧
  is_vector (two_vectors [Live 1; Live 2; Live 3] 3 [Live 7; Live 8; Raw] 2) 0 [1; 2; 3] 3 ∧
  is_vector (two_vectors [Live 1; Live 2; Live 3] 3 [Live 7; Live 8; Raw] 2) 1 [7; 8] 3 ∧
  ∃ w', Swap 0 1 (two_vectors [Live 1; Live 2; Live 3] 3 [Live 7; Live 8; Raw] 2)
        = (Ok tt, w') ∧
        is_vector w' 0 [7; 8] 3 ∧ is_vector w' 1 [1; 2; 3] 3 ∧
        heap w' = heap (two_vectors [Live 1; Live 2; Live 3] 3 [Live 7; Live 8; Raw] 2) ∧
        leaked w' = leaked (two_vectors [Live 1; Live 2; Live 3] 3 [Live 7; Live 8; Raw] 2) ∧
        Swap 0 1 w'
        = (Ok tt, two_vectors [Live 1; Live 2; Live 3] 3 [Live 7; Live 8; Raw] 2).
Proof.
  assert (is_vector (two_vectors [Live 1; Live 2; Live 3] 3 [Live 7; Live 8; Raw] 2)
            0 [1; 2; 3] 3) as Hvec1.
  { apply (is_vector_block _ 0 [1; 2; 3] 3 0); [lia|cbn; lia|reflexivity|reflexivity]. }
  assert (is_vector (two_vectors [Live 1; Live 2; Live 3] 3 [Live 7; Live 8; Raw] 2)
            1 [7; 8] 3) as Hvec2.
  { apply (is_vector_block _ 1 [7; 8] 3 1); [lia|cbn; lia|reflexivity|reflexivity]. }
  assert (0 ≠ 1) as Hne by lia.
  split; [exact Hne|]. split; [exact Hvec1|]. split; [exact Hvec2|].
  exact (proj1 (X3_swap_exchanges _ 0 1 _ _ 3 3 Hne Hvec1 Hvec2)).
Defined.

(** X4. Move assignment between two different vectors is a swap: the
    target receives the elements and the buffer of the source, the source
    is left with the former elements of the target (it is not emptied), and
    no element is destroyed and no buffer released. *)
Theorem X4_move_assignment_swaps {T : Type} (w : @world T) (this other : nat)
    (l1 l2 : list T) (c1 c2 : nat) :
  this ≠ other → is_vector w this l1 c1 → is_vector w other l2 c2 →
  ∃ w', Vector_move_assign this other w = (Ok tt, w') ∧
        is_vector w' this l2 c2 ∧ is_vector w' other l1 c1 ∧
        heap w' = heap w ∧ leaked w' = leaked w.
Proof.
  intros Hne Hvec1 Hvec2. unfold Vector_move_assign.
  rewrite bool_decide_eq_true_2 by done.
  destruct (Swap_vectors w this other l1 c1 l2 c2 Hne Hvec1 Hvec2)
    as (w' & Hrun & H1 & H2 & Hh & Hlk & _).
  by exists w'.
Qed.

Lemma X4_move_assignment_swaps_witness :
  0 ≠ 1 ∧
  is_vector (two_vectors [Live 1; Live 2; Live 3] 3 [Live 7; Live 8; Raw] 2) 0 [1; 2; 3] 3 ∧
  is_vector (two_vectors [Live 1; Live 2; Live 3] 3 [Live 7; Live 8; Raw] 2) 1 [7; 8] 3 ∧
  ∃ w', Vector_move_assign 0 1
          (two_vectors [Live 1; Live 2; Live 3] 3 [Live 7; Live 8; Raw] 2) = (Ok tt, w') ∧
        is_vector w' 0 [7; 8] 3 ∧ is_vector w' 1 [1; 2; 3] 3 ∧
        heap w' = heap (two_vectors [Live 1; Live 2; Live 3] 3 [Live 7; Live 8; Raw] 2) ∧
        leaked w' = leaked (two_vectors [Live 1; Live 2; Live 3] 3 [Live 7; Live 8; Raw] 2).
Proof.
  assert (is_vector (two_vectors [Live 1; Live 2; Live 3] 3 [Live 7; Live 8; Raw] 2)
            0 [1; 2; 3] 3) as Hvec1.
  { apply (is_vector_block _ 0 [1; 2; 3] 3 0); [lia|cbn; lia|reflexivity|reflexivity]. }
  assert (is_vector (two_vectors [Live 1; Live 2; Live 3] 3 [Live 7; Live 8; Raw] 2)
            1 [7; 8] 3) as Hvec2.
  { apply (is_vector_block _ 1 [7; 8] 3 1); [lia|cbn; lia|reflexivity|reflexivity]. }
  assert (0 ≠ 1) as Hne by lia.
  split; [exact Hne|]. split; [exact Hvec1|]. split; [exact Hvec2|].
  exact (X4_move_assignment_swaps _ 0 1 _ _ 3 3 Hne Hvec1 Hvec2).
Defined.

(** X5. [Vector(n)] at an address that holds no vector, for [n] with
    [n * sizeof(T)] in the range of [size_t]: when it returns, the vector
    holds [n] value-initialised elements with capacity [n] ([n = 0]
    allocates nothing) and the other vectors and blocks are as they were;
    when the allocation or a constructor raises, the elements built so far
    are destroyed, the buffer is released and heap and vectors are as before
    the call. *)
Theorem X5_sized_constructor {T : Type} {E : ElemType T} {A : Allocator} {Sz : SizeOf T}
    (w : @world T) (this n : nat) :
  vecs w !! this = None → fits_size_t n →
  match Vector_sized this n w with
  | (Ok _, w') =>
      is_vector w' this (replicate n value_initialized) n ∧
      leaked w' = leaked w ∧
      (∀ a, a ≠ this → vecs w' !! a = vecs w !! a) ∧
      (∀ b, is_Some (heap w !! b) → heap w' !! b = heap w !! b)
  | (Throw _, w') =>
      ¬ nothing_raises ∧ heap w' = heap w ∧ vecs w' = vecs w ∧ leaked w' = leaked w
  | _ => False
  end.
Proof. intros Hnew _. by apply Vector_sized_spec. Qed.

Lemma X5_sized_constructor_witness :
  vecs (vector_world [Live 1; Live 2; Raw] 2) !! 1 = None ∧
  fits_size_t (Sz:=int_size) 2 ∧
  match Vector_sized (E:=int_elem) (A:=plenty) 1 2 (vector_world [Live 1; Live 2; Raw] 2) with
  | (Ok _, w') =>
      is_vector w' 1 [0; 0] 2 ∧
      leaked w' = leaked (vector_world [Live 1; Live 2; Raw] 2) ∧
      (∀ a, a ≠ 1 → vecs w' !! a = vecs (vector_world [Live 1; Live 2; Raw] 2) !! a) ∧
      (∀ b, is_Some (heap (vector_world [Live 1; Live 2; Raw] 2) !! b) →
            heap w' !! b = heap (vector_world [Live 1; Live 2; Raw] 2) !! b)
  | (Throw _, w') =>
      ¬ nothing_raises (E:=int_elem) (A:=plenty) ∧
      heap w' = heap (vector_world [Live 1; Live 2; Raw] 2) ∧
      vecs w' = vecs (vector_world [Live 1; Live 2; Raw] 2) ∧
      leaked w' = leaked (vector_world [Live 1; Live 2; Raw] 2)
  | _ => False
  end.
Proof.
  assert (vecs (vector_world [Live 1; Live 2; Raw] 2) !! 1 = None) as Hnew by reflexivity.
  assert (fits_size_t (Sz:=int_size) 2) as Hfits by (by vm_compute).
  split; [exact Hnew|]. split; [exact Hfits|].
  exact (X5_sized_constructor (E:=int_elem) (A:=plenty) (Sz:=int_size) _ 1 2 Hnew Hfits).
Defined.

(** X6. Copy construction [Vector a(b)] at an address that holds no
    vector: when it returns, [a] holds the elements of [b] in a buffer of
    its own whose capacity is the size of [b] (not its capacity), and [b],
    the other vectors and the other blocks are as they were; when it raises,
    heap and vectors are as before the call and nothing is leaked. *)
Theorem X6_copy_constructor {T : Type} {E : ElemType T} {A : Allocator}
    (w : @world T) (this other : nat) (l : list T) (cap : nat) :
  vecs w !! this = None → is_vector w other l cap →
  match Vector_copy_ctor this other w with
  | (Ok _, w') =>
      is_vector w' this l (length l) ∧ is_vector w' other l cap ∧
      disjoint_buffers w' this other ∧
      leaked w' = leaked w ∧
      (∀ a, a ≠ this → vecs w' !! a = vecs w !! a) ∧
      (∀ b, is_Some (heap w !! b) → heap w' !! b = heap w !! b)
  | (Throw _, w') =>
      ¬ nothing_raises ∧ heap w' = heap w ∧ vecs w' = vecs w ∧ leaked w' = leaked w
  | _ => False
  end.
Proof. apply Vector_copy_ctor_spec. Qed.

Lemma X6_copy_constructor_witness :
  vecs (vector_world [Live 1; Live 2; Raw] 2) !! 1 = None ∧
  is_vector (vector_world [Live 1; Live 2; Raw] 2) 0 [1; 2] 3 ∧
  match Vector_copy_ctor (E:=int_elem) (A:=plenty) 1 0
          (vector_world [Live 1; Live 2; Raw] 2) with
  | (Ok _, w') =>
      is_vector w' 1 [1; 2] 2 ∧ is_vector w' 0 [1; 2] 3 ∧
      disjoint_buffers w' 1 0 ∧
      leaked w' = leaked (vector_world [Live 1; Live 2; Raw] 2) ∧
      (∀ a, a ≠ 1 → vecs w' !! a = vecs (vector_world [Live 1; Live 2; Raw] 2) !! a) ∧
      (∀ b, is_Some (heap (vector_world [Live 1; Live 2; Raw] 2) !! b) →
            heap w' !! b = heap (vector_world [Live 1; Live 2; Raw] 2) !! b)
  | (Throw _, w') =>
      ¬ nothing_raises (E:=int_elem) (A:=plenty) ∧
      heap w' = heap (vector_world [Live 1; Live 2; Raw] 2) ∧
      vecs w' = vecs (vector_world [Live 1; Live 2; Raw] 2) ∧
      leaked w' = leaked (vector_world [Live 1; Live 2; Raw] 2)
  | _ => False
  end.
Proof.
  assert (vecs (vector_world [Live 1; Live 2; Raw] 2) !! 1 = None) as Hnew by reflexivity.
  assert (is_vector (vector_world [Live 1; Live 2; Raw] 2) 0 [1; 2] 3) as Hvec.
  { apply (is_vector_block _ 0 [1; 2] 3 0); [lia|cbn; lia|reflexivity|reflexivity]. }
  split; [exact Hnew|]. split; [exact Hvec|].
  exact (X6_copy_constructor (E:=int_elem) (A:=plenty) _ 1 0 [1; 2] 3 Hnew Hvec).
Defined.

(** X7. The destructor of a vector returns; it destroys every element
    (nothing is leaked), releases the buffer if there is one, and leaves
    every other block and every other vector as it was. *)
Theorem X7_destructor {T : Type} (w : @world T) (this : nat) (l : list T) (cap : nat)
    (v : Vector) :
  is_vector w this l cap → vecs w !! this = Some v →
  ∃ w', Vector_dtor this w = (Ok tt, w') ∧
        vecs w' = delete this (vecs w) ∧
        leaked w' = leaked w ∧
        (∀ b, heap w' !! b
              = if bool_decide (base (buffer_ (data_ v)) = Some b) then None
                else heap w !! b).
Proof.
  intros Hvec Hv.
  destruct (Vector_dtor_spec w this l cap v Hvec Hv) as (w' & Hrun & Hvs & Hlk & _ & Hh).
  by exists w'.
Qed.

Lemma X7_destructor_witness :
  is_vector (vector_world [Live 1; Live 2; Raw] 2) 0 [1; 2] 3 ∧
  vecs (vector_world [Live 1; Live 2; Raw] 2) !! 0
  = Some (mkVector (mkRawMemory (Ptr (Some 0) 0) 3) 2) ∧
  ∃ w', Vector_dtor 0 (vector_world [Live 1; Live 2; Raw] 2) = (Ok tt, w') ∧
        vecs w' = delete 0 (vecs (vector_world [Live 1; Live 2; Raw] 2)) ∧
        leaked w' = leaked (vector_world [Live 1; Live 2; Raw] 2) ∧
        (∀ b, heap w' !! b
              = if bool_decide (Some 0 = Some b) then None
                else heap (vector_world [Live 1; Live 2; Raw] 2) !! b).
Proof.
  assert (is_vector (vector_world [Live 1; Live 2; Raw] 2) 0 [1; 2] 3) as Hvec.
  { apply (is_vector_block _ 0 [1; 2] 3 0); [lia|cbn; lia|reflexivity|reflexivity]. }
  assert (vecs (vector_world [Live 1; Live 2; Raw] 2) !! 0
          = Some (mkVector (mkRawMemory (Ptr (Some 0) 0) 3) 2)) as Hv by reflexivity.
  split; [exact Hvec|]. split; [exact Hv|].
  exact (X7_destructor _ 0 [1; 2] 3 _ Hvec Hv).
Defined.

(** X8. A copy of a vector that is then destroyed leaves no trace: whether
    the copy succeeds or raises, the heap, the vectors and the log of leaked
    objects are as before. *)
Theorem X8_copy_then_destroy {T : Type} {E : ElemType T} {A : Allocator}
    (w : @world T) (this other : nat) (l : list T) (cap : nat) :
  vecs w !! this = None → is_vector w other l cap →
  match (Vector_copy_ctor this other ;; Vector_dtor this) w with
  | (Ok _, w') | (Throw _, w') =>
      heap w' = heap w ∧ vecs w' = vecs w ∧ leaked w' = leaked w
  | _ => False
  end.
Proof. apply Vector_copy_then_destroy. Qed.

Lemma X8_copy_then_destroy_witness :
  vecs (vector_world [Live 1; Live 2; Raw] 2) !! 1 = None ∧
  is_vector (vector_world [Live 1; Live 2; Raw] 2) 0 [1; 2] 3 ∧
  match (Vector_copy_ctor (E:=int_elem) (A:=plenty) 1 0 ;; Vector_dtor 1)
          (vector_world [Live 1; Live 2; Raw] 2) with
  | (Ok _, w') | (Throw _, w') =>
      heap w' = heap (vector_world [Live 1; Live 2; Raw] 2) ∧
      vecs w' = vecs (vector_world [Live 1; Live 2; Raw] 2) ∧
      leaked w' = leaked (vector_world [Live 1; Live 2; Raw] 2)
  | _ => False
  end.
Proof.
  assert (vecs (vector_world [Live 1; Live 2; Raw] 2) !! 1 = None) as Hnew by reflexivity.
  assert (is_vector (vector_world [Live 1; Live 2; Raw] 2) 0 [1; 2] 3) as Hvec.
  { apply (is_vector_block _ 0 [1; 2] 3 0); [lia|cbn; lia|reflexivity|reflexivity]. }
  split; [exact Hnew|]. split; [exact Hvec|].
  exact (X8_copy_then_destroy (E:=int_elem) (A:=plenty) _ 1 0 [1; 2] 3 Hnew Hvec).
Defined.

(** X9. [Resize(n)] on the sequence [l] with capacity [cap], for [n] with
    [n * sizeof(T)] in the range of [size_t]. When it returns, the sequence
    is the first [n] elements of [l], followed by [n - size]
    value-initialised elements when [n > size], and the capacity is
    [max(cap, n)]. When it raises (and the relocation of [T] cannot lose
    elements), the sequence is still [l]. [Resize] does not give the strong
    guarantee: when [n > cap], allocation and relocation succeed and a
    constructor of the new elements raises, the call raises and the
    capacity is [n], no longer [cap]. *)
Theorem X9_resize {T : Type} {E : ElemType T} {A : Allocator} {Sz : SizeOf T}
    (w : @world T) (this : nat) (l : list T) (cap n : nat) :
  is_vector w this l cap → fits_size_t n →
  (match Resize this n w with
   | (Ok _, w') =>
       is_vector w' this (take n l ++ replicate (n - length l) value_initialized)
         (Nat.max cap n)
   | (Throw _, w') =>
       ¬ nothing_raises ∧
       (is_nothrow_move_constructible || is_copy_constructible = true →
        is_vector w' this l cap ∨ is_vector w' this l n)
   | _ => False
   end) ∧
  (cap < n →
   new_throws (clock w) n = false →
   first_failure relocation_raises (S (clock w)) l = None →
   first_failure ctor_throws (S (clock w) + length l)
     (replicate (n - length l) value_initialized) ≠ None →
   ∃ w', Resize this n w = (Throw element_failure, w') ∧
         is_vector w' this l n ∧ ¬ is_vector w' this l cap).
Proof.
  intros Hvec _. split.
  - by apply Resize_spec.
  - by apply Resize_fill_failure.
Qed.

Lemma X9_resize_witness :
  is_vector (vector_world [Live 1] 1) 0 [1] 1 ∧
  fits_size_t (Sz:=int_size) 3 ∧
  1 < 3 ∧
  new_throws (Allocator:=plenty) (clock (vector_world [Live 1] 1)) 3 = false ∧
  first_failure (relocation_raises (E:=throwing_ctor))
    (S (clock (vector_world [Live 1] 1))) [1] = None ∧
  first_failure (ctor_throws (ElemType:=throwing_ctor))
    (S (clock (vector_world [Live 1] 1)) + 1) [0; 0] ≠ None ∧
  ∃ w', Resize (E:=throwing_ctor) (A:=plenty) 0 3 (vector_world [Live 1] 1)
        = (Throw element_failure, w') ∧
        is_vector w' 0 [1] 3 ∧ ¬ is_vector w' 0 [1] 1.
Proof.
  assert (is_vector (vector_world [Live 1] 1) 0 [1] 1) as Hvec.
  { apply (is_vector_block _ 0 [1] 1 0); [lia|cbn; lia|reflexivity|reflexivity]. }
  assert (fits_size_t (Sz:=int_size) 3) as Hfits by (by vm_compute).
  assert (1 < 3) as Hn by lia.
  assert (new_throws (Allocator:=plenty) (clock (vector_world [Live 1] 1)) 3 = false)
    as Halloc by reflexivity.
  assert (first_failure (relocation_raises (E:=throwing_ctor))
            (S (clock (vector_world [Live 1] 1))) [1] = None) as Hreloc by reflexivity.
  assert (first_failure (ctor_throws (ElemType:=throwing_ctor))
            (S (clock (vector_world [Live 1] 1)) + 1) [0; 0] ≠ None) as Hfill
    by (by vm_compute).
  split; [exact Hvec|]. split; [exact Hfits|]. split; [exact Hn|].
  split; [exact Halloc|]. split; [exact Hreloc|]. split; [exact Hfill|].
  exact (proj2 (X9_resize (E:=throwing_ctor) (A:=plenty) (Sz:=int_size)
                  _ 0 [1] 1 3 Hvec Hfits) Hn Halloc Hreloc Hfill).
Defined.

(** X10. [EmplaceBack] on a vector with [size < capacity] does not
    reallocate: the new element is built at the former [end()], the buffer
    and every element stay where they were, and nothing is leaked; when the
    constructor raises, heap and vector are as before the call, whatever the
    type [T]. *)
Theorem X10_append_in_place {T : Type} {E : ElemType T} {A : Allocator}
    (w : @world T) (this : nat) (l : list T) (cap : nat) (v : Vector) (a : ctor_args T) :
  is_vector w this l cap → vecs w !! this = Some v → length l < cap →
  match EmplaceBack this a w with
  | (Ok p, w') =>
      p = end_ v ∧
      is_vector w' this (l ++ [arg_value a]) cap ∧
      (∃ v', vecs w' !! this = Some v' ∧ data_ v' = data_ v) ∧
      (∀ i x, l !! i = Some x → cell_at w' (begin v +ₚ i) = Some (Live x)) ∧
      cell_at w' p = Some (Live (arg_value a)) ∧
      leaked w' = leaked w
  | (Throw _, w') =>
      ¬ nothing_raises ∧ heap w' = heap w ∧ vecs w' = vecs w ∧ leaked w' = leaked w
  | _ => False
  end.
Proof. apply EmplaceBack_in_place_spec. Qed.

Lemma X10_append_in_place_witness :
  is_vector (vector_world [Live 1; Live 2; Raw] 2) 0 [1; 2] 3 ∧
  vecs (vector_world [Live 1; Live 2; Raw] 2) !! 0
  = Some (mkVector (mkRawMemory (Ptr (Some 0) 0) 3) 2) ∧
  2 < 3 ∧
  match EmplaceBack (E:=int_elem) (A:=plenty) 0 (ByArgs 5)
          (vector_world [Live 1; Live 2; Raw] 2) with
  | (Ok p, w') =>
      p = Ptr (Some 0) 2 ∧
      is_vector w' 0 [1; 2; 5] 3 ∧
      (∃ v', vecs w' !! 0 = Some v' ∧ data_ v' = mkRawMemory (Ptr (Some 0) 0) 3) ∧
      (∀ i x, [1; 2] !! i = Some x → cell_at w' (Ptr (Some 0) (0 + i)) = Some (Live x)) ∧
      cell_at w' p = Some (Live 5) ∧
      leaked w' = leaked (vector_world [Live 1; Live 2; Raw] 2)
  | (Throw _, w') =>
      ¬ nothing_raises (E:=int_elem) (A:=plenty) ∧
      heap w' = heap (vector_world [Live 1; Live 2; Raw] 2) ∧
      vecs w' = vecs (vector_world [Live 1; Live 2; Raw] 2) ∧
      leaked w' = leaked (vector_world [Live 1; Live 2; Raw] 2)
  | _ => False
  end.
Proof.
  assert (is_vector (vector_world [Live 1; Live 2; Raw] 2) 0 [1; 2] 3) as Hvec.
  { apply (is_vector_block _ 0 [1; 2] 3 0); [lia|cbn; lia|reflexivity|reflexivity]. }
  assert (vecs (vector_world [Live 1; Live 2; Raw] 2) !! 0
          = Some (mkVector (mkRawMemory (Ptr (Some 0) 0) 3) 2)) as Hv by reflexivity.
  assert (2 < 3) as Hroom by lia.
  split; [exact Hvec|]. split; [exact Hv|]. split; [exact Hroom|].
  exact (X10_append_in_place (E:=int_elem) (A:=plenty) _ 0 [1; 2] 3 _ (ByArgs 5)
           Hvec Hv Hroom).
Defined.

(** X11. A run of [PushBack] calls appends the values in order and never
    lowers the capacity. When the values fit in the capacity, the buffer is
    never replaced and the elements stay where they were; if one of the
    calls raises, the values before it have been appended and nothing is
    leaked. *)
Theorem X11_push_back_all {T : Type} {E : ElemType T} {A : Allocator}
    (w : @world T) (this : nat) (l : list T) (cap : nat) (v : Vector) (xs : list T) :
  is_vector w this l cap → vecs w !! this = Some v →
  (match push_back_all this xs w with
   | (Ok _, w') => ∃ cap', cap ≤ cap' ∧ is_vector w' this (l ++ xs) cap'
   | (Throw _, w') => ¬ nothing_raises
   | _ => False
   end) ∧
  (length l + length xs ≤ cap →
   match push_back_all this xs w with
   | (Ok _, w') =>
       is_vector w' this (l ++ xs) cap ∧
       (∃ v', vecs w' !! this = Some v' ∧ data_ v' = data_ v) ∧
       (∀ i x, l !! i = Some x → cell_at w' (begin v +ₚ i) = Some (Live x)) ∧
       leaked w' = leaked w
   | (Throw _, w') =>
       ¬ nothing_raises ∧
       (∃ n, n < length xs ∧ is_vector w' this (l ++ take n xs) cap) ∧
       leaked w' = leaked w
   | _ => False
   end).
Proof.
  intros Hvec Hv. split.
  - by apply push_back_all_spec.
  - intros Hfit. by apply push_back_all_fits.
Qed.

Lemma X11_push_back_all_witness :
  is_vector (vector_world [Live 1; Raw; Raw] 1) 0 [1] 3 ∧
  vecs (vector_world [Live 1; Raw; Raw] 1) !! 0
  = Some (mkVector (mkRawMemory (Ptr (Some 0) 0) 3) 1) ∧
  match push_back_all (E:=int_elem) (A:=plenty) 0 [5; 6] (vector_world [Live 1; Raw; Raw] 1) with
  | (Ok _, w') =>
      is_vector w' 0 [1; 5; 6] 3 ∧
      (∃ v', vecs w' !! 0 = Some v' ∧ data_ v' = mkRawMemory (Ptr (Some 0) 0) 3) ∧
      (∀ i x, [1] !! i = Some x → cell_at w' (Ptr (Some 0) (0 + i)) = Some (Live x)) ∧
      leaked w' = leaked (vector_world [Live 1; Raw; Raw] 1)
  | (Throw _, w') =>
      ¬ nothing_raises (E:=int_elem) (A:=plenty) ∧
      (∃ n, n < 2 ∧ is_vector w' 0 ([1] ++ take n [5; 6]) 3) ∧
      leaked w' = leaked (vector_world [Live 1; Raw; Raw] 1)
  | _ => False
  end.
Proof.
  assert (is_vector (vector_world [Live 1; Raw; Raw] 1) 0 [1] 3) as Hvec.
  { apply (is_vector_block _ 0 [1] 3 0); [lia|cbn; lia|reflexivity|reflexivity]. }
  assert (vecs (vector_world [Live 1; Raw; Raw] 1) !! 0
          = Some (mkVector (mkRawMemory (Ptr (Some 0) 0) 3) 1)) as Hv by reflexivity.
  split; [exact Hvec|]. split; [exact Hv|].
  exact (proj2 (X11_push_back_all (E:=int_elem) (A:=plenty) _ 0 [1] 3 _ [5; 6] Hvec Hv)
           ltac:(cbn; lia)).
Defined.

(** X12. [PushBack(x)] followed by [PopBack()] gives the sequence back;
    the capacity is the one the append left, [max(1, 2 * cap)] if the
    vector was full. *)
Theorem X12_push_back_then_pop_back {T : Type} {E : ElemType T} {A : Allocator}
    (w : @world T) (this : nat) (l : list T) (cap : nat) (x : T) :
  is_vector w this l cap →
  match (PushBack this x ;; PopBack this) w with
  | (Ok _, w') => is_vector w' this l (if length l =? cap then Nat.max 1 (2 * cap) else cap)
  | (Throw _, w') => ¬ nothing_raises
  | _ => False
  end.
Proof. apply PushBack_then_PopBack. Qed.

Lemma X12_push_back_then_pop_back_witness :
  is_vector (vector_world [Live 1; Live 2] 2) 0 [1; 2] 2 ∧
  match (PushBack (E:=int_elem) (A:=plenty) 0 5 ;; PopBack 0)
          (vector_world [Live 1; Live 2] 2) with
  | (Ok _, w') => is_vector w' 0 [1; 2] 4
  | (Throw _, w') => ¬ nothing_raises (E:=int_elem) (A:=plenty)
  | _ => False
  end.
Proof.
  assert (is_vector (vector_world [Live 1; Live 2] 2) 0 [1; 2] 2) as Hvec.
  { apply (is_vector_block _ 0 [1; 2] 2 0); [lia|cbn; lia|reflexivity|reflexivity]. }
  split; [exact Hvec|].
  exact (X12_push_back_then_pop_back (E:=int_elem) (A:=plenty) _ 0 [1; 2] 2 5 Hvec).
Defined.

(** X13. For a type whose move leaves its source equal (an [int]) and
    constructor arguments [args] that refer to no element of the vector,
    [Emplace(pos, args)] followed by [Erase] at the position returned gives
    the sequence back, with the capacity the insertion left; the pointer
    returned holds the element that was at [d], or is [end()]. *)
Theorem X13_emplace_then_erase {T : Type} {E : ElemType T} {A : Allocator}
    (w : @world T) (this : nat) (l : list T) (cap : nat) (v : Vector) (d : nat)
    (x : T) :
  (∀ y, moved_from y = y) →
  is_vector w this l cap → vecs w !! this = Some v → d ≤ length l →
  match (p <- Emplace this (begin v +ₚ d) (ByArgs x) ;; Erase this p) w with
  | (Ok q, w') =>
      is_vector w' this l (if length l =? cap then Nat.max 1 (2 * cap) else cap) ∧
      match l !! d with
      | Some y => cell_at w' q = Some (Live y)
      | None => ∃ v', vecs w' !! this = Some v' ∧ q = end_ v'
      end
  | (Throw _, w') => ¬ nothing_raises
  | _ => False
  end.
Proof. apply Emplace_then_Erase. Qed.

Lemma X13_emplace_then_erase_witness :
  (∀ y, moved_from (ElemType:=int_elem) y = y) ∧
  is_vector (vector_world [Live 1; Live 2; Raw] 2) 0 [1; 2] 3 ∧
  vecs (vector_world [Live 1; Live 2; Raw] 2) !! 0
  = Some (mkVector (mkRawMemory (Ptr (Some 0) 0) 3) 2) ∧
  1 ≤ 2 ∧
  match (p <- Emplace (E:=int_elem) (A:=plenty) 0 (Ptr (Some 0) 1) (ByArgs 9) ;;
         Erase (E:=int_elem) 0 p) (vector_world [Live 1; Live 2; Raw] 2) with
  | (Ok q, w') => is_vector w' 0 [1; 2] 3 ∧ cell_at w' q = Some (Live 2)
  | (Throw _, w') => ¬ nothing_raises (E:=int_elem) (A:=plenty)
  | _ => False
  end.
Proof.
  assert (∀ y, moved_from (ElemType:=int_elem) y = y) as Hmove by (intros y; reflexivity).
  assert (is_vector (vector_world [Live 1; Live 2; Raw] 2) 0 [1; 2] 3) as Hvec.
  { apply (is_vector_block _ 0 [1; 2] 3 0); [lia|cbn; lia|reflexivity|reflexivity]. }
  assert (vecs (vector_world [Live 1; Live 2; Raw] 2) !! 0
          = Some (mkVector (mkRawMemory (Ptr (Some 0) 0) 3) 2)) as Hv by reflexivity.
  assert (1 ≤ 2) as Hd by lia.
  split; [exact Hmove|]. split; [exact Hvec|]. split; [exact Hv|]. split; [exact Hd|].
  exact (X13_emplace_then_erase (E:=int_elem) (A:=plenty) _ 0 [1; 2] 3 _ 1 9
           Hmove Hvec Hv Hd).
Defined.

(** X14. A position [begin() + d] past [end()] (with [size < d <=
    capacity]) fails the assertion of [Emplace] and of [Erase]: the call
    aborts and nothing has been changed. *)
Theorem X14_position_past_end_aborts {T : Type} {E : ElemType T} {A : Allocator}
    (w : @world T) (this : nat) (v : Vector) (d : nat) (a : ctor_args T) :
  vecs w !! this = Some v → size_ v < d → d ≤ Capacity v →
  Emplace this (begin v +ₚ d) a w = (Abort, w) ∧
  Erase this (begin v +ₚ d) w = (Abort, w).
Proof. intros Hv Hd _. by apply position_past_end. Qed.

Lemma X14_position_past_end_aborts_witness :
  vecs (vector_world [Live 1; Live 2; Raw; Raw] 2) !! 0
  = Some (mkVector (mkRawMemory (Ptr (Some 0) 0) 4) 2) ∧
  2 < 3 ∧ 3 ≤ 4 ∧
  Emplace (E:=int_elem) (A:=plenty) 0 (Ptr (Some 0) 3) (ByArgs 9)
    (vector_world [Live 1; Live 2; Raw; Raw] 2)
  = (Abort, vector_world [Live 1; Live 2; Raw; Raw] 2) ∧
  Erase (E:=int_elem) 0 (Ptr (Some 0) 3) (vector_world [Live 1; Live 2; Raw; Raw] 2)
  = (Abort, vector_world [Live 1; Live 2; Raw; Raw] 2).
Proof.
  assert (vecs (vector_world [Live 1; Live 2; Raw; Raw] 2) !! 0
          = Some (mkVector (mkRawMemory (Ptr (Some 0) 0) 4) 2)) as Hv by reflexivity.
  assert (2 < 3) as Hd by lia. assert (3 ≤ 4) as Hc by lia.
  split; [exact Hv|]. split; [exact Hd|]. split; [exact Hc|].
  exact (X14_position_past_end_aborts (E:=int_elem) (A:=plenty) _ 0 _ 3 (ByArgs 9)
           Hv Hd Hc).
Defined.

(** X15. [Erase] at an offset [d < size] never leaks. When a move
    assignment of the shift raises, no element has been destroyed: the
    vector holds as many elements as before, with the same capacity in the
    same buffer, and the elements before [d] are as they were. *)
Theorem X15_erase_failure {T : Type} {E : ElemType T}
    (w : @world T) (this : nat) (l : list T) (cap : nat) (v : Vector) (d : nat) :
  is_vector w this l cap → vecs w !! this = Some v → d < length l →
  match Erase this (begin v +ₚ d) w with
  | (Ok _, w') => leaked w' = leaked w
  | (Throw _, w') =>
      (∃ l', is_vector w' this l' cap ∧ length l' = length l ∧ take d l' = take d l) ∧
      vecs w' = vecs w ∧ leaked w' = leaked w
  | _ => False
  end.
Proof. apply Erase_failure. Qed.

Lemma X15_erase_failure_witness :
  is_vector (vector_world [Live 7; Live 8; Live 9; Live 10; Live 11] 5) 0
    [7; 8; 9; 10; 11] 5 ∧
  vecs (vector_world [Live 7; Live 8; Live 9; Live 10; Live 11] 5) !! 0
  = Some (mkVector (mkRawMemory (Ptr (Some 0) 0) 5) 5) ∧
  1 < 5 ∧
  match Erase (E:=throwing_move_assign) 0 (Ptr (Some 0) 1)
          (vector_world [Live 7; Live 8; Live 9; Live 10; Live 11] 5) with
  | (Ok _, w') =>
      leaked w' = leaked (vector_world [Live 7; Live 8; Live 9; Live 10; Live 11] 5)
  | (Throw _, w') =>
      (∃ l', is_vector w' 0 l' 5 ∧ length l' = 5 ∧ take 1 l' = [7]) ∧
      vecs w' = vecs (vector_world [Live 7; Live 8; Live 9; Live 10; Live 11] 5) ∧
      leaked w' = leaked (vector_world [Live 7; Live 8; Live 9; Live 10; Live 11] 5)
  | _ => False
  end.
Proof.
  assert (is_vector (vector_world [Live 7; Live 8; Live 9; Live 10; Live 11] 5) 0
            [7; 8; 9; 10; 11] 5) as Hvec.
  { apply (is_vector_block _ 0 [7; 8; 9; 10; 11] 5 0);
      [lia|cbn; lia|reflexivity|reflexivity]. }
  assert (vecs (vector_world [Live 7; Live 8; Live 9; Live 10; Live 11] 5) !! 0
          = Some (mkVector (mkRawMemory (Ptr (Some 0) 0) 5) 5)) as Hv by reflexivity.
  assert (1 < 5) as Hd by lia.
  split; [exact Hvec|]. split; [exact Hv|]. split; [exact Hd|].
  exact (X15_erase_failure (E:=throwing_move_assign) _ 0 [7; 8; 9; 10; 11] 5 _ 1
           Hvec Hv Hd).
Defined.

(** X16. [RawMemory(n)] for [n] with [n * sizeof(T)] in the range of
    [size_t]: [operator new] is asked for exactly the bytes of [n] cells,
    and the constructor either returns a buffer of capacity [n] that
    satisfies the invariant of [RawMemory], made of [n] raw cells in a block
    that did not exist before ([n = 0]: no block), with every other block
    untouched, and whose destructor restores the heap; or, for [n > 0]
    only, raises [bad_alloc] and leaves the heap as it was. *)
Theorem X16_raw_memory_lifetime {T : Type} {A : Allocator} {Sz : SizeOf T}
    (w : @world T) (n : nat) :
  fits_size_t n →
  (requested_bytes n / sizeof)%N = N.of_nat n ∧
  match RawMemory_ctor n w with
  | (Ok m, w') =>
      capacity_ m = n ∧ RawMemory_inv m ∧
      buffer_cells w' m = Some (replicate n Raw) ∧
      (∀ b, base (buffer_ m) = Some b → heap w !! b = None) ∧
      (∀ b, is_Some (heap w !! b) → heap w' !! b = heap w !! b) ∧
      ∃ w'', RawMemory_dtor m w' = (Ok tt, w'') ∧
             heap w'' = heap w ∧ leaked w'' = leaked w
  | (Throw e, w') =>
      e = bad_alloc ∧ n ≠ 0 ∧ new_throws (clock w) n = true ∧
      heap w' = heap w ∧ leaked w' = leaked w
  | _ => False
  end.
Proof.
  intros Hfits. split.
  - by apply requested_bytes_fits.
  - apply RawMemory_ctor_dtor.
Qed.

Lemma X16_raw_memory_lifetime_witness :
  fits_size_t (Sz:=int_size) 3 ∧
  (requested_bytes (Sz:=int_size) 3 / 4)%N = 3%N ∧
  match RawMemory_ctor (A:=plenty) 3 (vector_world [Live 1; Live 2] 2) with
  | (Ok m, w') =>
      capacity_ m = 3 ∧ RawMemory_inv m ∧
      buffer_cells w' m = Some [Raw; Raw; Raw] ∧
      (∀ b, base (buffer_ m) = Some b → heap (vector_world [Live 1; Live 2] 2) !! b = None) ∧
      (∀ b, is_Some (heap (vector_world [Live 1; Live 2] 2) !! b) →
            heap w' !! b = heap (vector_world [Live 1; Live 2] 2) !! b) ∧
      ∃ w'', RawMemory_dtor m w' = (Ok tt, w'') ∧
             heap w'' = heap (vector_world [Live 1; Live 2] 2) ∧
             leaked w'' = leaked (vector_world [Live 1; Live 2] 2)
  | (Throw e, w') =>
      e = bad_alloc ∧ 3 ≠ 0 ∧
      new_throws (Allocator:=plenty) (clock (vector_world [Live 1; Live 2] 2)) 3 = true ∧
      heap w' = heap (vector_world [Live 1; Live 2] 2) ∧
      leaked w' = leaked (vector_world [Live 1; Live 2] 2)
  | _ => False
  end.
Proof.
  assert (fits_size_t (Sz:=int_size) 3) as Hfits by (by vm_compute).
  split; [exact Hfits|].
  exact (X16_raw_memory_lifetime (A:=plenty) (Sz:=int_size)
           (vector_world [Live 1; Live 2] 2) 3 Hfits).
Defined.

(** X17. A [Reserve(n)] with [n > capacity] ([n * sizeof(T)] in the
    range of [size_t]) that returns has moved the elements to a block that
    did not exist before and has released the block they were in, so that
    every pointer into the old buffer dangles; no object is leaked, whether
    the call returns or raises. *)
Theorem X17_reserve_moves_buffer {T : Type} {E : ElemType T} {A : Allocator}
    {Sz : SizeOf T}
    (w : @world T) (this : nat) (l : list T) (cap n : nat) (v : Vector) :
  is_vector w this l cap → vecs w !! this = Some v → cap < n → fits_size_t n →
  match Reserve this n w with
  | (Ok _, w') =>
      (∀ b, base (buffer_ (data_ v)) = Some b → heap w' !! b = None) ∧
      (∃ v' b', vecs w' !! this = Some v' ∧ base (buffer_ (data_ v')) = Some b' ∧
                heap w !! b' = None) ∧
      leaked w' = leaked w
  | (Throw _, w') => leaked w' = leaked w
  | _ => False
  end.
Proof. intros Hvec Hv Hn _. by apply (Reserve_moves_buffer w this l cap). Qed.

Lemma X17_reserve_moves_buffer_witness :
  is_vector (vector_world [Live 1; Live 2] 2) 0 [1; 2] 2 ∧
  vecs (vector_world [Live 1; Live 2] 2) !! 0
  = Some (mkVector (mkRawMemory (Ptr (Some 0) 0) 2) 2) ∧
  2 < 4 ∧ fits_size_t (Sz:=int_size) 4 ∧
  match Reserve (E:=int_elem) (A:=plenty) 0 4 (vector_world [Live 1; Live 2] 2) with
  | (Ok _, w') =>
      (∀ b, Some 0 = Some b → heap w' !! b = None) ∧
      (∃ v' b', vecs w' !! 0 = Some v' ∧ base (buffer_ (data_ v')) = Some b' ∧
                heap (vector_world [Live 1; Live 2] 2) !! b' = None) ∧
      leaked w' = leaked (vector_world [Live 1; Live 2] 2)
  | (Throw _, w') => leaked w' = leaked (vector_world [Live 1; Live 2] 2)
  | _ => False
  end.
Proof.
  assert (is_vector (vector_world [Live 1; Live 2] 2) 0 [1; 2] 2) as Hvec.
  { apply (is_vector_block _ 0 [1; 2] 2 0); [lia|cbn; lia|reflexivity|reflexivity]. }
  assert (vecs (vector_world [Live 1; Live 2] 2) !! 0
          = Some (mkVector (mkRawMemory (Ptr (Some 0) 0) 2) 2)) as Hv by reflexivity.
  assert (2 < 4) as Hn by lia.
  assert (fits_size_t (Sz:=int_size) 4) as Hfits by (by vm_compute).
  split; [exact Hvec|]. split; [exact Hv|]. split; [exact Hn|]. split; [exact Hfits|].
  exact (X17_reserve_moves_buffer (E:=int_elem) (A:=plenty) (Sz:=int_size)
           _ 0 [1; 2] 2 4 _ Hvec Hv Hn Hfits).
Defined.

(** X18. After a growing [Reserve(n)] ([n * sizeof(T)] in the range of
    [size_t]), a run of [PushBack] calls that brings the size to at most
    [n] appends the values in order and leaves the capacity exactly [n]. *)
Theorem X18_reserve_then_push_back {T : Type} {E : ElemType T} {A : Allocator}
    {Sz : SizeOf T}
    (w : @world T) (this : nat) (l : list T) (cap n : nat) (xs : list T) :
  is_vector w this l cap → cap < n → fits_size_t n → length l + length xs ≤ n →
  match (Reserve this n ;; push_back_all this xs) w with
  | (Ok _, w') => is_vector w' this (l ++ xs) n
  | (Throw _, w') => ¬ nothing_raises
  | _ => False
  end.
Proof. intros Hvec Hn _ Hfit. by apply (Reserve_then_push_back_all w this l cap). Qed.

Lemma X18_reserve_then_push_back_witness :
  is_vector (vector_world [Live 1; Live 2] 2) 0 [1; 2] 2 ∧
  2 < 5 ∧ fits_size_t (Sz:=int_size) 5 ∧ 2 + 3 ≤ 5 ∧
  match (Reserve (E:=int_elem) (A:=plenty) 0 5 ;;
         push_back_all (E:=int_elem) (A:=plenty) 0 [3; 4; 5])
          (vector_world [Live 1; Live 2] 2) with
  | (Ok _, w') => is_vector w' 0 [1; 2; 3; 4; 5] 5
  | (Throw _, w') => ¬ nothing_raises (E:=int_elem) (A:=plenty)
  | _ => False
  end.
Proof.
  assert (is_vector (vector_world [Live 1; Live 2] 2) 0 [1; 2] 2) as Hvec.
  { apply (is_vector_block _ 0 [1; 2] 2 0); [lia|cbn; lia|reflexivity|reflexivity]. }
  assert (2 < 5) as Hn by lia. assert (2 + 3 ≤ 5) as Hfit by lia.
  assert (fits_size_t (Sz:=int_size) 5) as Hfits by (by vm_compute).
  split; [exact Hvec|]. split; [exact Hn|]. split; [exact Hfits|]. split; [exact Hfit|].
  exact (X18_reserve_then_push_back (E:=int_elem) (A:=plenty) (Sz:=int_size)
           _ 0 [1; 2] 2 5 [3; 4; 5] Hvec Hn Hfits Hfit).
Defined.

(** X19. Move assignment of [RawMemory] into an object that owns no
    block hands over pointer and capacity and leaves the source with the
    null pointer and capacity 0, without touching the heap; assigning an
    object to itself does nothing. *)
Theorem X19_raw_memory_move_assign_into_empty {T : Type} (w : @world T)
    (this other : nat) (m : RawMemory) :
  this ≠ other →
  raws w !! this = Some (mkRawMemory nullptr 0) → raws w !! other = Some m →
  (∃ w', RawMemory_move_assign this other w = (Ok tt, w') ∧
         raws w' !! this = Some m ∧
         raws w' !! other = Some (mkRawMemory nullptr 0) ∧
         (∀ a, a ≠ this → a ≠ other → raws w' !! a = raws w !! a) ∧
         heap w' = heap w ∧ leaked w' = leaked w) ∧
  RawMemory_move_assign other other w = (Ok tt, w).
Proof.
  intros Hne Hthis Hother. destruct w as [h r vs k lk]. cbn [raws] in Hthis, Hother.
  split.
  - eexists. split; [by apply RawMemory_move_assign_empty|]. cbn [raws heap leaked].
    split; [by rewrite lookup_insert_ne, lookup_insert_eq|].
    split; [by rewrite lookup_insert_eq|].
    split; [|done]. intros a Ha1 Ha2. by rewrite !lookup_insert_ne.
  - unfold RawMemory_move_assign. by rewrite bool_decide_eq_false_2 by (intros ?; done).
Qed.

Lemma X19_raw_memory_move_assign_into_empty_witness :
  2 ≠ 1 ∧
  raws (set_raws (<[2 := mkRawMemory nullptr 0]> (raws two_buffers)) two_buffers) !! 2
  = Some (mkRawMemory nullptr 0) ∧
  raws (set_raws (<[2 := mkRawMemory nullptr 0]> (raws two_buffers)) two_buffers) !! 1
  = Some (mkRawMemory (Ptr (Some 1) 0) 5) ∧
  ∃ w', RawMemory_move_assign 2 1
          (set_raws (<[2 := mkRawMemory nullptr 0]> (raws two_buffers)) two_buffers)
        = (Ok tt, w') ∧
        raws w' !! 2 = Some (mkRawMemory (Ptr (Some 1) 0) 5) ∧
        raws w' !! 1 = Some (mkRawMemory nullptr 0) ∧
        (∀ a, a ≠ 2 → a ≠ 1 →
              raws w' !! a
              = raws (set_raws (<[2 := mkRawMemory nullptr 0]> (raws two_buffers))
                        two_buffers) !! a) ∧
        heap w' = heap two_buffers ∧ leaked w' = leaked two_buffers.
Proof.
  assert (2 ≠ 1) as Hne by lia.
  assert (raws (set_raws (<[2 := mkRawMemory nullptr 0]> (raws two_buffers)) two_buffers) !! 2
          = Some (mkRawMemory nullptr 0)) as Hthis by reflexivity.
  assert (raws (set_raws (<[2 := mkRawMemory nullptr 0]> (raws two_buffers)) two_buffers) !! 1
          = Some (mkRawMemory (Ptr (Some 1) 0) 5)) as Hother by reflexivity.
  split; [exact Hne|]. split; [exact Hthis|]. split; [exact Hother|].
  exact (proj1 (X19_raw_memory_move_assign_into_empty _ 2 1 _ Hne Hthis Hother)).
Defined.
